(** * json-render: the streaming patch pipeline of the web demo

    A shallow embedding of [apps/web/components/demo.tsx] (patch line
    parser, tree reducer, line framing loop, session handlers, preview
    resolution) and of the [/api/generate] route handler, together with the
    properties the specification states about them.

    JavaScript strings are sequences of UTF-16 code units, objects used as
    dictionaries are finite maps, exceptions are an explicit completion
    type, and React state is an explicit record threaded through the
    handlers. *)

From Stdlib Require Import List ZArith NArith Lia String Ascii Bool DecimalString.
From stdpp Require Import gmap list.
Import ListNotations.

Local Open Scope N_scope.

(** ** JavaScript strings *)

(** A string is the list of its UTF-16 code units. *)
Abbreviation jsstring := (list N).

(** An ASCII literal of the source, as code units. *)
Definition js (s : string) : jsstring :=
  map N_of_ascii (list_ascii_of_string s).

(** ECMAScript [WhiteSpace] and [LineTerminator] code points, the set
    stripped by [String.prototype.trim]. *)
Definition is_whitespace (c : N) : bool :=
  existsb (N.eqb c)
    [9; 10; 11; 12; 13; 32; 160; 5760; 8232; 8233; 8239; 8287; 12288; 65279]
  || ((8192 <=? c) && (c <=? 8202)).

Fixpoint trimStart (s : jsstring) : jsstring :=
  match s with
  | [] => []
  | c :: r => if is_whitespace c then trimStart r else s
  end.

Definition trimEnd (s : jsstring) : jsstring := rev (trimStart (rev s)).

Definition trim (s : jsstring) : jsstring := trimEnd (trimStart s).

Fixpoint startsWith (prefix s : jsstring) : bool :=
  match prefix, s with
  | [], _ => true
  | p :: prefix', c :: s' => (c =? p) && startsWith prefix' s'
  | _ :: _, [] => false
  end.

(** [s.slice(n)] for a non-negative [n]. *)
Definition slice_from (n : nat) (s : jsstring) : jsstring := drop n s.

(** [s.slice(0, n)] for a non-negative [n]. *)
Definition slice_to (n : nat) (s : jsstring) : jsstring := take n s.

(** [s.split(sep)] for a separator of one code unit: the pieces between
    the occurrences of [sep]; never the empty array. *)
Fixpoint split (sep : N) (s : jsstring) : list jsstring :=
  match s with
  | [] => [[]]
  | c :: r =>
      if c =? sep then [] :: split sep r
      else match split sep r with
           | l :: ls => (c :: l) :: ls
           | [] => [[c]]
           end
  end.

(** [a.pop()]: the last element (or undefined) and the shortened array. *)
Fixpoint pop {A} (l : list A) : option A * list A :=
  match l with
  | [] => (None, [])
  | [x] => (Some x, [])
  | x :: r => let '(o, r') := pop r in (o, x :: r')
  end.

(** A string is truthy when it is not empty. *)
Definition truthy_string (s : jsstring) : bool :=
  match s with [] => false | _ => true end.

Definition LF : N := 10.

(** ** Line framing (the read loop of [handleSubmit], lines 208-236)

    One iteration of the loop body up to the [for]: the decoded chunk is
    appended to the pending buffer, the buffer is split on newline, the
    last piece becomes the new pending buffer and the others are the lines
    handed to the parser.  Chunks are taken after [TextDecoder.decode]. *)
Definition frame_chunk (buffer chunk : jsstring) : list jsstring * jsstring :=
  let buffer := buffer ++ chunk in
  let lines := split LF buffer in
  let '(last_piece, lines) := pop lines in
  (lines, default [] last_piece).

(** The whole loop: the lines handed on, in order, and the buffer left
    when the reader reports [done]. *)
Fixpoint read_loop (chunks : list jsstring) (buffer : jsstring)
  : list jsstring * jsstring :=
  match chunks with
  | [] => ([], buffer)
  | chunk :: rest =>
      let '(lines, buffer) := frame_chunk buffer chunk in
      let '(more, final) := read_loop rest buffer in
      (lines ++ more, final)
  end.

(** After the loop: [if (buffer.trim()) { ... parsePatch(buffer) ... }]. *)
Definition end_of_stream (buffer : jsstring) : list jsstring :=
  if truthy_string (trim buffer) then [buffer] else [].

(** ** Values and completions *)

(** A number as a JSON literal denotes it: [(-1)^negative * mantissa *
    10^exponent], exactly.  The rounding to an IEEE double is not modelled;
    the only numeric test of the program, truthiness, is decided on the
    exact value (see [number_is_zero]). *)
Record number := { num_negative : bool; num_mantissa : N; num_exponent : Z }.

(** The values the program handles: [undefined] and what [JSON.parse]
    builds.  An object lists its own properties, one pair per key. *)
#[local] Unset Elimination Schemes.
Inductive value :=
| VUndefined
| VNull
| VBool (b : bool)
| VNum (n : number)
| VStr (s : jsstring)
| VArr (items : list value)
| VObj (props : list (jsstring * value)).
#[local] Set Elimination Schemes.

Inductive jserror :=
| TypeError
| SyntaxError
| RangeError
| AbortError
| Error (message : jsstring).

(** [err.name] *)
Definition error_name (e : jserror) : jsstring :=
  match e with
  | TypeError => js "TypeError"
  | SyntaxError => js "SyntaxError"
  | RangeError => js "RangeError"
  | AbortError => js "AbortError"
  | Error _ => js "Error"
  end.

(** The outcome of evaluating an expression or a function body. *)
Inductive completion (A : Type) :=
| Normal (a : A)
| Throw (e : jserror).
Arguments Normal {A} a.
Arguments Throw {A} e.

#[global] Instance completion_ret : MRet completion := @Normal.
#[global] Instance completion_bind : MBind completion := fun A B f c =>
  match c with
  | Normal a => f a
  | Throw e => Throw e
  end.

(** [try { body } catch { handler }] *)
Definition try_catch {A} (body : completion A) (handler : jserror -> completion A)
  : completion A :=
  match body with
  | Normal a => Normal a
  | Throw e => handler e
  end.

(** A double is zero when the literal is zero or rounds to zero: the
    value is at most [2^-1075], half the least subnormal (ties go to the
    even neighbour, which is zero). *)
Definition number_is_zero (n : number) : bool :=
  (num_mantissa n =? 0)
  || ((num_exponent n <? 0)%Z
      && (Z.of_N (num_mantissa n) * 2 ^ 1075 <=? 10 ^ (- num_exponent n))%Z).

(** [ToBoolean] *)
Definition truthy (v : value) : bool :=
  match v with
  | VUndefined | VNull => false
  | VBool b => b
  | VNum n => negb (number_is_zero n)
  | VStr s => truthy_string s
  | VArr _ | VObj _ => true
  end.

(** [v === "literal"] *)
Definition strict_equals_string (v : value) (s : jsstring) : bool :=
  match v with
  | VStr s' => bool_decide (s' = s)
  | _ => false
  end.

(** Own property lookup in an object built by [JSON.parse]. *)
Fixpoint own_property (props : list (jsstring * value)) (k : jsstring)
  : option value :=
  match props with
  | [] => None
  | (k', v) :: rest => if bool_decide (k' = k) then Some v else own_property rest k
  end.

(** [CreateDataProperty] as [JSON.parse] uses it: a repeated key keeps its
    place and takes the later value. *)
Fixpoint define_property (k : jsstring) (v : value)
  (props : list (jsstring * value)) : list (jsstring * value) :=
  match props with
  | [] => [(k, v)]
  | (k', v') :: rest =>
      if bool_decide (k' = k) then (k, v) :: rest
      else (k', v') :: define_property k v rest
  end.

(** [v.name] for the field names the program reads ([path], [op], [value],
    [prompt], [props], [title], [children], [type], [label]): none of them
    is a property of a built-in prototype, an array index or [length], so
    the read yields the own property of an object, [undefined] on any other
    value, and throws on [null] and [undefined]. *)
Definition get_field (v : value) (name : jsstring) : completion value :=
  match v with
  | VUndefined | VNull => Throw TypeError
  | VObj props => Normal (default VUndefined (own_property props name))
  | _ => Normal VUndefined
  end.

(** ** [JSON.parse]

    The JSON grammar of ECMA-404 as [JSON.parse] accepts it: the four
    whitespace characters, the three literals, numbers without leading
    zeros, strings with the nine escapes and no raw control character,
    arrays and objects.  A syntax error is [Malformed]. *)

Definition ch (a : ascii) : N := N_of_ascii a.

Definition is_json_whitespace (c : N) : bool :=
  (c =? 9) || (c =? 10) || (c =? 13) || (c =? 32).

Fixpoint skip_whitespace (s : jsstring) : jsstring :=
  match s with
  | [] => []
  | c :: r => if is_json_whitespace c then skip_whitespace r else s
  end.

Definition digit_value (c : N) : option N :=
  if (ch "0" <=? c) && (c <=? ch "9") then Some (c - ch "0") else None.

Definition hex_value (c : N) : option N :=
  if (ch "0" <=? c) && (c <=? ch "9") then Some (c - ch "0")
  else if (ch "a" <=? c) && (c <=? ch "f") then Some (c - ch "a" + 10)
  else if (ch "A" <=? c) && (c <=? ch "F") then Some (c - ch "A" + 10)
  else None.

(** The longest run of decimal digits at the head of [s], as digit values. *)
Fixpoint take_digits (s : jsstring) : list N * jsstring :=
  match s with
  | [] => ([], [])
  | c :: r =>
      match digit_value c with
      | Some d => let '(ds, rest) := take_digits r in (d :: ds, rest)
      | None => ([], s)
      end
  end.

Definition digits_value (ds : list N) : N :=
  fold_left (fun acc d => 10 * acc + d) ds 0.

(** [. digits], optional; a dot without a digit after it is an error. *)
Definition parse_fraction (s : jsstring) : option (list N * jsstring) :=
  match s with
  | c :: r =>
      if c =? ch "." then
        match take_digits r with
        | ([], _) => None
        | (ds, rest) => Some (ds, rest)
        end
      else Some ([], s)
  | [] => Some ([], s)
  end.

(** [e|E sign? digits], optional; an exponent mark without digits is an
    error. *)
Definition parse_exponent (s : jsstring) : option (Z * jsstring) :=
  match s with
  | c :: r =>
      if (c =? ch "e") || (c =? ch "E") then
        let '(negative, r) :=
          match r with
          | sign :: r' =>
              if sign =? ch "-" then (true, r')
              else if sign =? ch "+" then (false, r')
              else (false, r)
          | [] => (false, r)
          end in
        match take_digits r with
        | ([], _) => None
        | (ds, rest) =>
            let e := Z.of_N (digits_value ds) in
            Some (if negative then (- e)%Z else e, rest)
        end
      else Some (0%Z, s)
  | [] => Some (0%Z, s)
  end.

Definition parse_number (s : jsstring) : option (number * jsstring) :=
  let '(negative, s) :=
    match s with
    | c :: r => if c =? ch "-" then (true, r) else (false, s)
    | [] => (false, s)
    end in
  match s with
  | [] => None
  | c :: r =>
      match digit_value c with
      | None => None
      | Some d =>
          let '(int_digits, s) :=
            if d =? 0 then ([0], r)
            else let '(ds, rest) := take_digits r in (d :: ds, rest) in
          '(frac_digits, s) ← parse_fraction s;
          '(e, s) ← parse_exponent s;
          Some ({| num_negative := negative;
                   num_mantissa := digits_value (int_digits ++ frac_digits);
                   num_exponent := e - Z.of_nat (length frac_digits) |}, s)
      end
  end.

Definition simple_escape (c : N) : option N :=
  if c =? 34 then Some 34
  else if c =? 92 then Some 92
  else if c =? ch "/" then Some (ch "/")
  else if c =? ch "b" then Some 8
  else if c =? ch "f" then Some 12
  else if c =? ch "n" then Some 10
  else if c =? ch "r" then Some 13
  else if c =? ch "t" then Some 9
  else None.

Definition hex4 (h1 h2 h3 h4 : N) : option N :=
  a ← hex_value h1; b ← hex_value h2; c ← hex_value h3; d ← hex_value h4;
  Some (((a * 16 + b) * 16 + c) * 16 + d).

(** The characters of a string literal after its opening quote, up to the
    closing quote. *)
Fixpoint parse_string_body (s acc : jsstring) : option (jsstring * jsstring) :=
  match s with
  | [] => None
  | c :: r =>
      if c =? 34 then Some (rev acc, r)
      else if c =? 92 then
        match r with
        | [] => None
        | e :: r' =>
            if e =? ch "u" then
              match r' with
              | h1 :: h2 :: h3 :: h4 :: r'' =>
                  match hex4 h1 h2 h3 h4 with
                  | Some u => parse_string_body r'' (u :: acc)
                  | None => None
                  end
              | _ => None
              end
            else
              match simple_escape e with
              | Some u => parse_string_body r' (u :: acc)
              | None => None
              end
        end
      else if c <? 32 then None
      else parse_string_body r (c :: acc)
  end.

Inductive parse_result :=
| Parsed (v : value) (rest : jsstring)
| Malformed
| OutOfFuel.

Fixpoint parse_value (fuel : nat) (s : jsstring) : parse_result :=
  match fuel with
  | O => OutOfFuel
  | S fuel =>
      match skip_whitespace s with
      | [] => Malformed
      | c :: r =>
          if c =? ch "{" then
            match skip_whitespace r with
            | [] => Malformed
            | c' :: r' =>
                if c' =? ch "}" then Parsed (VObj []) r'
                else parse_members fuel r []
            end
          else if c =? ch "[" then
            match skip_whitespace r with
            | [] => Malformed
            | c' :: r' =>
                if c' =? ch "]" then Parsed (VArr []) r'
                else parse_elements fuel r []
            end
          else if c =? 34 then
            match parse_string_body r [] with
            | Some (str, rest) => Parsed (VStr str) rest
            | None => Malformed
            end
          else if startsWith (js "true") (c :: r) then
            Parsed (VBool true) (drop 4 (c :: r))
          else if startsWith (js "false") (c :: r) then
            Parsed (VBool false) (drop 5 (c :: r))
          else if startsWith (js "null") (c :: r) then
            Parsed VNull (drop 4 (c :: r))
          else
            match parse_number (c :: r) with
            | Some (n, rest) => Parsed (VNum n) rest
            | None => Malformed
            end
      end
  end
with parse_elements (fuel : nat) (s : jsstring) (acc : list value) : parse_result :=
  match fuel with
  | O => OutOfFuel
  | S fuel =>
      match parse_value fuel s with
      | Parsed v rest =>
          match skip_whitespace rest with
          | [] => Malformed
          | c :: r =>
              if c =? ch "," then parse_elements fuel r (v :: acc)
              else if c =? ch "]" then Parsed (VArr (rev (v :: acc))) r
              else Malformed
          end
      | Malformed => Malformed
      | OutOfFuel => OutOfFuel
      end
  end
with parse_members (fuel : nat) (s : jsstring) (acc : list (jsstring * value))
  : parse_result :=
  match fuel with
  | O => OutOfFuel
  | S fuel =>
      match skip_whitespace s with
      | [] => Malformed
      | q :: r =>
          if q =? 34 then
            match parse_string_body r [] with
            | None => Malformed
            | Some (key, rest) =>
                match skip_whitespace rest with
                | [] => Malformed
                | colon :: r' =>
                    if colon =? ch ":" then
                      match parse_value fuel r' with
                      | Parsed v rest' =>
                          match skip_whitespace rest' with
                          | [] => Malformed
                          | c :: r'' =>
                              if c =? ch "," then
                                parse_members fuel r'' (define_property key v acc)
                              else if c =? ch "}" then
                                Parsed (VObj (define_property key v acc)) r''
                              else Malformed
                          end
                      | Malformed => Malformed
                      | OutOfFuel => OutOfFuel
                      end
                    else Malformed
                end
            end
          else Malformed
      end
  end.

(** Enough fuel for any text of this length (lemma [parse_value_fuel]). *)
Definition parse_fuel (text : jsstring) : nat := 2 * length text + 2.

(** [JSON.parse(text)]: one value, then nothing but whitespace. *)
Definition JSON_parse (text : jsstring) : completion value :=
  match parse_value (parse_fuel text) text with
  | Parsed v rest =>
      match skip_whitespace rest with
      | [] => Normal v
      | _ :: _ => Throw SyntaxError
      end
  | Malformed => Throw SyntaxError
  | OutOfFuel => Throw RangeError
  end.

(** ** The patch line parser ([parsePatch], lines 84-92) *)
Definition parsePatch (line : jsstring) : completion value :=
  try_catch
    (let trimmed := trim line in
     if negb (truthy_string trimmed) || startsWith (js "//") trimmed
     then Normal VNull
     else JSON_parse trimmed)
    (fun _ => Normal VNull).

(** ** The host environment

    What the program takes from the JavaScript engine and this development
    does not compute: the decimal rendering of a double and the property
    names of [Array.prototype], which vary with the engine version. *)
Class Host := {
  Number_toString : number -> jsstring;
  Array_prototype_has : jsstring -> bool
}.

(** ** Objects used as dictionaries ([UITree.elements]) *)

(** The [[Prototype]] slot: [Object.prototype] for an object literal,
    [null] or a parsed object or array once the [__proto__] setter ran. *)
Inductive prototype :=
| ObjectPrototype
| NullPrototype
| ValuePrototype (v : value).

Record JSObject := { own : gmap jsstring value; proto : prototype }.

(** [{}] *)
Definition empty_object : JSObject := {| own := ∅; proto := ObjectPrototype |}.

(** [{ ...o }]: a new object literal with the own properties of [o]. *)
Definition spread (o : JSObject) : JSObject :=
  {| own := own o; proto := ObjectPrototype |}.

(** The result of a property read that can reach a built-in prototype:
    a value of the program, or a built-in function or prototype object
    (truthy, with none of the fields the program reads). *)
Inductive resolved :=
| Resolved (v : value)
| BuiltIn.

Definition object_prototype_methods : list jsstring :=
  map js ["constructor"; "hasOwnProperty"; "isPrototypeOf";
          "propertyIsEnumerable"; "toLocaleString"; "toString"; "valueOf";
          "__defineGetter__"; "__defineSetter__"; "__lookupGetter__";
          "__lookupSetter__"]%string.

(** A read that arrived at [Object.prototype]; [__proto__] is an accessor
    that answers the prototype of the receiver. *)
Definition object_prototype_get (receiver_proto : resolved) (key : jsstring)
  : resolved :=
  if bool_decide (key = js "__proto__") then receiver_proto
  else if bool_decide (key ∈ object_prototype_methods) then BuiltIn
  else Resolved VUndefined.

(** A canonical array index: decimal digits without a leading zero. *)
Definition array_index (key : jsstring) : option nat :=
  match take_digits key with
  | (d :: ds, []) =>
      if (d =? 0) && negb (bool_decide (ds = [])) then None
      else Some (N.to_nat (digits_value (d :: ds)))
  | _ => None
  end.

Definition number_of_nat (n : nat) : number :=
  {| num_negative := false; num_mantissa := N.of_nat n; num_exponent := 0 |}.

(** The own properties of an array: its elements and [length]. *)
Definition array_own (items : list value) (key : jsstring) : option value :=
  if bool_decide (key = js "length") then Some (VNum (number_of_nat (length items)))
  else i ← array_index key; items !! i.

(** [o[key]] *)
Definition get_property `{Host} (o : JSObject) (key : jsstring) : resolved :=
  match own o !! key with
  | Some v => Resolved v
  | None =>
      match proto o with
      | NullPrototype => Resolved VUndefined
      | ObjectPrototype => object_prototype_get BuiltIn key
      | ValuePrototype (VObj props) =>
          match own_property props key with
          | Some v => Resolved v
          | None => object_prototype_get (Resolved (VObj props)) key
          end
      | ValuePrototype (VArr items) =>
          match array_own items key with
          | Some v => Resolved v
          | None =>
              if Array_prototype_has key then BuiltIn
              else object_prototype_get (Resolved (VArr items)) key
          end
      | ValuePrototype _ => Resolved VUndefined
      end
  end.

(** Whether [o[key] = v] finds no data property named [key] and ends at
    the [__proto__] accessor of [Object.prototype]. *)
Definition reaches_proto_setter (o : JSObject) (key : jsstring) : bool :=
  bool_decide (key = js "__proto__")
  && bool_decide (own o !! key = None)
  && match proto o with
     | ObjectPrototype => true
     | NullPrototype => false
     | ValuePrototype (VObj props) => bool_decide (own_property props key = None)
     | ValuePrototype (VArr _) => true
     | ValuePrototype _ => false
     end.

(** [o[key] = v].  The accessor replaces the prototype when [v] is an
    object or [null] and does nothing otherwise; any other assignment
    creates or updates the own property. *)
Definition set_property (o : JSObject) (key : jsstring) (v : value) : JSObject :=
  if reaches_proto_setter o key then
    match v with
    | VNull => {| own := own o; proto := NullPrototype |}
    | VArr _ | VObj _ => {| own := own o; proto := ValuePrototype v |}
    | _ => o
    end
  else {| own := <[key := v]> (own o); proto := proto o |}.

(** ** The tree reducer ([applyPatch], lines 94-110) *)

Record UITree := { root : value; elements : JSObject }.

(** [{ root: "", elements: {} }] *)
Definition empty_tree : UITree := {| root := VStr []; elements := empty_object |}.

(** The receiver of a [String.prototype] method call [v.method(...)]: a
    call on anything but a string throws (no such method, or a read on
    [null] or [undefined]). *)
Definition string_receiver (v : value) : completion jsstring :=
  match v with
  | VStr s => Normal s
  | _ => Throw TypeError
  end.

(** [path.slice("/elements/".length).split("/")[0]]: the first segment
    after the prefix. *)
Definition element_key (path : jsstring) : jsstring :=
  hd [] (split (ch "/") (slice_from (length (js "/elements/")) path)).

Definition applyPatch (tree : UITree) (patch : value) : completion UITree :=
  let newTree := {| root := root tree; elements := spread (elements tree) |} in
  path ← get_field patch (js "path");
  if strict_equals_string path (js "/root") then
    v ← get_field patch (js "value");
    Normal {| root := v; elements := elements newTree |}
  else
    path ← string_receiver path;
    if startsWith (js "/elements/") path then
      let key := element_key path in
      op ← get_field patch (js "op");
      if truthy_string key
         && (strict_equals_string op (js "set") || strict_equals_string op (js "add"))
      then
        v ← get_field patch (js "value");
        Normal {| root := root newTree;
                  elements := set_property (elements newTree) key v |}
      else Normal newTree
    else Normal newTree.

(** ** [ToString] and the route handler ([POST], unnamed/part_000) *)

Fixpoint to_string `{Host} (v : value) : completion jsstring :=
  match v with
  | VUndefined => Normal (js "undefined")
  | VNull => Normal (js "null")
  | VBool b => Normal (if b then js "true" else js "false")
  | VNum n => Normal (Number_toString n)
  | VStr s => Normal s
  | VArr items =>
      (* Array.prototype.toString is join(","): null and undefined
         elements give the empty string *)
      (fix join (l : list value) : completion jsstring :=
         match l with
         | [] => Normal []
         | x :: r =>
             piece ← match x with
                     | VUndefined | VNull => Normal []
                     | _ => to_string x
                     end;
             rest ← join r;
             Normal (match r with [] => piece | _ => piece ++ ch "," :: rest end)
         end) items
  | VObj props =>
      (* an own toString is never callable: neither it nor valueOf
         yields a primitive *)
      match own_property props (js "toString") with
      | Some _ => Throw TypeError
      | None => Normal (js "[object Object]")
      end
  end.

Definition MAX_PROMPT_LENGTH : nat := 140.

(** The handler up to the call of [streamText]: the result is the
    [prompt] option handed to the generator.  [body] is the text of the
    request body, [req.json()] its parse. *)
Definition POST `{Host} (body : jsstring) : completion jsstring :=
  request ← JSON_parse body;
  prompt ← get_field request (js "prompt");
  text ← to_string (if truthy prompt then prompt else VStr []);
  let sanitizedPrompt := slice_to MAX_PROMPT_LENGTH text in
  Normal sanitizedPrompt.

(** ** The preview ([renderPreview], lines 252-313) *)

Inductive widget :=
| Input (label : value)
| Textarea (label : value)
| Button (label : value).

Inductive preview :=
| Placeholder
| Card (title : value) (children : list (option widget)).

Definition truthy_resolved (r : resolved) : bool :=
  match r with
  | Resolved v => truthy v
  | BuiltIn => true
  end.

(** [r.name] on a truthy read result. *)
Definition resolved_field (r : resolved) (name : jsstring) : completion value :=
  match r with
  | Resolved v => get_field v name
  | BuiltIn => Normal VUndefined
  end.

(** [elements[key]] with [key] any value: the key is converted first. *)
Definition lookup_element `{Host} (els : JSObject) (key : value) : completion resolved :=
  k ← to_string key;
  Normal (get_property els k).

(** [keys.map((key) => elements[key])] *)
Fixpoint resolve_children `{Host} (els : JSObject) (keys : list value)
  : completion (list resolved) :=
  match keys with
  | [] => Normal []
  | key :: rest =>
      r ← lookup_element els key;
      rs ← resolve_children els rest;
      Normal (r :: rs)
  end.

(** The body of [children.map((child) => ...)] of the JSX. *)
Definition render_child (child : resolved) : completion (option widget) :=
  type ← resolved_field child (js "type");
  if strict_equals_string type (js "Input") then
    props ← resolved_field child (js "props");
    label ← get_field props (js "label");
    Normal (Some (Input label))
  else if strict_equals_string type (js "Textarea") then
    props ← resolved_field child (js "props");
    label ← get_field props (js "label");
    Normal (Some (Textarea label))
  else if strict_equals_string type (js "Button") then
    props ← resolved_field child (js "props");
    label ← get_field props (js "label");
    Normal (Some (Button label))
  else Normal None.

Fixpoint render_children (children : list resolved)
  : completion (list (option widget)) :=
  match children with
  | [] => Normal []
  | child :: rest =>
      w ← render_child child;
      ws ← render_children rest;
      Normal (w :: ws)
  end.

(** The children of the root element as the preview resolves them:
    [(root.children ?? []).map(...).filter(Boolean)]. *)
Definition preview_children `{Host} (els : JSObject) (rootElement : resolved)
  : completion (list resolved) :=
  listed ← resolved_field rootElement (js "children");
  keys ← match listed with
         | VUndefined | VNull => Normal []
         | VArr keys => Normal keys
         | _ => Throw TypeError
         end;
  found ← resolve_children els keys;
  Normal (filter (fun r => truthy_resolved r = true) found).

Definition renderPreview `{Host} (currentTree : option UITree) : completion preview :=
  match currentTree with
  | None => Normal Placeholder
  | Some currentTree =>
      if negb (truthy (root currentTree)) then Normal Placeholder
      else
        rootElement ← lookup_element (elements currentTree) (root currentTree);
        if negb (truthy_resolved rootElement) then Normal Placeholder
        else
          props ← resolved_field rootElement (js "props");
          title ← get_field props (js "title");
          children ← preview_children (elements currentTree) rootElement;
          rendered ← render_children children;
          Normal (Card title rendered)
  end.

(** ** The component: state and handlers ([Demo], lines 112-244)

    The React state, the [abortRef] ref and the console are one record.
    Every call of [handleSubmit] creates one [AbortController]; controllers
    are numbered in creation order and the locals of the call suspended at
    an [await] are kept under that number.  Handlers are taken to run
    against the latest render.  The timers of the scripted playback and
    the controls come with the page, further down. *)

Inductive Mode := simulation | interactive.
Inductive Phase := typing | streaming | complete.

Definition SIMULATION_PROMPT : jsstring :=
  js "Create a contact form with name, email, and message".

(** Where a call of [handleSubmit] is suspended, with its live locals. *)
Inductive activation :=
| AwaitingResponse
| Reading (buffer : jsstring) (currentTree : UITree)
| Settled.

Record Demo := {
  mode : Mode;
  phase : Phase;
  typedPrompt : jsstring;
  userPrompt : jsstring;
  streamLines : list jsstring;
  tree : option UITree;
  isLoading : bool;
  abortRef : option nat;
  aborted : gset nat;
  calls : list activation;
  console : list jserror
}.

(** The state of the first render. *)
Definition initial : Demo :=
  {| mode := simulation; phase := typing; typedPrompt := []; userPrompt := [];
     streamLines := []; tree := None; isLoading := false;
     abortRef := None; aborted := ∅; calls := []; console := [] |}.

Definition setUserPrompt (s : jsstring) (st : Demo) : Demo :=
  {| mode := mode st; phase := phase st; typedPrompt := typedPrompt st;
     userPrompt := s; streamLines := streamLines st; tree := tree st;
     isLoading := isLoading st; abortRef := abortRef st;
     aborted := aborted st; calls := calls st; console := console st |}.

Definition setStreamLines (ls : list jsstring) (st : Demo) : Demo :=
  {| mode := mode st; phase := phase st; typedPrompt := typedPrompt st;
     userPrompt := userPrompt st; streamLines := ls; tree := tree st;
     isLoading := isLoading st; abortRef := abortRef st;
     aborted := aborted st; calls := calls st; console := console st |}.

Definition setTree (t : option UITree) (st : Demo) : Demo :=
  {| mode := mode st; phase := phase st; typedPrompt := typedPrompt st;
     userPrompt := userPrompt st; streamLines := streamLines st; tree := t;
     isLoading := isLoading st; abortRef := abortRef st;
     aborted := aborted st; calls := calls st; console := console st |}.

Definition setIsLoading (b : bool) (st : Demo) : Demo :=
  {| mode := mode st; phase := phase st; typedPrompt := typedPrompt st;
     userPrompt := userPrompt st; streamLines := streamLines st; tree := tree st;
     isLoading := b; abortRef := abortRef st;
     aborted := aborted st; calls := calls st; console := console st |}.

(** [console.error("Generation error:", err)] *)
Definition console_error (err : jserror) (st : Demo) : Demo :=
  {| mode := mode st; phase := phase st; typedPrompt := typedPrompt st;
     userPrompt := userPrompt st; streamLines := streamLines st; tree := tree st;
     isLoading := isLoading st; abortRef := abortRef st;
     aborted := aborted st; calls := calls st; console := console st ++ [err] |}.

(** [abortRef.current?.abort()] *)
Definition abort_current (st : Demo) : Demo :=
  {| mode := mode st; phase := phase st; typedPrompt := typedPrompt st;
     userPrompt := userPrompt st; streamLines := streamLines st; tree := tree st;
     isLoading := isLoading st; abortRef := abortRef st;
     aborted := match abortRef st with
                | Some c => {[c]} ∪ aborted st
                | None => aborted st
                end;
     calls := calls st; console := console st |}.

(** [abortRef.current = new AbortController()], and the call that owns
    the new controller suspended at [await fetch(...)]. *)
Definition new_controller (st : Demo) : Demo :=
  {| mode := mode st; phase := phase st; typedPrompt := typedPrompt st;
     userPrompt := userPrompt st; streamLines := streamLines st; tree := tree st;
     isLoading := isLoading st; abortRef := Some (length (calls st));
     aborted := aborted st; calls := calls st ++ [AwaitingResponse];
     console := console st |}.

Definition suspend (c : nat) (a : activation) (st : Demo) : Demo :=
  {| mode := mode st; phase := phase st; typedPrompt := typedPrompt st;
     userPrompt := userPrompt st; streamLines := streamLines st; tree := tree st;
     isLoading := isLoading st; abortRef := abortRef st;
     aborted := aborted st; calls := <[c := a]> (calls st); console := console st |}.

Definition skip_to_interactive (st : Demo) : Demo :=
  {| mode := interactive; phase := complete; typedPrompt := SIMULATION_PROMPT;
     userPrompt := []; streamLines := streamLines st; tree := tree st;
     isLoading := isLoading st; abortRef := abortRef st;
     aborted := aborted st; calls := calls st; console := console st |}.

(** [stopGeneration], lines 127-137. *)
Definition stopGeneration (st : Demo) : Demo :=
  let st := abort_current st in
  let st := match mode st with
            | simulation => skip_to_interactive st
            | interactive => st
            end in
  setIsLoading false st.

(** [handleSubmit] up to its first [await], lines 184-200. *)
Definition handleSubmit (st : Demo) : Demo :=
  if negb (truthy_string (trim (userPrompt st))) || isLoading st then st
  else
    let st := abort_current st in
    let st := new_controller st in
    let st := setIsLoading true st in
    let st := setStreamLines [] st in
    setTree (Some empty_tree) st.

(** The body of [for (const line of lines)] and of the final flush:
    parse, reduce, publish the snapshot and the trimmed line. *)
Definition process_line (line : jsstring) (currentTree : UITree) (st : Demo)
  : completion UITree * Demo :=
  match parsePatch line with
  | Throw e => (Throw e, st)
  | Normal patch =>
      if truthy patch then
        match applyPatch currentTree patch with
        | Throw e => (Throw e, st)
        | Normal currentTree =>
            let st := setTree (Some currentTree) st in
            let st := setStreamLines (streamLines st ++ [trim line]) st in
            (Normal currentTree, st)
        end
      else (Normal currentTree, st)
  end.

Fixpoint process_lines (lines : list jsstring) (currentTree : UITree) (st : Demo)
  : completion UITree * Demo :=
  match lines with
  | [] => (Normal currentTree, st)
  | line :: rest =>
      match process_line line currentTree st with
      | (Normal currentTree, st) => process_lines rest currentTree st
      | (Throw e, st) => (Throw e, st)
      end
  end.

(** The [catch] and [finally] blocks, lines 237-243: the call with
    controller [c] ends with [outcome]. *)
Definition settle {A} (c : nat) (outcome : completion A) (st : Demo) : Demo :=
  let st := match outcome with
            | Throw err =>
                if negb (bool_decide (error_name err = js "AbortError"))
                then console_error err st
                else st
            | Normal _ => st
            end in
  suspend c Settled (setIsLoading false st).

(** What the transport delivers to a suspended call. *)
Inductive transport_event :=
| Responded (ok : bool) (status : N) (has_body : bool)
| Chunk (text : jsstring)
| Done
| Rejected (err : jserror).

Definition is_abort_rejection (ev : transport_event) : bool :=
  match ev with
  | Rejected AbortError => true
  | _ => false
  end.

Definition decimal (n : N) : jsstring :=
  js (NilZero.string_of_uint (N.to_uint n)).

(** The call with controller [c] resumes on [ev].  [None] when the event
    cannot occur: the call is not suspended on it, or the signal of [c]
    has fired, after which the pending [fetch] or [read] can only reject
    with the abort error. *)
Definition resume (c : nat) (ev : transport_event) (st : Demo) : option Demo :=
  act ← calls st !! c;
  if bool_decide (c ∈ aborted st) && negb (is_abort_rejection ev)
  then None
  else
    match act, ev with
    | Settled, _ => None
    | _, Rejected err => Some (settle c (@Throw unit err) st)
    | AwaitingResponse, Responded ok status has_body =>
        if negb ok then
          Some (settle c (@Throw unit (Error (js "HTTP error: " ++ decimal status))) st)
        else if negb has_body then
          Some (settle c (@Throw unit (Error (js "No response body"))) st)
        else Some (suspend c (Reading [] empty_tree) st)
    | Reading buffer currentTree, Chunk text =>
        let '(lines, buffer) := frame_chunk buffer text in
        match process_lines lines currentTree st with
        | (Normal currentTree, st) => Some (suspend c (Reading buffer currentTree) st)
        | (Throw err, st) => Some (settle c (@Throw unit err) st)
        end
    | Reading buffer currentTree, Done =>
        let '(outcome, st) := process_lines (end_of_stream buffer) currentTree st in
        Some (settle c outcome st)
    | _, _ => None
    end.

Inductive action :=
| TypePrompt (s : jsstring)
| Submit
| Stop
| Transport (c : nat) (ev : transport_event).

Definition step (a : action) (st : Demo) : option Demo :=
  match a with
  | TypePrompt s => Some (setUserPrompt s st)
  | Submit => Some (handleSubmit st)
  | Stop => Some (stopGeneration st)
  | Transport c ev => resume c ev st
  end.

Fixpoint run (actions : list action) (st : Demo) : option Demo :=
  match actions with
  | [] => Some st
  | a :: rest => st ← step a st; run rest st
  end.

(** ** The reducer over a store of objects

    [applyPatch] once more, with object identity explicit: objects live in
    a store and values refer to them by location, so that which objects a
    call creates, which it writes to and which it merely passes on can be
    told apart. *)
Module Store.

Abbreviation loc := nat.

(** A value: a primitive, or a reference to an object of the store. *)
Inductive rvalue :=
| RUndefined
| RNull
| RBool (b : bool)
| RNum (n : number)
| RStr (s : jsstring)
| RRef (l : loc).

Inductive rprototype :=
| ObjectProto
| ArrayProto
| NullProto
| RefProto (l : loc).

(** An object: own properties and the [[Prototype]] slot.  An array is
    an object with index properties whose prototype is [ArrayProto]. *)
Record object := { props : gmap jsstring rvalue; prototype_of : rprototype }.

Abbreviation store := (gmap loc object).

(** Computations that read and write the store and may throw. *)
Definition M (A : Type) : Type := store -> completion A * store.

#[global] Instance M_ret : MRet M := fun A a h => (Normal a, h).
#[global] Instance M_bind : MBind M := fun A B f m h =>
  match m h with
  | (Normal a, h') => f a h'
  | (Throw e, h') => (Throw e, h')
  end.

Definition throw {A} (e : jserror) : M A := fun h => (Throw e, h).

(** A new object at a location not in use. *)
Definition alloc (o : object) : M rvalue := fun h =>
  let l := fresh (dom h) in (Normal (RRef l), <[l := o]> h).

(** The own properties a spread [...v] copies; nothing for [null] and
    [undefined]. *)
Definition own_properties (v : rvalue) : M (gmap jsstring rvalue) := fun h =>
  (Normal match v with
          | RRef l => match h !! l with Some o => props o | None => ∅ end
          | _ => ∅
          end, h).

(** [v.name] for the field names of the program, as [get_field] above:
    the objects read are object literals and results of [JSON.parse],
    whose prototypes have none of these names. *)
Definition get_field (v : rvalue) (name : jsstring) : M rvalue := fun h =>
  match v with
  | RUndefined | RNull => (Throw TypeError, h)
  | RRef l => (Normal (default RUndefined (o ← h !! l; props o !! name)), h)
  | _ => (Normal RUndefined, h)
  end.

(** Whether a prototype chain arrives at [Object.prototype] without an
    own property [key] on the way. *)
Fixpoint chain_reaches_accessor (fuel : nat) (h : store) (p : rprototype)
  (key : jsstring) : bool :=
  match p with
  | ObjectProto | ArrayProto => true
  | NullProto => false
  | RefProto l =>
      match fuel with
      | O => false
      | S fuel =>
          match h !! l with
          | Some o =>
              match props o !! key with
              | Some _ => false
              | None => chain_reaches_accessor fuel h (prototype_of o) key
              end
          | None => false
          end
      end
  end.

(** [target[key] = v] on an object of the store. *)
Definition assign (target : rvalue) (key : jsstring) (v : rvalue) : M unit := fun h =>
  match target with
  | RUndefined | RNull => (Throw TypeError, h)
  | RRef l =>
      match h !! l with
      | None => (Normal (), h)
      | Some o =>
          if bool_decide (key = js "__proto__")
             && bool_decide (props o !! key = None)
             && chain_reaches_accessor (size h) h (prototype_of o) key
          then
            match v with
            | RNull =>
                (Normal (), <[l := {| props := props o; prototype_of := NullProto |}]> h)
            | RRef l' =>
                (Normal (), <[l := {| props := props o; prototype_of := RefProto l' |}]> h)
            | _ => (Normal (), h)
            end
          else
            (Normal (), <[l := {| props := <[key := v]> (props o);
                                   prototype_of := prototype_of o |}]> h)
      end
  | _ => (Normal (), h)
  end.

Definition strict_equals_string (v : rvalue) (s : jsstring) : bool :=
  match v with
  | RStr s' => bool_decide (s' = s)
  | _ => false
  end.

Definition string_receiver (v : rvalue) : M jsstring :=
  match v with
  | RStr s => mret s
  | _ => throw TypeError
  end.

(** [{ ...tree, elements: { ...tree.elements } }] *)
Definition copy_tree (tree : rvalue) : M rvalue :=
  copied ← own_properties tree;
  tree_elements ← get_field tree (js "elements");
  copied_elements ← own_properties tree_elements;
  newElements ← alloc {| props := copied_elements; prototype_of := ObjectProto |};
  alloc {| props := <[js "elements" := newElements]> copied;
           prototype_of := ObjectProto |}.

Definition applyPatch (tree patch : rvalue) : M rvalue :=
  newTree ← copy_tree tree;
  path ← get_field patch (js "path");
  if strict_equals_string path (js "/root") then
    v ← get_field patch (js "value");
    _ ← assign newTree (js "root") v;
    mret newTree
  else
    path ← string_receiver path;
    if startsWith (js "/elements/") path then
      let key := element_key path in
      op ← get_field patch (js "op");
      if truthy_string key
         && (strict_equals_string op (js "set") || strict_equals_string op (js "add"))
      then
        v ← get_field patch (js "value");
        newElements ← get_field newTree (js "elements");
        _ ← assign newElements key v;
        mret newTree
      else mret newTree
    else mret newTree.

End Store.

Import Store(loc, store, rvalue(..), rprototype(..), object(..), props, prototype_of, M, M_ret, M_bind, throw).

(** ** Inputs of the examples and predicates of the statements *)

(** A JSON text of an example, written with ['] for the double quote. *)
Definition json (s : string) : jsstring :=
  map (fun c => if c =? ch "'" then 34 else c) (js s).

(** The two operations of the forward-reference example. *)
Definition set_root_line : jsstring :=
  json "{'op':'set','path':'/root','value':'form'}".

Definition add_form_line : jsstring :=
  json "{'op':'add','path':'/elements/form','value':{'key':'form','type':'Form','props':{},'children':['name']}}".

Definition form_element : value :=
  VObj [(js "key", VStr (js "form")); (js "type", VStr (js "Form"));
        (js "props", VObj []); (js "children", VArr [VStr (js "name")])].

(** [op] is ["set"] or ["add"]. *)
Definition stores (op : value) : Prop :=
  op = VStr (js "set") \/ op = VStr (js "add").

Definition login_prompt : jsstring := js "Create a login form".

(** The playback is skipped, a prompt typed and submitted. *)
Definition first_session : list action :=
  [Stop; TypePrompt login_prompt; Submit].

(** The same, the response arrives, one line is published, and the user
    stops the generation. *)
Definition stopped_session : list action :=
  first_session ++
  [Transport 0 (Responded true 200 true);
   Transport 0 (Chunk (set_root_line ++ [LF]));
   Stop].

(** The first request up to the arrival of its response. *)
Definition reading_session : list action :=
  first_session ++ [Transport 0 (Responded true 200 true)].

(** What the transport delivers to the call with controller [c] for a
    body made of [chunks]: each chunk, then the end of the stream. *)
Definition chunk_events (c : nat) (chunks : list jsstring) : list action :=
  map (fun text => Transport c (Chunk text)) chunks ++ [Transport c Done].

Definition state_after (actions : list action) : Demo :=
  default initial (run actions initial).

Definition reachable (st : Demo) : Prop :=
  exists actions, run actions initial = Some st.

(** Controllers are created in order, and every controller but the one
    [abortRef] holds has fired. *)
Definition superseded_fired (st : Demo) : Prop :=
  (forall c, abortRef st = Some c -> (c < length (calls st))%nat)
  /\ (forall c, c ∈ aborted st -> (c < length (calls st))%nat)
  /\ (forall c, (c < length (calls st))%nat -> abortRef st <> Some c -> c ∈ aborted st).

(** A store with an empty tree at 0 (its [elements] at 1) and an
    [add /elements/form] operation at 2 whose value is the object at 3. *)
Definition example_store : store :=
  {[ 0%nat := {| props := {[ js "root" := RStr [];
                                   js "elements" := RRef 1 ]};
                 prototype_of := ObjectProto |};
     1%nat := {| props := ∅; prototype_of := ObjectProto |};
     2%nat := {| props := {[ js "op" := RStr (js "add");
                                   js "path" := RStr (js "/elements/form");
                                   js "value" := RRef 3 ]};
                 prototype_of := ObjectProto |};
     3%nat := {| props := {[ js "key" := RStr (js "form");
                                   js "type" := RStr (js "Form") ]};
                 prototype_of := ObjectProto |} ]}.

(** ** The store and the values

    How an object of the store stands for a value of the reducer above,
    so that the two forms of [applyPatch] can be compared. *)

(** The name of the property that holds element [i] of an array. *)
Definition index_key (i : nat) : jsstring := decimal (N.of_nat i).

(** The own properties of an array object: [length] and one property per
    element. *)
Definition array_props (items : list rvalue) : gmap jsstring rvalue :=
  <[js "length" := RNum (number_of_nat (length items))]>
    (list_to_map (imap (fun i rv => (index_key i, rv)) items)).

(** [rv] in the store [h] is the value [v], looking at most [depth]
    objects deep. *)
Fixpoint represents (depth : nat) (h : store) (rv : rvalue) (v : value)
  : Prop :=
  match rv, v with
  | RUndefined, VUndefined => True
  | RNull, VNull => True
  | RBool b, VBool b' => b = b'
  | RNum n, VNum n' => n = n'
  | RStr s, VStr s' => s = s'
  | RRef l, VObj fields =>
      match depth with
      | O => False
      | S depth =>
          exists o, h !! l = Some o /\ prototype_of o = ObjectProto
            /\ forall k, option_Forall2 (represents depth h)
                           (props o !! k) (own_property fields k)
      end
  | RRef l, VArr items =>
      match depth with
      | O => False
      | S depth =>
          exists o ritems, h !! l = Some o /\ prototype_of o = ArrayProto
            /\ props o = array_props ritems
            /\ Forall2 (represents depth h) ritems items
      end
  | _, _ => False
  end.

Definition represented (h : store) (rv : rvalue) (v : value) : Prop :=
  exists depth, represents depth h rv v.

Definition represents_prototype (h : store) (p : rprototype) (q : prototype)
  : Prop :=
  match p, q with
  | ObjectProto, ObjectPrototype => True
  | NullProto, NullPrototype => True
  | RefProto l, ValuePrototype v => represented h (RRef l) v
  | _, _ => False
  end.

(** The object at [t] is the tree [T]. *)
Definition represents_tree (h : store) (t : rvalue) (T : UITree) : Prop :=
  exists lt ot le oe,
    t = RRef lt /\ h !! lt = Some ot
    /\ represented h (default RUndefined (props ot !! js "root")) (root T)
    /\ props ot !! js "elements" = Some (RRef le) /\ h !! le = Some oe
    /\ (forall k, option_Forall2 (represented h)
                     (props oe !! k) (own (elements T) !! k))
    /\ represents_prototype h (prototype_of oe) (proto (elements T)).

Definition extends (h h' : store) : Prop :=
  forall l o, h !! l = Some o -> h' !! l = Some o.

(** Outcomes that agree: both normal with related results, or both the
    same throw. *)
Definition agree {A B} (R : A -> B -> Prop) (c : completion A)
  (d : completion B) : Prop :=
  match c, d with
  | Normal a, Normal b => R a b
  | Throw e, Throw e' => e = e'
  | _, _ => False
  end.

Arguments ch : simpl never.
Arguments js : simpl never.

(** A host for the examples, none of which converts a number or reads
    through an array: numbers print as their mantissa and no name is an
    array method. *)
Definition example_host : Host :=
  {| Number_toString := fun n => decimal (num_mantissa n);
     Array_prototype_has := fun _ => false |}.

(** ** The request body ([JSON.stringify({ prompt: userPrompt })], line 198) *)

(** The lower-case hexadecimal digit of a value below 16. *)
Definition hex_digit (d : N) : N :=
  if d <? 10 then ch "0" + d else ch "a" + (d - 10).

(** [UnicodeEscape]: [\u] and four lower-case hexadecimal digits. *)
Definition UnicodeEscape (c : N) : jsstring :=
  [92; ch "u"; hex_digit (c / 4096 mod 16); hex_digit (c / 256 mod 16);
   hex_digit (c / 16 mod 16); hex_digit (c mod 16)].

(** The code units D800-DBFF and DC00-DFFF. *)
Definition is_leading_surrogate (c : N) : bool := (55296 <=? c) && (c <=? 56319).

Definition is_trailing_surrogate (c : N) : bool := (56320 <=? c) && (c <=? 57343).

(** The single-character escapes of [QuoteJSONString]. *)
Definition json_escape (c : N) : option jsstring :=
  if c =? 8 then Some [92; ch "b"]
  else if c =? 9 then Some [92; ch "t"]
  else if c =? 10 then Some [92; ch "n"]
  else if c =? 12 then Some [92; ch "f"]
  else if c =? 13 then Some [92; ch "r"]
  else if c =? 34 then Some [92; 34]
  else if c =? 92 then Some [92; 92]
  else None.

(** A code point that is one code unit: escaped when the table lists it,
    when it is a control character and when it is a lone surrogate. *)
Definition quote_unit (c : N) : jsstring :=
  match json_escape c with
  | Some escape => escape
  | None =>
      if (c <? 32) || is_leading_surrogate c || is_trailing_surrogate c
      then UnicodeEscape c
      else [c]
  end.

(** The code points of a string in turn: a leading surrogate followed by
    a trailing one is one code point and is copied. *)
Fixpoint quote_units (s : jsstring) : jsstring :=
  match s with
  | [] => []
  | c :: r =>
      match r with
      | d :: r' =>
          if is_leading_surrogate c && is_trailing_surrogate d
          then c :: d :: quote_units r'
          else quote_unit c ++ quote_units r
      | [] => quote_unit c
      end
  end.

(** [QuoteJSONString] of ECMA-262: the string between double quotes,
    every code point escaped as [JSON.stringify] does. *)
Definition QuoteJSONString (s : jsstring) : jsstring :=
  34 :: quote_units s ++ [34].

(** The [body] of the [fetch] call: an object with the one property
    [prompt], a string. *)
Definition request_body (userPrompt : jsstring) : jsstring :=
  ch "{" :: QuoteJSONString (js "prompt") ++ ch ":" :: QuoteJSONString userPrompt ++ [ch "}"].

(** [String.prototype.isWellFormed]: no surrogate stands alone, so the
    UTF-8 encoding of the string loses nothing. *)
Fixpoint isWellFormed (s : jsstring) : bool :=
  match s with
  | [] => true
  | c :: r =>
      if is_leading_surrogate c then
        match r with
        | d :: r' => is_trailing_surrogate d && isWellFormed r'
        | [] => false
        end
      else negb (is_trailing_surrogate c) && isWellFormed r
  end.

(** No surrogate among these code units. *)
Definition plain (s : jsstring) : Prop :=
  Forall (fun c => is_leading_surrogate c = false /\ is_trailing_surrogate c = false) s.

(** ** The page: scripted playback, timers and controls ([Demo], lines 112-182,
    246-253 and the JSX)

    The component once more, with the state the handlers above leave out
    and with its timers.  An effect with dependencies [[mode, phase]] runs
    after the first render and after every update that changes [mode] or
    [phase]; its cleanup, which clears the interval the previous run
    started, runs first.  A pending timeout is cleared by nothing.  Timers
    fire in any order (their delays are not modelled), and a control takes
    an event only while the JSX renders it enabled. *)

(** The setters of the state that the handlers above do not write. *)
Definition setMode (m : Mode) (st : Demo) : Demo :=
  {| mode := m; phase := phase st; typedPrompt := typedPrompt st;
     userPrompt := userPrompt st; streamLines := streamLines st; tree := tree st;
     isLoading := isLoading st; abortRef := abortRef st;
     aborted := aborted st; calls := calls st; console := console st |}.

Definition setPhase (ph : Phase) (st : Demo) : Demo :=
  {| mode := mode st; phase := ph; typedPrompt := typedPrompt st;
     userPrompt := userPrompt st; streamLines := streamLines st; tree := tree st;
     isLoading := isLoading st; abortRef := abortRef st;
     aborted := aborted st; calls := calls st; console := console st |}.

Definition setTypedPrompt (s : jsstring) (st : Demo) : Demo :=
  {| mode := mode st; phase := phase st; typedPrompt := s;
     userPrompt := userPrompt st; streamLines := streamLines st; tree := tree st;
     isLoading := isLoading st; abortRef := abortRef st;
     aborted := aborted st; calls := calls st; console := console st |}.

(** [interface SimulationStage], lines 20-23: the tree a stage shows and
    the line it adds to the log. *)
Record SimulationStage := { stage_tree : UITree; stage_stream : jsstring }.

(** The [form] element of a stage, with the children it lists. *)
Definition simulated_form (children : list string) : value :=
  VObj [(js "key", VStr (js "form")); (js "type", VStr (js "Form"));
        (js "props", VObj [(js "title", VStr (js "Contact Us"))]);
        (js "children", VArr (map (fun k => VStr (js k)) children))].

(** An input or text area of a stage. *)
Definition simulated_field (key type label : string) : value :=
  VObj [(js "key", VStr (js key)); (js "type", VStr (js type));
        (js "props", VObj [(js "label", VStr (js label)); (js "name", VStr (js key))])].

(** The button of the last stage. *)
Definition simulated_submit : value :=
  VObj [(js "key", VStr (js "submit")); (js "type", VStr (js "Button"));
        (js "props", VObj [(js "label", VStr (js "Send Message"));
                           (js "action", VStr (js "submit"))])].

(** The tree of a stage: the root [form] and the entries written out. *)
Definition simulated_tree (entries : list (string * value)) : UITree :=
  {| root := VStr (js "form");
     elements := {| own := list_to_map (map (fun e => (js e.1, e.2)) entries);
                    proto := ObjectPrototype |} |}.

(** [SIMULATION_STAGES], lines 25-46. *)
Definition SIMULATION_STAGES : list SimulationStage :=
  [ {| stage_tree := simulated_tree [("form", simulated_form [])];
       stage_stream := json "{'op':'set','path':'/root','value':'form'}" |};
    {| stage_tree :=
         simulated_tree [("form", simulated_form ["name"]);
                         ("name", simulated_field "name" "Input" "Name")];
       stage_stream :=
         json "{'op':'add','path':'/elements/form','value':{'key':'form','type':'Form','props':{'title':'Contact Us'},'children':['name']}}" |};
    {| stage_tree :=
         simulated_tree [("form", simulated_form ["name"; "email"]);
                         ("name", simulated_field "name" "Input" "Name");
                         ("email", simulated_field "email" "Input" "Email")];
       stage_stream :=
         json "{'op':'add','path':'/elements/email','value':{'key':'email','type':'Input','props':{'label':'Email','name':'email'}}}" |};
    {| stage_tree :=
         simulated_tree [("form", simulated_form ["name"; "email"; "message"]);
                         ("name", simulated_field "name" "Input" "Name");
                         ("email", simulated_field "email" "Input" "Email");
                         ("message", simulated_field "message" "Textarea" "Message")];
       stage_stream :=
         json "{'op':'add','path':'/elements/message','value':{'key':'message','type':'Textarea','props':{'label':'Message','name':'message'}}}" |};
    {| stage_tree :=
         simulated_tree [("form", simulated_form ["name"; "email"; "message"; "submit"]);
                         ("name", simulated_field "name" "Input" "Name");
                         ("email", simulated_field "email" "Input" "Email");
                         ("message", simulated_field "message" "Textarea" "Message");
                         ("submit", simulated_submit)];
       stage_stream :=
         json "{'op':'add','path':'/elements/submit','value':{'key':'submit','type':'Button','props':{'label':'Send Message','action':'submit'}}}" |} ]%string.

(** [type Tab = "stream" | "json" | "code"] *)
Inductive Tab := tab_stream | tab_json | tab_code.

(** The callback of a pending [setTimeout]. *)
Inductive timeout :=
| StartStreaming   (* () => setPhase("streaming"), line 150 *)
| FinishPlayback   (* lines 173-177 *)
| ClearAction.     (* () => setActionFired(false), line 248 *)

(** The state of the component and its timers. *)
Record Page := {
  demo : Demo;
  stageIndex : Z;
  activeTab : Tab;
  actionFired : bool;
  (** the interval of the typing effect, with its counter [i] *)
  typing_interval : option nat;
  (** the interval of the streaming effect, with its counter [i] *)
  streaming_interval : option nat;
  timeouts : list timeout
}.

(** The page with the state of the handlers replaced, and the setters of
    its other parts. *)
Definition with_demo (d : Demo) (p : Page) : Page :=
  {| demo := d; stageIndex := stageIndex p; activeTab := activeTab p;
     actionFired := actionFired p; typing_interval := typing_interval p;
     streaming_interval := streaming_interval p; timeouts := timeouts p |}.

Definition setStageIndex (i : Z) (p : Page) : Page :=
  {| demo := demo p; stageIndex := i; activeTab := activeTab p;
     actionFired := actionFired p; typing_interval := typing_interval p;
     streaming_interval := streaming_interval p; timeouts := timeouts p |}.

Definition setActiveTab (tab : Tab) (p : Page) : Page :=
  {| demo := demo p; stageIndex := stageIndex p; activeTab := tab;
     actionFired := actionFired p; typing_interval := typing_interval p;
     streaming_interval := streaming_interval p; timeouts := timeouts p |}.

Definition setActionFired (b : bool) (p : Page) : Page :=
  {| demo := demo p; stageIndex := stageIndex p; activeTab := activeTab p;
     actionFired := b; typing_interval := typing_interval p;
     streaming_interval := streaming_interval p; timeouts := timeouts p |}.

Definition set_typing_interval (i : option nat) (p : Page) : Page :=
  {| demo := demo p; stageIndex := stageIndex p; activeTab := activeTab p;
     actionFired := actionFired p; typing_interval := i;
     streaming_interval := streaming_interval p; timeouts := timeouts p |}.

Definition set_streaming_interval (i : option nat) (p : Page) : Page :=
  {| demo := demo p; stageIndex := stageIndex p; activeTab := activeTab p;
     actionFired := actionFired p; typing_interval := typing_interval p;
     streaming_interval := i; timeouts := timeouts p |}.

Definition set_timeouts (ts : list timeout) (p : Page) : Page :=
  {| demo := demo p; stageIndex := stageIndex p; activeTab := activeTab p;
     actionFired := actionFired p; typing_interval := typing_interval p;
     streaming_interval := streaming_interval p; timeouts := ts |}.

(** [setTimeout(callback, delay)] *)
Definition setTimeout (callback : timeout) (p : Page) : Page :=
  set_timeouts (timeouts p ++ [callback]) p.

(** [stageIndex >= 0 ? SIMULATION_STAGES[stageIndex] : null] *)
Definition currentSimulationStage (p : Page) : option SimulationStage :=
  if (0 <=? stageIndex p)%Z then SIMULATION_STAGES !! Z.to_nat (stageIndex p) else None.

(** [mode === "simulation" ? currentSimulationStage?.tree : tree], what
    the preview and the JSON tab show. *)
Definition currentTree (p : Page) : option UITree :=
  match mode (demo p) with
  | simulation => stage_tree <$> currentSimulationStage p
  | interactive => tree (demo p)
  end.

(** The body of the typing effect, lines 140-155: the interval it
    starts, if any. *)
Definition typing_effect (d : Demo) : option nat :=
  match mode d, phase d with
  | simulation, typing => Some 0%nat
  | _, _ => None
  end.

(** The body of the streaming effect, lines 158-182. *)
Definition streaming_effect (d : Demo) : option nat :=
  match mode d, phase d with
  | simulation, streaming => Some 0%nat
  | _, _ => None
  end.

(** Whether [[mode, phase]] is the same in both states. *)
Definition same_dependencies (d d' : Demo) : bool :=
  match mode d, mode d' with
  | simulation, simulation | interactive, interactive =>
      match phase d, phase d' with
      | typing, typing | streaming, streaming | complete, complete => true
      | _, _ => false
      end
  | _, _ => false
  end.

(** After an update: when [mode] or [phase] changed, the cleanups clear
    the intervals and the effects run again. *)
Definition commit (before : Demo) (p : Page) : Page :=
  if same_dependencies before (demo p) then p
  else set_streaming_interval (streaming_effect (demo p))
         (set_typing_interval (typing_effect (demo p)) p).

(** The first render and its effects. *)
Definition mounted : Page :=
  {| demo := initial; stageIndex := (-1)%Z; activeTab := tab_json;
     actionFired := false; typing_interval := typing_effect initial;
     streaming_interval := streaming_effect initial; timeouts := [] |}.

(** The callback of the typing interval, lines 144-152, with counter [i]. *)
Definition typing_tick (i : nat) (p : Page) : Page :=
  if (i <? length SIMULATION_PROMPT)%nat then
    set_typing_interval (Some (S i))
      (with_demo (setTypedPrompt (slice_to (i + 1) SIMULATION_PROMPT) (demo p)) p)
  else setTimeout StartStreaming (set_typing_interval None p).

(** The callback of the streaming interval, lines 162-179. *)
Definition streaming_tick (i : nat) (p : Page) : Page :=
  if (i <? length SIMULATION_STAGES)%nat then
    let p := match SIMULATION_STAGES !! i with
             | Some stage =>
                 let p := setStageIndex (Z.of_nat i) p in
                 let d := setStreamLines (streamLines (demo p) ++ [stage_stream stage]) (demo p) in
                 with_demo (setTree (Some (stage_tree stage)) d) p
             | None => p
             end in
    set_streaming_interval (Some (S i)) p
  else setTimeout FinishPlayback (set_streaming_interval None p).

(** A pending timeout runs its callback. *)
Definition fire (callback : timeout) (p : Page) : Page :=
  match callback with
  | StartStreaming => with_demo (setPhase streaming (demo p)) p
  | FinishPlayback =>
      with_demo (setUserPrompt [] (setMode interactive (setPhase complete (demo p)))) p
  | ClearAction => setActionFired false p
  end.

(** [handleAction], lines 246-249. *)
Definition handleAction (p : Page) : Page :=
  setTimeout ClearAction (setActionFired true p).

(** The text input is rendered in interactive mode, [disabled] while
    loading, and takes at most [maxLength] code units. *)
Definition input_enabled (d : Demo) : bool :=
  match mode d with
  | interactive => negb (isLoading d)
  | simulation => false
  end.

(** [maxLength={140}] on the input. *)
Definition maxLength : nat := 140.

(** The Stop button replaces the Submit button in simulation mode and
    while loading. *)
Definition stop_shown (d : Demo) : bool :=
  match mode d with
  | simulation => true
  | interactive => isLoading d
  end.

(** [disabled={!userPrompt.trim()}] on the Submit button. *)
Definition submit_enabled (d : Demo) : bool :=
  negb (stop_shown d) && truthy_string (trim (userPrompt d)).

(** What can happen to the page. *)
Inductive event :=
| Handle (a : action)        (* a control or the transport, as [step] above *)
| TypingTick
| StreamingTick
| TimeoutFires (n : nat)     (* the pending timeout at position [n] *)
| ClickAction                (* the button of the preview *)
| SelectTab (tab : Tab).

(** Whether the page takes the event: the control is rendered and
    enabled.  The prompt is submitted from the enabled input or by the
    enabled button.  Timers, the transport, the tabs and a click on the
    button of the preview are taken at any time. *)
Definition takes (e : event) (p : Page) : bool :=
  match e with
  | Handle (TypePrompt s) => input_enabled (demo p) && bool_decide (length s <= maxLength)%nat
  | Handle Submit => input_enabled (demo p) || submit_enabled (demo p)
  | Handle Stop => stop_shown (demo p)
  | _ => true
  end.

(** One event: the handler or callback runs, then the effects whose
    dependencies changed. *)
Definition page_step (e : event) (p : Page) : option Page :=
  if takes e p then
    p' ← match e with
         | Handle a => d ← step a (demo p); Some (with_demo d p)
         | TypingTick => i ← typing_interval p; Some (typing_tick i p)
         | StreamingTick => i ← streaming_interval p; Some (streaming_tick i p)
         | TimeoutFires n =>
             callback ← timeouts p !! n;
             Some (fire callback (set_timeouts (delete n (timeouts p)) p))
         | ClickAction => Some (handleAction p)
         | SelectTab tab => Some (setActiveTab tab p)
         end;
    Some (commit (demo p) p')
  else None.

Fixpoint page_run (events : list event) (p : Page) : option Page :=
  match events with
  | [] => Some p
  | e :: rest => p ← page_step e p; page_run rest p
  end.

(** The states of the page from its first render on. *)
Definition page_reachable (p : Page) : Prop :=
  exists events, page_run events mounted = Some p.

(** ** Further predicates of the statements and inputs of the examples *)

(** Whether the read loop hands the parse of [line] to the reducer:
    [if (patch)]. *)
Definition accepted (line : jsstring) : bool :=
  match parsePatch line with
  | Normal patch => truthy patch
  | Throw _ => false
  end.

(** A name the reducer can create an entry under. *)
Definition element_name (k : jsstring) : Prop :=
  k <> [] /\ (ch "/" ∉ k) /\ k <> js "__proto__".

(** The mapping of [t'] has every key of [t], and its other keys are
    element names. *)
Definition grows (t t' : UITree) : Prop :=
  dom (own (elements t)) ⊆ dom (own (elements t'))
  /\ forall k, k ∈ dom (own (elements t')) ->
               k ∈ dom (own (elements t)) \/ element_name k.

(** A value of the interface [UIElement] (lines 8-13): an object with a
    string [key], a string [type], an object [props] and, when it has
    [children], an array of strings. *)
Definition is_UIElement (v : value) : Prop :=
  exists fields,
    v = VObj fields
    /\ (exists k, own_property fields (js "key") = Some (VStr k))
    /\ (exists ty, own_property fields (js "type") = Some (VStr ty))
    /\ (exists p, own_property fields (js "props") = Some (VObj p))
    /\ (own_property fields (js "children") = None
        \/ exists keys, own_property fields (js "children") = Some (VArr (map VStr keys))).

(** A value of the interface [UITree] (lines 15-18): a string [root] and
    a plain object whose entries are elements. *)
Definition is_UITree (t : UITree) : Prop :=
  (exists r, root t = VStr r)
  /\ proto (elements t) = ObjectPrototype
  /\ forall k v, own (elements t) !! k = Some v -> is_UIElement v.

(** The element [name] of the examples. *)
Definition name_element : value :=
  VObj [(js "key", VStr (js "name")); (js "type", VStr (js "Input"));
        (js "props", VObj [(js "label", VStr (js "Name")); (js "name", VStr (js "name"))])].

(** A tree under construction: the form lists [name], which has
    arrived. *)
Definition partial_tree : UITree :=
  {| root := VStr (js "form");
     elements := {| own := {[ js "form" := form_element; js "name" := name_element ]};
                    proto := ObjectPrototype |} |}.

(** The call [abortRef] holds is in flight: its signal has not fired and
    it has not settled. *)
Definition live_call (st : Demo) : Prop :=
  exists c a, abortRef st = Some c /\ (c ∉ aborted st)
              /\ calls st !! c = Some a /\ a <> Settled.

(** No request was ever started. *)
Definition idle (d : Demo) : Prop :=
  isLoading d = false /\ calls d = [] /\ abortRef d = None /\ aborted d = ∅
  /\ userPrompt d = [] /\ console d = [].

(** Where the scripted playback stands, while it runs. *)
Definition scripted (p : Page) : Prop :=
  match mode (demo p) with
  | interactive => True
  | simulation =>
      idle (demo p)
      /\ match phase (demo p) with
         | typing =>
             stageIndex p = (-1)%Z /\ tree (demo p) = None /\ streamLines (demo p) = []
             /\ streaming_interval p = None /\ (FinishPlayback ∉ timeouts p)
             /\ match typing_interval p with
                | Some i =>
                    (i <= length SIMULATION_PROMPT)%nat
                    /\ typedPrompt (demo p) = take i SIMULATION_PROMPT
                    /\ (StartStreaming ∉ timeouts p)
                | None => typedPrompt (demo p) = SIMULATION_PROMPT
                end
         | streaming =>
             typing_interval p = None /\ typedPrompt (demo p) = SIMULATION_PROMPT
             /\ match streaming_interval p with
                | Some i =>
                    (i <= length SIMULATION_STAGES)%nat
                    /\ stageIndex p = (Z.of_nat i - 1)%Z
                    /\ tree (demo p)
                       = match i with
                         | O => None
                         | S j => stage_tree <$> SIMULATION_STAGES !! j
                         end
                    /\ streamLines (demo p) = map stage_stream (take i SIMULATION_STAGES)
                    /\ (FinishPlayback ∉ timeouts p)
                | None =>
                    stageIndex p = 4%Z
                    /\ tree (demo p) = stage_tree <$> SIMULATION_STAGES !! 4%nat
                    /\ streamLines (demo p) = map stage_stream SIMULATION_STAGES
                end
         | complete => False
         end
  end.

(** The page after [events] from the first render. *)
Definition page_after (events : list event) : Page :=
  default mounted (page_run events mounted).

(** The playback up to its last interval tick: the prompt is typed, the
    five stages are shown and the closing timeout is pending. *)
Definition playback : list event :=
  replicate 52 TypingTick ++ [TimeoutFires 0] ++ replicate 6 StreamingTick.

(** Projections and setters of the page, evaluated. *)
Ltac page_cbn :=
  cbn [demo stageIndex activeTab actionFired typing_interval streaming_interval timeouts
       mode phase typedPrompt userPrompt streamLines tree isLoading abortRef aborted
       calls console with_demo setStageIndex setActiveTab setActionFired
       set_typing_interval set_streaming_interval set_timeouts setTimeout setMode
       setPhase setTypedPrompt setUserPrompt setStreamLines setTree setIsLoading
       stopGeneration abort_current skip_to_interactive commit same_dependencies
       typing_effect streaming_effect fire handleAction takes input_enabled stop_shown
       submit_enabled negb andb orb step mbind option_bind mret option_ret] in *.

(** * Properties *)

(** ** Strings *)

Lemma truthy_string_false s : truthy_string s = false <-> s = [].
Proof. by destruct s. Qed.

Lemma startsWith_app prefix s : startsWith prefix (prefix ++ s) = true.
Proof. induction prefix as [|p prefix IH]; simpl; [done|]. by rewrite N.eqb_refl. Qed.

Lemma split_nonempty sep s : split sep s <> [].
Proof.
  destruct s as [|c r]; simpl; [done|].
  destruct (c =? sep); [done|]. destruct (split sep r); done.
Qed.

Lemma split_snoc sep s : exists ls l, split sep s = ls ++ [l].
Proof.
  destruct (split sep s) as [|x xs] eqn:E using rev_ind.
  - by destruct (split_nonempty sep s).
  - eauto.
Qed.

Lemma split_no_separator sep (s : jsstring) : sep ∉ s -> split sep s = [s].
Proof.
  induction s as [|c s IH]; intros H; simpl; [done|].
  apply not_elem_of_cons in H as [Hc Hs].
  destruct (N.eqb_spec c sep); [congruence|]. by rewrite IH.
Qed.

(** No piece of a split contains the separator. *)
Lemma split_pieces sep (s : jsstring) p : p ∈ split sep s -> sep ∉ p.
Proof.
  revert p. induction s as [|c s IH]; intros p; simpl.
  - intros ->%list_elem_of_singleton. apply not_elem_of_nil.
  - destruct (N.eqb_spec c sep) as [->|Hne].
    + intros [->|H]%elem_of_cons; [apply not_elem_of_nil | by apply IH].
    + destruct (split sep s) as [|q qs] eqn:E; [by destruct (split_nonempty sep s)|].
      intros [->|H]%elem_of_cons.
      * apply not_elem_of_cons. split; [done|]. apply IH. left.
      * apply IH. by right.
Qed.

(** Splitting a concatenation: the pieces of the first part but the last,
    then the pieces of that last piece followed by the second part. *)
Lemma split_app_last sep (a b : jsstring) ls l :
  split sep a = ls ++ [l] -> split sep (a ++ b) = ls ++ split sep (l ++ b).
Proof.
  revert ls l. induction a as [|c a IH]; intros ls l H; simpl in *.
  - destruct ls as [|? [|]]; simplify_eq/=. done.
  - destruct (c =? sep) eqn:Ec.
    + destruct ls as [|x ls]; simpl in H.
      * injection H as _ H. by destruct (split_nonempty sep a).
      * injection H as <- H. simpl. f_equal. by apply IH.
    + destruct (split sep a) as [|p ps] eqn:Ea; [by destruct (split_nonempty sep a)|].
      destruct ls as [|x ls]; simpl in H.
      * injection H as <- ->. rewrite (IH [] p eq_refl). simpl. by rewrite Ec.
      * injection H as <- ->. rewrite (IH (p :: ls) l eq_refl). done.
Qed.

Lemma split_app_separator sep (a b : jsstring) :
  sep ∉ a -> split sep (a ++ sep :: b) = a :: split sep b.
Proof.
  induction a as [|c a IH]; intros H; simpl.
  - by rewrite N.eqb_refl.
  - apply not_elem_of_cons in H as [Hc Ha].
    destruct (N.eqb_spec c sep); [congruence|]. by rewrite IH.
Qed.

(** [trimStart] drops a run of whitespace and stops at a character that
    is none. *)
Lemma trimStart_spec s :
  exists ws, s = ws ++ trimStart s
    /\ Forall (fun c => is_whitespace c = true) ws
    /\ match trimStart s with [] => True | c :: _ => is_whitespace c = false end.
Proof.
  induction s as [|c s (ws & Hs & Hws & Hhd)]; simpl.
  - exists []. by repeat split.
  - destruct (is_whitespace c) eqn:Ec.
    + exists (c :: ws). split; [simpl; congruence|]. split; [by constructor|done].
    + exists []. by repeat split.
Qed.

Lemma trimEnd_spec s :
  exists ws, s = trimEnd s ++ ws
    /\ Forall (fun c => is_whitespace c = true) ws
    /\ forall r c, trimEnd s = r ++ [c] -> is_whitespace c = false.
Proof.
  unfold trimEnd. destruct (trimStart_spec (rev s)) as (ws & Hs & Hws & Hhd).
  exists (rev ws). split; [|split].
  - rewrite <- rev_app_distr, <- Hs. by rewrite rev_involutive.
  - by apply Forall_rev.
  - intros r c Hr. apply (f_equal (@rev N)) in Hr.
    rewrite rev_involutive, rev_app_distr in Hr. simpl in Hr. by rewrite Hr in Hhd.
Qed.

(** A trimmed string neither starts nor ends with whitespace. *)
Lemma trim_ends s :
  match trim s with [] => True | c :: _ => is_whitespace c = false end
  /\ forall r c, trim s = r ++ [c] -> is_whitespace c = false.
Proof.
  unfold trim. destruct (trimStart_spec s) as (_ & _ & _ & Hhd).
  destruct (trimEnd_spec (trimStart s)) as (ws & Hs & Hws & Hlast).
  split; [|done].
  destruct (trimEnd (trimStart s)) as [|c r] eqn:E; [done|].
  rewrite Hs in Hhd. done.
Qed.

Lemma pop_app_singleton {A} (l : list A) (x : A) : pop (l ++ [x]) = (Some x, l).
Proof.
  induction l as [|y l IH]; simpl; [done|].
  destruct (l ++ [x]) eqn:E.
  - destruct l; discriminate.
  - rewrite IH. done.
Qed.

(** ** Line framing *)

Lemma frame_chunk_spec buffer chunk ls l :
  split LF (buffer ++ chunk) = ls ++ [l] -> frame_chunk buffer chunk = (ls, l).
Proof. intros H. unfold frame_chunk. rewrite H, pop_app_singleton. done. Qed.

(** The loop from a pending [buffer] without a newline hands on the
    complete lines of [buffer ++ concat chunks] and keeps the last piece. *)
Lemma read_loop_spec chunks buffer ls l :
  LF ∉ buffer ->
  split LF (buffer ++ concat chunks) = ls ++ [l] ->
  read_loop chunks buffer = (ls, l).
Proof.
  revert buffer ls l.
  induction chunks as [|chunk rest IH]; intros buffer ls l Hb H; simpl in *.
  - rewrite app_nil_r, (split_no_separator _ _ Hb) in H.
    destruct ls as [|? [|]]; simplify_eq/=. done.
  - destruct (split_snoc LF (buffer ++ chunk)) as (ms & m & Hm).
    rewrite (frame_chunk_spec _ _ _ _ Hm).
    rewrite app_assoc, (split_app_last _ _ _ _ _ Hm) in H.
    destruct (split_snoc LF (m ++ concat rest)) as (ns & n & Hn).
    rewrite (IH m ns n).
    + rewrite Hn, app_assoc in H. apply app_inj_tail in H as [<- <-]. done.
    + apply (split_pieces LF (buffer ++ chunk)). rewrite Hm.
      apply elem_of_app. right. left.
    + done.
Qed.

Lemma read_loop_whole chunks :
  (read_loop chunks []).1 ++ [(read_loop chunks []).2] = split LF (concat chunks).
Proof.
  destruct (split_snoc LF (concat chunks)) as (ls & l & Hs).
  rewrite (read_loop_spec chunks [] ls l); [by rewrite Hs|apply not_elem_of_nil|done].
Qed.

(** C1.  Two chunkings of the same text make the read loop hand on the
    same lines in the same order and leave the same pending buffer; the
    lines followed by that buffer are the pieces of the whole text between
    its newlines; and at end of stream the buffer is handed on exactly
    when it is not empty after trimming. *)
Theorem line_framing_chunk_independent (chunks1 chunks2 : list jsstring) :
  concat chunks1 = concat chunks2 ->
  read_loop chunks1 [] = read_loop chunks2 []
  /\ (read_loop chunks1 []).1 ++ [(read_loop chunks1 []).2] = split LF (concat chunks1)
  /\ end_of_stream (read_loop chunks1 []).2
     = if bool_decide (trim (read_loop chunks1 []).2 = []) then []
       else [(read_loop chunks1 []).2].
Proof.
  intros Heq. split; [|split].
  - pose proof (read_loop_whole chunks1) as H1.
    pose proof (read_loop_whole chunks2) as H2.
    rewrite <- Heq, <- H1 in H2. apply app_inj_tail in H2 as [Hl Hr].
    destruct (read_loop chunks1 []), (read_loop chunks2 []). simpl in *. congruence.
  - apply read_loop_whole.
  - unfold end_of_stream. by destruct (trim _).
Qed.

Lemma line_framing_chunk_independent_witness :
  read_loop [js "{'a'"; js ":1}" ++ [LF] ++ js "//"; js " x" ++ [LF] ++ js " tail "] []
  = read_loop [js "{'a':1}" ++ [LF] ++ js "// x" ++ [LF] ++ js " ta"; js "il "] []
  /\ read_loop [js "{'a'"; js ":1}" ++ [LF] ++ js "//"; js " x" ++ [LF] ++ js " tail "] []
     = ([js "{'a':1}"; js "// x"], js " tail ").
Proof.
  split.
  - apply (line_framing_chunk_independent
             [js "{'a'"; js ":1}" ++ [LF] ++ js "//"; js " x" ++ [LF] ++ js " tail "]
             [js "{'a':1}" ++ [LF] ++ js "// x" ++ [LF] ++ js " ta"; js "il "]).
    vm_compute. reflexivity.
  - vm_compute. reflexivity.
Defined.

(** ** The JSON parser: its fuel is enough *)

Lemma skip_whitespace_length s : (length (skip_whitespace s) <= length s)%nat.
Proof. induction s as [|c s IH]; simpl; [lia|]. destruct (is_json_whitespace c); simpl; lia. Qed.

Lemma take_digits_length s ds rest : take_digits s = (ds, rest) -> (length rest <= length s)%nat.
Proof.
  revert ds rest. induction s as [|c s IH]; intros ds rest; simpl.
  - intros [= <- <-]. simpl. lia.
  - destruct (digit_value c).
    + destruct (take_digits s) as [ds' rest'] eqn:E. intros [= <- <-].
      specialize (IH _ _ eq_refl). lia.
    + intros [= <- <-]. simpl. lia.
Qed.

Lemma parse_fraction_length s ds rest :
  parse_fraction s = Some (ds, rest) -> (length rest <= length s)%nat.
Proof.
  unfold parse_fraction. destruct s as [|c r]; [intros [= <- <-]; simpl; lia|].
  destruct (c =? ch ".").
  - destruct (take_digits r) as [[|d ds'] rest'] eqn:E; [done|].
    intros [= <- <-]. apply take_digits_length in E. simpl. lia.
  - intros [= <- <-]. lia.
Qed.

Lemma parse_exponent_length s e rest :
  parse_exponent s = Some (e, rest) -> (length rest <= length s)%nat.
Proof.
  unfold parse_exponent. destruct s as [|c r]; [intros [= <- <-]; simpl; lia|].
  destruct (_ || _).
  - destruct r as [|sign r'].
    + simpl. done.
    + destruct (sign =? ch "-"); [|destruct (sign =? ch "+")];
        (destruct (take_digits _) as [[|d ds'] rest'] eqn:E; [done|];
         intros [= <- <-]; apply take_digits_length in E; simpl in *; lia).
  - intros [= <- <-]. lia.
Qed.

Lemma parse_number_length s n rest :
  parse_number s = Some (n, rest) -> (length rest < length s)%nat.
Proof.
  unfold parse_number.
  assert (forall s', (length s' <= length s)%nat ->
    match s' with
    | [] => None
    | c :: r =>
        match digit_value c with
        | Some d =>
            let '(int_digits, s0) :=
              if d =? 0 then ([0], r) else let '(ds, rest0) := take_digits r in (d :: ds, rest0) in
            '(frac_digits, s1) ← parse_fraction s0;
            '(e, s2) ← parse_exponent s1;
            Some ({| num_negative := false; num_mantissa := digits_value (int_digits ++ frac_digits);
                     num_exponent := e - Z.of_nat (length frac_digits) |}, s2)
        | None => None
        end
    end = None \/ True) by auto.
  clear H.
  destruct s as [|c0 r0]; [done|].
  set (neg_s := if c0 =? ch "-" then (true, r0) else (false, c0 :: r0)).
  assert (length neg_s.2 <= length (c0 :: r0))%nat as Hlen.
  { unfold neg_s. destruct (c0 =? ch "-"); simpl; lia. }
  destruct neg_s as [negative s']. simpl in Hlen.
  destruct s' as [|c r]; [done|].
  destruct (digit_value c) as [d|]; [|done].
  set (ip := if d =? 0 then _ else _).
  assert (length ip.2 <= length r)%nat as Hip.
  { unfold ip. destruct (d =? 0); simpl; [lia|].
    destruct (take_digits r) as [ds rest0] eqn:E. simpl. by eapply take_digits_length. }
  destruct ip as [int_digits s0]. simpl in Hip.
  destruct (parse_fraction s0) as [[frac s1]|] eqn:Ef; simpl; [|done].
  destruct (parse_exponent s1) as [[e s2]|] eqn:Ee; simpl; [|done].
  intros [= <- <-].
  apply parse_fraction_length in Ef. apply parse_exponent_length in Ee.
  simpl in *. lia.
Qed.

Lemma parse_string_body_length s acc str rest :
  parse_string_body s acc = Some (str, rest) -> (length rest < length s)%nat.
Proof.
  remember (length s) as n eqn:Hn. revert s acc Hn.
  induction n as [n IH] using lt_wf_ind. intros s acc -> H.
  destruct s as [|c r]; simpl in H; [done|].
  destruct (c =? 34); [injection H as <- <-; simpl; lia|].
  destruct (c =? 92).
  - destruct r as [|e r']; [done|].
    destruct (e =? ch "u").
    + destruct r' as [|h1 [|h2 [|h3 [|h4 r'']]]]; try discriminate H.
      destruct (hex4 h1 h2 h3 h4); [|done].
      apply (IH (length r'')) in H; simpl; [lia|lia|done].
    + destruct (simple_escape e); [|done].
      apply (IH (length r')) in H; simpl; [lia|lia|done].
  - destruct (c <? 32); [done|].
    apply (IH (length r)) in H; simpl; [lia|lia|done].
Qed.

(** The length facts a parse hypothesis gives. *)
Ltac length_facts :=
  repeat match goal with
  | H : skip_whitespace ?s = _ |- _ =>
      let L := fresh "L" in
      pose proof (skip_whitespace_length s) as L; rewrite H in L; clear H
  | H : parse_string_body _ _ = Some _ |- _ => apply parse_string_body_length in H
  | H : parse_number _ = Some _ |- _ => apply parse_number_length in H
  end; simpl in *; rewrite ?length_drop in *; simpl in *.

Lemma parsed_rest_shorter fuel :
  (forall s v rest, parse_value fuel s = Parsed v rest -> (length rest < length s)%nat)
  /\ (forall s acc v rest,
        parse_elements fuel s acc = Parsed v rest -> (length rest < length s)%nat)
  /\ (forall s acc v rest,
        parse_members fuel s acc = Parsed v rest -> (length rest < length s)%nat).
Proof.
  induction fuel as [|fuel (IHv & IHe & IHm)]; [by repeat split|].
  repeat split.
  - intros s v rest H. simpl in H.
    repeat (case_match; try discriminate H); simplify_eq;
      try (apply IHm in H); try (apply IHe in H); length_facts; lia.
  - intros s acc v rest H. simpl in H.
    repeat (case_match; try discriminate H); simplify_eq;
      try (apply IHe in H);
      repeat match goal with Hv : parse_value _ _ = Parsed _ _ |- _ => apply IHv in Hv end;
      length_facts; lia.
  - intros s acc v rest H. simpl in H.
    repeat (case_match; try discriminate H); simplify_eq;
      try (apply IHm in H);
      repeat match goal with Hv : parse_value _ _ = Parsed _ _ |- _ => apply IHv in Hv end;
      length_facts; lia.
Qed.

(** The fuel of [JSON_parse] is never exhausted. *)
Lemma parse_fuel_enough fuel :
  (forall s, (2 * length s + 1 <= fuel)%nat -> parse_value fuel s <> OutOfFuel)
  /\ (forall s acc, (2 * length s + 2 <= fuel)%nat -> parse_elements fuel s acc <> OutOfFuel)
  /\ (forall s acc, (2 * length s + 2 <= fuel)%nat -> parse_members fuel s acc <> OutOfFuel).
Proof.
  induction fuel as [|fuel (IHv & IHe & IHm)]; [repeat split; intros; lia|].
  repeat split.
  - intros s Hf H. simpl in H.
    repeat (case_match; try discriminate H); simplify_eq.
    + eapply IHm; [|exact H]. length_facts. lia.
    + eapply IHe; [|exact H]. length_facts. lia.
  - intros s acc Hf H. simpl in H.
    repeat (case_match; try discriminate H); simplify_eq.
    + eapply IHe; [|exact H].
      match goal with Hv : parse_value _ _ = Parsed _ _ |- _ =>
        apply (proj1 (parsed_rest_shorter _)) in Hv end.
      length_facts. lia.
    + match goal with Hv : parse_value _ _ = OutOfFuel |- _ =>
        eapply IHv; [|exact Hv] end. lia.
  - intros s acc Hf H. simpl in H.
    repeat (case_match; try discriminate H); simplify_eq.
    + eapply IHm; [|exact H].
      match goal with Hv : parse_value _ _ = Parsed _ _ |- _ =>
        apply (proj1 (parsed_rest_shorter _)) in Hv end.
      length_facts. lia.
    + match goal with Hv : parse_value _ _ = OutOfFuel |- _ =>
        eapply IHv; [|exact Hv] end. length_facts. lia.
Qed.

Lemma JSON_parse_total text : JSON_parse text <> Throw RangeError.
Proof.
  unfold JSON_parse.
  pose proof (proj1 (parse_fuel_enough (parse_fuel text)) text) as H.
  destruct (parse_value _ _); [by repeat case_match|done|].
  exfalso. apply H; [unfold parse_fuel; lia|done].
Qed.

Lemma json_whitespace_is_whitespace c :
  is_json_whitespace c = true -> is_whitespace c = true.
Proof.
  unfold is_json_whitespace. rewrite !orb_true_iff, !N.eqb_eq.
  intros [[[->| ->]| ->]| ->]; reflexivity.
Qed.

Lemma skip_whitespace_head c s :
  is_whitespace c = false -> skip_whitespace (c :: s) = c :: s.
Proof.
  intros H. simpl. destruct (is_json_whitespace c) eqn:E; [|done].
  apply json_whitespace_is_whitespace in E. congruence.
Qed.

Lemma skip_whitespace_nil s :
  skip_whitespace s = [] -> Forall (fun c => is_whitespace c = true) s.
Proof.
  induction s as [|c s IH]; simpl; [constructor|].
  destruct (is_json_whitespace c) eqn:E; [|done].
  intros H. constructor; [by apply json_whitespace_is_whitespace|by apply IH].
Qed.

(** Arrays and objects are what the two loops of the parser build. *)
Lemma parse_containers fuel :
  (forall s acc v rest, parse_elements fuel s acc = Parsed v rest -> exists l, v = VArr l)
  /\ (forall s acc v rest, parse_members fuel s acc = Parsed v rest -> exists l, v = VObj l).
Proof.
  induction fuel as [|fuel [IHe IHm]]; [by split|].
  split.
  - intros s acc v rest H. simpl in H.
    repeat (case_match; try discriminate H); simplify_eq; eauto.
  - intros s acc v rest H. simpl in H.
    repeat (case_match; try discriminate H); simplify_eq; eauto.
Qed.

(** The parser answers [null] only for the literal. *)
Lemma parse_value_null fuel s rest :
  parse_value fuel s = Parsed VNull rest -> skip_whitespace s = js "null" ++ rest.
Proof.
  destruct fuel as [|fuel]; [done|]. simpl.
  destruct (skip_whitespace s) as [|c r]; [done|]. intros Hres.
  repeat (case_match; try discriminate Hres); simplify_eq;
    try (by apply (proj2 (parse_containers _)) in Hres as [? ?]);
    try (by apply (proj1 (parse_containers _)) in Hres as [? ?]);
    repeat match goal with H : _ && _ = true |- _ => apply andb_true_iff in H as [? ?] end;
    repeat match goal with H : (_ =? _) = true |- _ => apply N.eqb_eq in H end;
    try discriminate; subst; reflexivity.
Qed.

(** After trimming, only the text [null] parses to [null]. *)
Lemma JSON_parse_null_literal line :
  JSON_parse (trim line) = Normal VNull <-> trim line = js "null".
Proof.
  split; [|by intros ->].
  unfold JSON_parse.
  destruct (parse_value _ _) as [v rest| |] eqn:Hp; try done.
  destruct (skip_whitespace rest) eqn:Hr; [|done]. intros [= ->].
  apply parse_value_null in Hp. destruct (trim_ends line) as [Hhd Hlast].
  destruct (trim line) as [|c s] eqn:Et; [done|].
  rewrite (skip_whitespace_head _ _ Hhd) in Hp.
  destruct rest as [|x xs] using rev_ind; [by rewrite app_nil_r in Hp|].
  clear IHxs. apply skip_whitespace_nil in Hr. apply Forall_app in Hr as [_ Hx].
  apply Forall_inv in Hx.
  rewrite Hp, app_assoc in Hlast. specialize (Hlast _ _ eq_refl). congruence.
Qed.

(** ** The patch line parser *)

Lemma parsePatch_unfold line :
  parsePatch line =
    if negb (truthy_string (trim line)) || startsWith (js "//") (trim line)
    then Normal VNull
    else match JSON_parse (trim line) with
         | Normal v => Normal v
         | Throw _ => Normal VNull
         end.
Proof.
  unfold parsePatch, try_catch. destruct (_ || _); [done|]. by destruct (JSON_parse _).
Qed.

(** A line whose parse is falsy is skipped: no publication, no error. *)
Lemma process_line_skipped line v currentTree st :
  parsePatch line = Normal v -> truthy v = false ->
  process_line line currentTree st = (Normal currentTree, st).
Proof. intros H Hv. unfold process_line. by rewrite H, Hv. Qed.

(** C6, as the code has it.  [parsePatch] never throws; it returns [null]
    exactly when the trimmed line is empty, starts with [//], fails to
    parse as JSON, or is the JSON text [null]; and a line it returns
    [null] for changes neither the running tree nor the published state
    and raises nothing. *)
Theorem parsePatch_classification (line : jsstring) :
  (exists v, parsePatch line = Normal v)
  /\ (parsePatch line = Normal VNull <->
        trim line = []
        \/ startsWith (js "//") (trim line) = true
        \/ (exists err, JSON_parse (trim line) = Throw err)
        \/ trim line = js "null")
  /\ (forall currentTree st,
        parsePatch line = Normal VNull ->
        process_line line currentTree st = (Normal currentTree, st)).
Proof.
  split; [|split].
  - rewrite parsePatch_unfold. destruct (_ || _); [eauto|].
    destruct (JSON_parse (trim line)); eauto.
  - rewrite <- JSON_parse_null_literal, parsePatch_unfold.
    destruct (truthy_string (trim line)) eqn:Et; cbn [negb orb].
    + destruct (startsWith (js "//") (trim line)) eqn:Es; [split; auto|].
      destruct (JSON_parse (trim line)) as [v|err] eqn:Ep.
      * split; [intros [= ->]; auto|].
        intros [H|[H|[[err H]|H]]]; try done. by rewrite H in Et.
      * split; eauto 6.
    + apply truthy_string_false in Et. split; auto.
  - intros currentTree st H. by apply (process_line_skipped _ VNull).
Qed.

(** C6, counterexample.  The line [null] is not empty, is no comment and
    parses as JSON, and [parsePatch] returns [null] for it. *)
Lemma parsePatch_null_literal :
  parsePatch (js "null") = Normal VNull
  /\ trim (js "null") <> []
  /\ startsWith (js "//") (trim (js "null")) = false
  /\ JSON_parse (trim (js "null")) = Normal VNull.
Proof. repeat split; by vm_compute. Qed.

(** ** The tree reducer *)

(** A read that succeeds shows the value is neither [null] nor
    [undefined]: every other read of it succeeds too. *)
Lemma get_field_defined v name x name' :
  get_field v name = Normal x -> exists y, get_field v name' = Normal y.
Proof. destruct v; simpl; intros; simplify_eq; eauto. Qed.

Lemma strict_equals_string_true v s : strict_equals_string v s = true <-> v = VStr s.
Proof.
  destruct v; simpl; try (split; [done|intros [=]]).
  rewrite bool_decide_eq_true. split; [by intros ->|by intros [= ->]].
Qed.

Lemma strict_equals_string_false v s : v <> VStr s -> strict_equals_string v s = false.
Proof. intros H. apply not_true_iff_false. by rewrite strict_equals_string_true. Qed.

(** [applyPatch] on an operation whose [path] is a string, by cases. *)
Lemma applyPatch_string_path tree patch path :
  get_field patch (js "path") = Normal (VStr path) ->
  applyPatch tree patch =
    if bool_decide (path = js "/root") then
      v ← get_field patch (js "value");
      Normal {| root := v; elements := spread (elements tree) |}
    else if startsWith (js "/elements/") path then
      op ← get_field patch (js "op");
      if truthy_string (element_key path)
         && (strict_equals_string op (js "set") || strict_equals_string op (js "add"))
      then v ← get_field patch (js "value");
           Normal {| root := root tree;
                     elements := set_property (spread (elements tree)) (element_key path) v |}
      else Normal {| root := root tree; elements := spread (elements tree) |}
    else Normal {| root := root tree; elements := spread (elements tree) |}.
Proof.
  intros Hp. unfold applyPatch. rewrite Hp.
  cbn [mbind completion_bind strict_equals_string string_receiver]. done.
Qed.

Lemma applyPatch_returns_on_string_path tree patch path :
  get_field patch (js "path") = Normal (VStr path) ->
  exists tree', applyPatch tree patch = Normal tree'.
Proof.
  intros Hp. rewrite (applyPatch_string_path _ _ _ Hp).
  destruct (get_field_defined _ _ _ (js "value") Hp) as [v ->].
  destruct (get_field_defined _ _ _ (js "op") Hp) as [op ->].
  cbn [mbind completion_bind]. repeat case_match; eauto.
Qed.

(** The copy of a tree whose mapping has the default prototype is the
    tree. *)
Lemma copy_same (t : UITree) :
  proto (elements t) = ObjectPrototype ->
  {| root := root t; elements := spread (elements t) |} = t.
Proof. destruct t as [r [o p]]; simpl. by intros ->. Qed.

(** C2, as the code has it.  [applyPatch] returns a snapshot exactly on
    the values whose [path] field is a string, which are objects; on such
    a value without an [op] field, and with a path other than [/root], the
    snapshot has the root and the entries of the input.  On every other
    parsed value (a non-object, an object without [path] or with a [path]
    that is no string) it throws a [TypeError]. *)
Theorem applyPatch_defined_on_string_path (tree : UITree) (patch : value) :
  match get_field patch (js "path") with
  | Normal (VStr path) =>
      exists tree',
        applyPatch tree patch = Normal tree'
        /\ (get_field patch (js "op") = Normal VUndefined -> path <> js "/root" ->
            root tree' = root tree /\ own (elements tree') = own (elements tree))
  | _ => applyPatch tree patch = Throw TypeError
  end.
Proof.
  destruct (get_field patch (js "path")) as [p|err] eqn:Hp.
  - destruct p as [| | | |path| |];
      try (unfold applyPatch; rewrite Hp; reflexivity).
    destruct (applyPatch_returns_on_string_path tree _ _ Hp) as [tree' Ht].
    exists tree'. split; [done|]. intros Hop Hroot.
    rewrite (applyPatch_string_path _ _ _ Hp), (bool_decide_eq_false_2 _ Hroot), Hop in Ht.
    cbn [mbind completion_bind] in Ht.
    rewrite andb_false_r in Ht. destruct (startsWith _ _); by injection Ht as <-.
  - unfold applyPatch. rewrite Hp. destruct patch; by simplify_eq/=.
Qed.

(** C2, counterexample.  Two lines that parse: an object without [path]
    and a number.  Both results are truthy, so the read loop hands them to
    [applyPatch], which throws on each. *)
Lemma applyPatch_throws_without_path :
  parsePatch (json "{'op':'add','value':{'key':'a','type':'Input','props':{}}}")
    = Normal (VObj [(js "op", VStr (js "add"));
                    (js "value", VObj [(js "key", VStr (js "a"));
                                       (js "type", VStr (js "Input"));
                                       (js "props", VObj [])])])
  /\ applyPatch empty_tree
       (VObj [(js "op", VStr (js "add"));
              (js "value", VObj [(js "key", VStr (js "a"));
                                 (js "type", VStr (js "Input"));
                                 (js "props", VObj [])])])
     = Throw TypeError
  /\ parsePatch (json "42") = Normal (VNum (number_of_nat 42))
  /\ truthy (VNum (number_of_nat 42)) = true
  /\ applyPatch empty_tree (VNum (number_of_nat 42)) = Throw TypeError.
Proof. repeat split; by vm_compute. Qed.

(** The key of [/elements/{key}] and of [/elements/{key}/...]. *)
Lemma element_key_first key rest :
  ch "/" ∉ key -> rest = [] \/ (exists r, rest = ch "/" :: r) ->
  element_key (js "/elements/" ++ key ++ rest) = key.
Proof.
  intros Hflat Hrest. unfold element_key, slice_from. rewrite drop_app_length.
  destruct Hrest as [->|[r ->]].
  - by rewrite app_nil_r, split_no_separator.
  - by rewrite split_app_separator.
Qed.

(** An assignment under a key other than [__proto__] writes the own
    property. *)
Lemma set_property_own o key v :
  key <> js "__proto__" ->
  set_property o key v = {| own := <[key := v]> (own o); proto := proto o |}.
Proof.
  intros H. unfold set_property, reaches_proto_setter.
  by rewrite (bool_decide_eq_false_2 _ H).
Qed.

Lemma not_root_path key : js "/elements/" ++ key <> js "/root".
Proof. by vm_compute. Qed.

Lemma stores_test op :
  stores op ->
  strict_equals_string op (js "set") || strict_equals_string op (js "add") = true.
Proof. intros [->| ->]; by vm_compute. Qed.

(** C4, as the code has it.  For a path [/elements/{key}] or
    [/elements/{key}/...] whose first segment [key] is not [__proto__], an
    operation with op [set] or [add] returns a snapshot with the root of
    the input whose mapping is the input's with the one entry at [key]
    replaced whole by the operation's value, whatever was stored there;
    when [key] is empty the mapping is the input's. *)
Theorem element_operation_replaces (tree : UITree) (patch : value)
    (key rest : jsstring) (op v : value) :
  ch "/" ∉ key -> key <> js "__proto__" ->
  rest = [] \/ (exists r, rest = ch "/" :: r) ->
  get_field patch (js "path") = Normal (VStr (js "/elements/" ++ key ++ rest)) ->
  get_field patch (js "op") = Normal op -> stores op ->
  get_field patch (js "value") = Normal v ->
  exists tree',
    applyPatch tree patch = Normal tree'
    /\ root tree' = root tree
    /\ own (elements tree') =
         if bool_decide (key = []) then own (elements tree)
         else <[key := v]> (own (elements tree)).
Proof.
  intros Hflat Hproto Hrest Hpath Hop Hstores Hv.
  rewrite (applyPatch_string_path _ _ _ Hpath).
  rewrite (bool_decide_eq_false_2 _ (not_root_path (key ++ rest))), startsWith_app.
  rewrite Hop, Hv. cbn [mbind completion_bind].
  rewrite (element_key_first _ _ Hflat Hrest), (stores_test _ Hstores).
  destruct key as [|c key']; cbn [truthy_string andb]; [eauto|].
  rewrite (set_property_own _ _ _ Hproto). eauto.
Qed.

Lemma element_operation_replaces_witness :
  exists tree',
    applyPatch
      {| root := VStr (js "form");
         elements := {| own := {[ js "form" := VObj [(js "type", VStr (js "Card"));
                                                     (js "children", VArr [VStr (js "old")])] ]};
                        proto := ObjectPrototype |} |}
      (VObj [(js "op", VStr (js "add")); (js "path", VStr (js "/elements/form"));
             (js "value", form_element)])
    = Normal tree'
    /\ own (elements tree') = {[ js "form" := form_element ]}.
Proof.
  destruct (element_operation_replaces
              {| root := VStr (js "form");
                 elements := {| own := {[ js "form" := VObj [(js "type", VStr (js "Card"));
                                                             (js "children", VArr [VStr (js "old")])] ]};
                                proto := ObjectPrototype |} |}
              (VObj [(js "op", VStr (js "add")); (js "path", VStr (js "/elements/form"));
                     (js "value", form_element)])
              (js "form") [] (VStr (js "add")) form_element)
    as (tree' & Happly & _ & Hown).
  - vm_compute. intros H. repeat (apply elem_of_cons in H as [H|H]; [discriminate H|]).
    by apply elem_of_nil in H.
  - vm_compute. discriminate.
  - left. reflexivity.
  - reflexivity.
  - reflexivity.
  - right. reflexivity.
  - reflexivity.
  - exists tree'. split; [exact Happly|]. rewrite Hown. vm_compute. reflexivity.
Defined.

(** C4, counterexample.  With op [add], the path [/elements/] stores
    nothing, the path [/elements/a/b] stores its value under [a], and the
    path [/elements/__proto__] creates no entry: it replaces the prototype
    of the new mapping. *)
Lemma element_operation_exceptions :
  applyPatch empty_tree
    (VObj [(js "op", VStr (js "add")); (js "path", VStr (js "/elements/"));
           (js "value", VObj [(js "key", VStr [])])])
  = Normal empty_tree
  /\ applyPatch empty_tree
       (VObj [(js "op", VStr (js "add")); (js "path", VStr (js "/elements/a/b"));
              (js "value", VObj [(js "key", VStr (js "a/b"))])])
     = Normal {| root := VStr [];
                 elements := {| own := {[ js "a" := VObj [(js "key", VStr (js "a/b"))] ]};
                                proto := ObjectPrototype |} |}
  /\ applyPatch empty_tree
       (VObj [(js "op", VStr (js "add")); (js "path", VStr (js "/elements/__proto__"));
              (js "value", VObj [(js "key", VStr (js "__proto__"))])])
     = Normal {| root := VStr [];
                 elements := {| own := ∅;
                                proto := ValuePrototype
                                           (VObj [(js "key", VStr (js "__proto__"))]) |} |}.
Proof. repeat split; by vm_compute. Qed.

(** The key [__proto__] makes no entry.  On a tree whose mapping has no
    own [__proto__] entry, an [/elements/__proto__] operation with op [set]
    or [add] returns a snapshot with the root and the entries of the
    input; the prototype of its mapping is the operation's value when
    that is an object, an array or [null], and the default otherwise. *)
Theorem proto_key_replaces_prototype (tree : UITree) (patch op v : value) :
  own (elements tree) !! js "__proto__" = None ->
  get_field patch (js "path") = Normal (VStr (js "/elements/__proto__")) ->
  get_field patch (js "op") = Normal op -> stores op ->
  get_field patch (js "value") = Normal v ->
  exists tree',
    applyPatch tree patch = Normal tree'
    /\ root tree' = root tree
    /\ own (elements tree') = own (elements tree)
    /\ proto (elements tree') =
         match v with
         | VNull => NullPrototype
         | VArr _ | VObj _ => ValuePrototype v
         | _ => ObjectPrototype
         end.
Proof.
  intros Hown Hpath Hop Hstores Hv.
  rewrite (applyPatch_string_path _ _ _ Hpath), Hop, Hv.
  change (js "/elements/__proto__") with (js "/elements/" ++ js "__proto__" ++ []).
  rewrite (bool_decide_eq_false_2 _ (not_root_path _)), startsWith_app.
  rewrite element_key_first; [|by vm_compute; intros H; repeat (apply elem_of_cons in H as [H|H]; [discriminate H|]); apply elem_of_nil in H|by left].
  cbn [mbind completion_bind]. rewrite (stores_test _ Hstores).
  change (truthy_string (js "__proto__")) with true. cbn [andb].
  unfold set_property, reaches_proto_setter. cbn [spread own proto].
  rewrite (bool_decide_eq_true_2 _ eq_refl), (bool_decide_eq_true_2 _ Hown). cbn [andb].
  destruct v; eauto.
Qed.

Lemma proto_key_replaces_prototype_witness :
  exists tree',
    applyPatch empty_tree
      (VObj [(js "op", VStr (js "add")); (js "path", VStr (js "/elements/__proto__"));
             (js "value", form_element)])
    = Normal tree'
    /\ own (elements tree') = ∅
    /\ proto (elements tree') = ValuePrototype form_element.
Proof.
  destruct (proto_key_replaces_prototype empty_tree
              (VObj [(js "op", VStr (js "add")); (js "path", VStr (js "/elements/__proto__"));
                     (js "value", form_element)])
              (VStr (js "add")) form_element)
    as (tree' & Happly & _ & Hown & Hproto).
  - reflexivity.
  - reflexivity.
  - reflexivity.
  - right. reflexivity.
  - reflexivity.
  - exists tree'. split; [exact Happly|]. split; [exact Hown|exact Hproto].
Defined.

(** No operation gives the mapping an own [__proto__] entry. *)
Lemma applyPatch_no_proto_entry tree patch tree' :
  own (elements tree) !! js "__proto__" = None ->
  applyPatch tree patch = Normal tree' ->
  own (elements tree') !! js "__proto__" = None.
Proof.
  intros Hown. unfold applyPatch.
  destruct (get_field patch (js "path")) as [p|]; cbn [mbind completion_bind]; [|done].
  destruct (strict_equals_string p (js "/root")).
  { destruct (get_field patch (js "value")); cbn [mbind completion_bind]; [|done].
    by intros [= <-]. }
  destruct (string_receiver p) as [path|]; cbn [mbind completion_bind]; [|done].
  destruct (startsWith (js "/elements/") path); [|by intros [= <-]].
  destruct (get_field patch (js "op")) as [op|]; cbn [mbind completion_bind]; [|done].
  destruct (_ && _); [|by intros [= <-]].
  destruct (get_field patch (js "value")) as [v|]; cbn [mbind completion_bind]; [|done].
  intros [= <-]. cbn [elements root].
  unfold set_property, reaches_proto_setter. cbn [spread own proto].
  destruct (bool_decide (element_key path = js "__proto__")) eqn:Hk.
  - apply bool_decide_eq_true in Hk. rewrite Hk, (bool_decide_eq_true_2 _ Hown).
    cbn [andb]. by destruct v.
  - apply bool_decide_eq_false in Hk. cbn [andb own]. by rewrite lookup_insert_ne.
Qed.

(** C5.  An operation whose path is neither [/root] nor under
    [/elements/], or is under [/elements/] with an empty key or with an op
    that is neither [set] nor [add], is ignored: [applyPatch] returns a
    snapshot with the root and the entries of the input (the input itself
    when its mapping has the default prototype). *)
Theorem ignored_operation (tree : UITree) (patch : value) (path : jsstring) (op : value) :
  get_field patch (js "path") = Normal (VStr path) ->
  get_field patch (js "op") = Normal op ->
  path <> js "/root" ->
  startsWith (js "/elements/") path = false
  \/ element_key path = []
  \/ (op <> VStr (js "set") /\ op <> VStr (js "add")) ->
  exists tree',
    applyPatch tree patch = Normal tree'
    /\ root tree' = root tree
    /\ own (elements tree') = own (elements tree)
    /\ (proto (elements tree) = ObjectPrototype -> tree' = tree).
Proof.
  intros Hpath Hop Hroot Hcase.
  rewrite (applyPatch_string_path _ _ _ Hpath), (bool_decide_eq_false_2 _ Hroot), Hop.
  cbn [mbind completion_bind].
  pose proof (copy_same tree) as Hsame.
  destruct (startsWith (js "/elements/") path) eqn:Es; [|eauto 6].
  destruct Hcase as [?|[Hk|[Hset Hadd]]]; [done| |].
  - rewrite Hk. cbn [truthy_string andb]. eauto 6.
  - rewrite (strict_equals_string_false _ _ Hset), (strict_equals_string_false _ _ Hadd).
    rewrite andb_false_r. eauto 6.
Qed.

Lemma ignored_operation_witness :
  exists tree',
    applyPatch {| root := VStr (js "form");
                  elements := {| own := {[ js "form" := form_element ]};
                                 proto := ObjectPrototype |} |}
      (VObj [(js "op", VStr (js "remove")); (js "path", VStr (js "/elements/form"))])
    = Normal tree'
    /\ root tree' = VStr (js "form")
    /\ own (elements tree') = {[ js "form" := form_element ]}.
Proof.
  destruct (ignored_operation
              {| root := VStr (js "form");
                 elements := {| own := {[ js "form" := form_element ]};
                                proto := ObjectPrototype |} |}
              (VObj [(js "op", VStr (js "remove")); (js "path", VStr (js "/elements/form"))])
              (js "/elements/form") (VStr (js "remove")))
    as (tree' & Happly & Hroot & Hown & _).
  - reflexivity.
  - reflexivity.
  - vm_compute. discriminate.
  - right. right. split; vm_compute; discriminate.
  - exists tree'. split; [exact Happly|]. split; [exact Hroot|exact Hown].
Defined.

(** C9.  The two operations of the example, parsed from their text and
    applied to the empty tree, give a snapshot with root [form] whose
    [form] element lists the child [name] while no [name] entry exists;
    the preview resolves the children of [form] to nothing and renders
    the card without error. *)
Theorem forward_reference_tolerated `{Host} :
  exists patch1 patch2 tree1 tree2,
    parsePatch set_root_line = Normal patch1
    /\ parsePatch add_form_line = Normal patch2
    /\ applyPatch empty_tree patch1 = Normal tree1
    /\ applyPatch tree1 patch2 = Normal tree2
    /\ root tree2 = VStr (js "form")
    /\ own (elements tree2) !! js "form" = Some form_element
    /\ get_field form_element (js "children") = Normal (VArr [VStr (js "name")])
    /\ own (elements tree2) !! js "name" = None
    /\ get_property (elements tree2) (js "name") = Resolved VUndefined
    /\ preview_children (elements tree2) (Resolved form_element) = Normal []
    /\ renderPreview (Some tree2) = Normal (Card VUndefined []).
Proof.
  do 4 eexists.
  split; [by vm_compute|]. split; [by vm_compute|].
  split; [by vm_compute|]. split; [by vm_compute|].
  repeat split; by vm_compute.
Qed.

(** A key that is no own entry of a mapping with the default prototype
    and no property of [Object.prototype] reads as [undefined]. *)
Lemma get_property_absent `{Host} (o : JSObject) (key : jsstring) :
  own o !! key = None -> proto o = ObjectPrototype ->
  key <> js "__proto__" -> key ∉ object_prototype_methods ->
  get_property o key = Resolved VUndefined.
Proof.
  intros Hown Hproto Hk Hm. unfold get_property, object_prototype_get.
  by rewrite Hown, Hproto, (bool_decide_eq_false_2 _ Hk), (bool_decide_eq_false_2 _ Hm).
Qed.

(** The preview of a snapshot that is not ready.  When the root is
    falsy, or is a string key under which the mapping reads a falsy value
    (an absent element reads as [undefined]), the preview is the
    placeholder and nothing is thrown. *)
Theorem preview_not_ready `{Host} (t : UITree) :
  truthy (root t) = false
  \/ (exists r, root t = VStr r
                /\ truthy_resolved (get_property (elements t) r) = false) ->
  renderPreview (Some t) = Normal Placeholder.
Proof.
  intros [Hroot|(r & Hr & Hel)]; unfold renderPreview; [by rewrite Hroot|].
  rewrite Hr. destruct r as [|c r]; [done|].
  cbn [truthy truthy_string negb lookup_element to_string mbind completion_bind].
  by rewrite Hel.
Qed.

Lemma preview_not_ready_witness :
  @renderPreview example_host
    (Some {| root := VStr (js "form"); elements := empty_object |})
  = Normal Placeholder.
Proof.
  apply (@preview_not_ready example_host
           {| root := VStr (js "form"); elements := empty_object |}).
  right. exists (js "form"). split; vm_compute; reflexivity.
Defined.

(** A root key that names a method of [Object.prototype] reads as that
    method, which is truthy and has no [props]: the preview throws. *)
Lemma preview_builtin_root `{Host} :
  renderPreview (Some {| root := VStr (js "constructor"); elements := empty_object |})
  = Throw TypeError.
Proof. by vm_compute. Qed.

(** ** The route handler *)

(** C10.  Whenever the handler reaches the generator, the prompt it hands
    over has at most 140 code units: it is the first 140 code units of the
    string the [prompt] field of the request converts to, the empty string
    standing in for a missing or falsy field. *)
Theorem POST_prompt_bounded `{Host} (body : jsstring) :
  match POST body with
  | Normal sanitizedPrompt =>
      (length sanitizedPrompt <= 140)%nat
      /\ exists request prompt text,
           JSON_parse body = Normal request
           /\ get_field request (js "prompt") = Normal prompt
           /\ to_string (if truthy prompt then prompt else VStr []) = Normal text
           /\ sanitizedPrompt = take 140 text
  | Throw _ => True
  end.
Proof.
  unfold POST.
  destruct (JSON_parse body) as [request|] eqn:Hb; cbn [mbind completion_bind]; [|done].
  destruct (get_field request (js "prompt")) as [prompt|] eqn:Hp;
    cbn [mbind completion_bind]; [|done].
  destruct (to_string _) as [text|] eqn:Ht; cbn [mbind completion_bind]; [|done].
  split; [unfold slice_to, MAX_PROMPT_LENGTH; rewrite length_take; lia|]. eauto 8.
Qed.

(** The handler on sample bodies: a string prompt, a missing one, falsy
    and non-string ones, and the bodies it fails on. *)
Lemma POST_examples `{Host} :
  POST (json "{'prompt':'Create a login form'}") = Normal (js "Create a login form")
  /\ POST (json "{'prompt':'" ++ replicate 150 (ch "a") ++ json "'}")
     = Normal (replicate 140 (ch "a"))
  /\ POST (json "{}") = Normal []
  /\ POST (json "{'prompt':null}") = Normal []
  /\ POST (json "{'prompt':true}") = Normal (js "true")
  /\ POST (json "{'prompt':['a',null,['b']]}") = Normal (js "a,,b")
  /\ POST (json "{'prompt':{'a':1}}") = Normal (js "[object Object]")
  /\ POST (json "{'prompt':{'toString':1}}") = Throw TypeError
  /\ POST (json "null") = Throw TypeError
  /\ POST (js "Create a login form") = Throw SyntaxError.
Proof. repeat split; by vm_compute. Qed.

(** ** Cancellation *)

(** What [settle] leaves alone, and what it writes. *)
Lemma settle_published {A} c (outcome : completion A) st :
  tree (settle c outcome st) = tree st
  /\ streamLines (settle c outcome st) = streamLines st
  /\ isLoading (settle c outcome st) = false
  /\ abortRef (settle c outcome st) = abortRef st
  /\ aborted (settle c outcome st) = aborted st
  /\ calls (settle c outcome st) = <[c := Settled]> (calls st).
Proof. unfold settle. destruct outcome as [a|err]; [done|]. by destruct (negb _). Qed.

Lemma settle_console {A} c (outcome : completion A) st :
  console (settle c outcome st) =
    match outcome with
    | Throw err =>
        if bool_decide (error_name err = js "AbortError") then console st
        else console st ++ [err]
    | Normal _ => console st
    end.
Proof. unfold settle. destruct outcome as [a|err]; [done|]. by destruct (bool_decide _). Qed.

Lemma resume_rejected c err st st' :
  resume c (Rejected err) st = Some st' -> st' = settle c (@Throw unit err) st.
Proof.
  unfold resume. destruct (calls st !! c) as [act|]; simpl; [|done].
  destruct (_ && _); [done|]. destruct act; by intros [= <-].
Qed.

(** C8.  When the awaited [fetch] or [read] of a call rejects, the
    published tree and line log stay as they were and loading ends; the
    abort error leaves the console untouched, any other error is reported
    there, which tells a cancellation from a failure.  [stopGeneration]
    itself changes neither the tree, nor the line log, nor the console. *)
Theorem cancellation_is_not_failure (st st' : Demo) (c : nat) (err : jserror) :
  resume c (Rejected err) st = Some st' ->
  tree st' = tree st
  /\ streamLines st' = streamLines st
  /\ isLoading st' = false
  /\ (err = AbortError -> console st' = console st)
  /\ (error_name err <> js "AbortError" -> console st' = console st ++ [err])
  /\ tree (stopGeneration st) = tree st
  /\ streamLines (stopGeneration st) = streamLines st
  /\ console (stopGeneration st) = console st.
Proof.
  intros ->%resume_rejected.
  destruct (settle_published c (@Throw unit err) st) as (-> & -> & -> & _).
  rewrite settle_console.
  repeat split.
  - by intros ->.
  - intros Hne. by rewrite (bool_decide_eq_false_2 _ Hne).
  - unfold stopGeneration. by destruct (mode (abort_current st)).
  - unfold stopGeneration. by destruct (mode (abort_current st)).
  - unfold stopGeneration. by destruct (mode (abort_current st)).
Qed.

Lemma cancellation_is_not_failure_witness :
  resume 0 (Rejected AbortError) (state_after stopped_session)
    = Some (settle 0 (@Throw unit AbortError) (state_after stopped_session))
  /\ tree (settle 0 (@Throw unit AbortError) (state_after stopped_session)) = tree (state_after stopped_session)
  /\ tree (state_after stopped_session) = Some {| root := VStr (js "form"); elements := empty_object |}
  /\ streamLines (settle 0 (@Throw unit AbortError) (state_after stopped_session)) = [set_root_line]
  /\ console (settle 0 (@Throw unit AbortError) (state_after stopped_session)) = [].
Proof.
  assert (resume 0 (Rejected AbortError) (state_after stopped_session)
          = Some (settle 0 (@Throw unit AbortError) (state_after stopped_session))) as Hres
    by (vm_compute; reflexivity).
  destruct (cancellation_is_not_failure _ _ 0%nat AbortError Hres)
    as (Ht & Hl & _ & Hc & _).
  split; [exact Hres|]. split; [exact Ht|]. split; [vm_compute; reflexivity|].
  split; [rewrite Hl; vm_compute; reflexivity|].
  rewrite (Hc eq_refl). vm_compute. reflexivity.
Defined.

(** Stopping twice is stopping once: the second call fires a signal
    that has fired and writes what is there. *)
Theorem stopGeneration_idempotent (st : Demo) :
  stopGeneration (stopGeneration st) = stopGeneration st.
Proof.
  unfold stopGeneration.
  destruct st as [m ph tp up sl tr il [c|] ab cs co]; [|by destruct m].
  assert ({[c]} ∪ ({[c]} ∪ ab) = {[c]} ∪ ab) as Hidem.
  { by rewrite (assoc_L (∪)), (idemp_L (∪)). }
  destruct m; unfold setIsLoading, skip_to_interactive, abort_current; simpl;
    by rewrite Hidem.
Qed.

(** ** Supersession *)

Lemma process_line_frame line t st r st' :
  process_line line t st = (r, st') ->
  abortRef st' = abortRef st /\ aborted st' = aborted st /\ calls st' = calls st
  /\ console st' = console st /\ isLoading st' = isLoading st.
Proof.
  unfold process_line. destruct (parsePatch line) as [patch|]; [|by intros [= <- <-]].
  destruct (truthy patch); [|by intros [= <- <-]].
  destruct (applyPatch t patch); by intros [= <- <-].
Qed.

Lemma process_lines_frame lines t st r st' :
  process_lines lines t st = (r, st') ->
  abortRef st' = abortRef st /\ aborted st' = aborted st /\ calls st' = calls st
  /\ console st' = console st /\ isLoading st' = isLoading st.
Proof.
  revert t st. induction lines as [|line rest IH]; intros t st; simpl.
  - by intros [= <- <-].
  - destruct (process_line line t st) as [[t1|e] st1] eqn:E;
      apply process_line_frame in E as (E1 & E2 & E3 & E4 & E5).
    + intros (? & ? & ? & ? & ?)%IH. repeat split; congruence.
    + by intros [= <- <-].
Qed.

(** Resuming a call touches neither the controllers nor the number of
    calls. *)
Lemma resume_frame c ev st st' :
  resume c ev st = Some st' ->
  abortRef st' = abortRef st /\ aborted st' = aborted st
  /\ length (calls st') = length (calls st) /\ (c < length (calls st))%nat.
Proof.
  unfold resume. destruct (calls st !! c) as [act|] eqn:Hc; simpl; [|done].
  apply lookup_lt_Some in Hc.
  destruct (_ && _); [done|].
  assert (forall A (o : completion A) s,
            abortRef s = abortRef st -> aborted s = aborted st -> calls s = calls st ->
            abortRef (settle c o s) = abortRef st /\ aborted (settle c o s) = aborted st
            /\ length (calls (settle c o s)) = length (calls st) /\ (c < length (calls st))%nat)
    as Hsettle.
  { intros A o s H1 H2 H3.
    destruct (settle_published c o s) as (_ & _ & _ & -> & -> & ->).
    by rewrite length_insert, H1, H2, H3. }
  assert (forall a s,
            abortRef s = abortRef st -> aborted s = aborted st -> calls s = calls st ->
            abortRef (suspend c a s) = abortRef st /\ aborted (suspend c a s) = aborted st
            /\ length (calls (suspend c a s)) = length (calls st) /\ (c < length (calls st))%nat)
    as Hsuspend.
  { intros a s H1 H2 H3. simpl. by rewrite length_insert, H1, H2, H3. }
  destruct act as [|buffer currentTree|], ev as [ok status has_body|text| |err]; try done;
    try (intros [= <-]; by apply Hsettle).
  - destruct (negb ok); [intros [= <-]; by apply Hsettle|].
    destruct (negb has_body); intros [= <-]; [by apply Hsettle|by apply Hsuspend].
  - destruct (frame_chunk buffer text) as [lines buffer'].
    destruct (process_lines lines currentTree st) as [[t|e] st1] eqn:E;
      apply process_lines_frame in E as (? & ? & ? & _); intros [= <-];
      [by apply Hsuspend|by apply Hsettle].
  - destruct (process_lines _ currentTree st) as [o st1] eqn:E.
    apply process_lines_frame in E as (? & ? & ? & _). intros [= <-]. by apply Hsettle.
Qed.

Lemma superseded_fired_initial : superseded_fired initial.
Proof. repeat split; simpl; intros c; [done|set_solver|lia]. Qed.

Lemma handleSubmit_accepted st :
  isLoading st = false -> trim (userPrompt st) <> [] ->
  handleSubmit st =
    setTree (Some empty_tree)
      (setStreamLines [] (setIsLoading true (new_controller (abort_current st)))).
Proof.
  intros Hl Hp. unfold handleSubmit. rewrite Hl.
  destruct (trim (userPrompt st)); done.
Qed.

Lemma handleSubmit_dropped st :
  isLoading st = true \/ trim (userPrompt st) = [] -> handleSubmit st = st.
Proof.
  intros [H|H]; unfold handleSubmit; rewrite H; [by rewrite orb_true_r|done].
Qed.

Lemma superseded_fired_step a st st' :
  superseded_fired st -> step a st = Some st' -> superseded_fired st'.
Proof.
  intros (Hcur & Hfired & Hold) Hstep. destruct a as [s| | |c ev]; simpl in Hstep.
  - by injection Hstep as <-.
  - injection Hstep as <-.
    destruct (isLoading st) eqn:Hl; [by rewrite handleSubmit_dropped; auto|].
    destruct (trim (userPrompt st)) eqn:Hp; [by rewrite handleSubmit_dropped; auto|].
    rewrite handleSubmit_accepted; [|done|by rewrite Hp].
    unfold superseded_fired. simpl. rewrite length_app. simpl. repeat split.
    + intros c [= <-]. lia.
    + intros c Hc. destruct (abortRef st) as [old|] eqn:Ha.
      * apply elem_of_union in Hc as [->%elem_of_singleton|Hc];
          [specialize (Hcur old eq_refl)|apply Hfired in Hc]; lia.
      * apply Hfired in Hc. lia.
    + intros c Hc Hne.
      assert (c < length (calls st))%nat as Hlt.
      { destruct (decide (c = length (calls st))) as [->|]; [done|lia]. }
      destruct (abortRef st) as [old|] eqn:Ha.
      * destruct (decide (c = old)) as [->|Hco]; [set_solver|].
        apply elem_of_union. right. apply Hold; [done|congruence].
      * by apply Hold.
  - injection Hstep as <-. unfold stopGeneration.
    assert (superseded_fired (abort_current st)) as (H1 & H2 & H3).
    { repeat split; simpl.
      - done.
      - intros c Hc. destruct (abortRef st) as [old|] eqn:Ha; [|by apply Hfired].
        apply elem_of_union in Hc as [->%elem_of_singleton|Hc]; [by apply Hcur|by apply Hfired].
      - intros c Hc Hne. destruct (abortRef st) as [old|] eqn:Ha; [|by apply Hold].
        apply elem_of_union. right. by apply Hold. }
    destruct (mode (abort_current st)); done.
  - apply resume_frame in Hstep as (Ha & Hf & Hlen & _).
    unfold superseded_fired. by rewrite Ha, Hf, Hlen.
Qed.

Lemma superseded_fired_run actions st st' :
  superseded_fired st -> run actions st = Some st' -> superseded_fired st'.
Proof.
  revert st. induction actions as [|a rest IH]; intros st Hwf; simpl.
  - by intros [= <-].
  - destruct (step a st) as [st1|] eqn:E; simpl; [|done].
    apply IH. by eapply superseded_fired_step.
Qed.

Lemma reachable_superseded_fired st : reachable st -> superseded_fired st.
Proof. intros [actions H]. by eapply superseded_fired_run; [apply superseded_fired_initial|]. Qed.

(** ** The read phase as a whole *)

Lemma process_lines_app ls1 ls2 t st :
  process_lines (ls1 ++ ls2) t st =
    match process_lines ls1 t st with
    | (Normal t1, st1) => process_lines ls2 t1 st1
    | (Throw e, st1) => (Throw e, st1)
    end.
Proof.
  revert t st. induction ls1 as [|l ls1 IH]; intros t st; simpl; [done|].
  destruct (process_line l t st) as [[t1|e] st1]; [apply IH|done].
Qed.

Lemma process_line_suspend c a line t st :
  process_line line t (suspend c a st) =
    ((process_line line t st).1, suspend c a (process_line line t st).2).
Proof.
  unfold process_line. destruct (parsePatch line) as [patch|]; [|done].
  destruct (truthy patch); [|done]. by destruct (applyPatch t patch).
Qed.

Lemma process_lines_suspend c a ls t st :
  process_lines ls t (suspend c a st) =
    ((process_lines ls t st).1, suspend c a (process_lines ls t st).2).
Proof.
  revert t st. induction ls as [|l ls IH]; intros t st; simpl; [done|].
  rewrite process_line_suspend.
  destruct (process_line l t st) as [[t1|e] st1]; simpl; [apply IH|done].
Qed.

Lemma settle_suspend {A} c a (o : completion A) st :
  settle c o (suspend c a st) = settle c o st.
Proof.
  unfold settle. destruct o as [x|err]; [|destruct (negb _)]; unfold suspend; simpl;
    by rewrite list_insert_insert_eq.
Qed.

(** The read phase of one call, event by event, publishes what the lines
    of [read_loop], followed by the final flush, publish when processed in
    order: the state after [done] depends on the chunks only through
    their concatenation. *)
Lemma read_phase c chunks buffer t st t' st' :
  calls st !! c = Some (Reading buffer t) ->
  c ∉ aborted st ->
  process_lines ((read_loop chunks buffer).1 ++ end_of_stream (read_loop chunks buffer).2) t st
    = (Normal t', st') ->
  run (chunk_events c chunks) st = Some (settle c (Normal t') st').
Proof.
  revert buffer t st st'.
  induction chunks as [|chunk rest IH]; intros buffer t st st' Hc Ha Hp.
  - simpl in *. unfold resume. rewrite Hc. simpl.
    rewrite (bool_decide_eq_false_2 _ Ha). simpl. by rewrite Hp.
  - simpl in Hp. destruct (frame_chunk buffer chunk) as [lines buffer1] eqn:Ef.
    destruct (read_loop rest buffer1) as [more final] eqn:Er. simpl in Hp.
    rewrite <- app_assoc, process_lines_app in Hp.
    destruct (process_lines lines t st) as [[t1|e] st1] eqn:E1; [|done].
    simpl. unfold resume at 1. rewrite Hc. simpl.
    rewrite (bool_decide_eq_false_2 _ Ha), Ef, E1. simpl.
    destruct (process_lines_frame _ _ _ _ _ E1) as (_ & Hab & Hcalls & _).
    rewrite <- (settle_suspend c (Reading buffer1 t1)).
    fold (chunk_events c rest). apply (IH buffer1 t1).
    + simpl. rewrite Hcalls. apply list_lookup_insert_eq. by apply lookup_lt_Some in Hc.
    + simpl. by rewrite Hab.
    + rewrite Er. simpl. rewrite process_lines_suspend, Hp. done.
Qed.

(** The read phase of a call is chunk-boundary independent as a whole.
    For a call that is reading with an empty buffer and whose signal has
    not fired, two chunkings of one text whose lines all reduce without
    an exception drive the component to the same state: the same tree,
    line log, loading flag and console. *)
Lemma read_phase_chunk_independent c chunks1 chunks2 t st t' st' :
  concat chunks1 = concat chunks2 ->
  calls st !! c = Some (Reading [] t) ->
  c ∉ aborted st ->
  process_lines ((read_loop chunks1 []).1 ++ end_of_stream (read_loop chunks1 []).2) t st
    = (Normal t', st') ->
  run (chunk_events c chunks1) st = run (chunk_events c chunks2) st.
Proof.
  intros Heq Hc Ha Hp.
  rewrite (read_phase _ _ _ _ _ _ _ Hc Ha Hp).
  symmetry. apply (read_phase _ _ [] t); [done|done|].
  assert (read_loop chunks2 [] = read_loop chunks1 []) as ->; [|done].
  pose proof (read_loop_whole chunks1) as H1.
  pose proof (read_loop_whole chunks2) as H2.
  rewrite <- Heq, <- H1 in H2. apply app_inj_tail in H2 as [Hl Hr].
  destruct (read_loop chunks1 []), (read_loop chunks2 []). simpl in *. congruence.
Qed.

Lemma read_phase_chunk_independent_witness :
  run (chunk_events 0 [set_root_line; [LF] ++ add_form_line])
      (state_after reading_session)
  = run (chunk_events 0 [set_root_line ++ [LF] ++ add_form_line])
      (state_after reading_session).
Proof.
  eapply (read_phase_chunk_independent 0
            [set_root_line; [LF] ++ add_form_line]
            [set_root_line ++ [LF] ++ add_form_line]
            empty_tree (state_after reading_session)).
  - vm_compute. reflexivity.
  - vm_compute. reflexivity.
  - vm_compute. set_solver.
  - vm_compute. reflexivity.
Defined.

(** A call whose controller has fired publishes nothing. *)
Lemma fired_call_silent c ev st st' :
  c ∈ aborted st -> resume c ev st = Some st' ->
  tree st' = tree st /\ streamLines st' = streamLines st.
Proof.
  intros Hc. unfold resume. destruct (calls st !! c) as [act|]; simpl; [|done].
  rewrite (bool_decide_eq_true_2 _ Hc). simpl.
  destruct ev as [| | |[]]; simpl; try done.
  destruct act; intros [= <-]; try done.
Qed.

(** C3, as the code has it.  In every reachable state: a start request
    while [isLoading] is set changes nothing; a start request with a
    non-blank prompt while it is not set first fires the signal of the
    controller [abortRef] holds, then installs a new controller that has
    not fired, starts its call and resets the line log and the tree; and
    a call can change the published tree or line log only while
    [abortRef] holds its controller and that controller has not fired. *)
Theorem accepted_request_supersedes (st : Demo) :
  reachable st ->
  (isLoading st = true -> handleSubmit st = st)
  /\ (isLoading st = false -> trim (userPrompt st) <> [] ->
      (let st' := handleSubmit st in
       (forall old, abortRef st = Some old -> old ∈ aborted st')
       /\ abortRef st' = Some (length (calls st))
       /\ (length (calls st) ∉ aborted st')
       /\ calls st' = calls st ++ [AwaitingResponse]
       /\ isLoading st' = true
       /\ streamLines st' = []
       /\ tree st' = Some empty_tree))
  /\ (forall c ev st',
        resume c ev st = Some st' ->
        tree st' <> tree st \/ streamLines st' <> streamLines st ->
        abortRef st = Some c /\ (c ∉ aborted st)).
Proof.
  intros (Hcur & Hfired & Hold)%reachable_superseded_fired.
  split; [intros H; apply handleSubmit_dropped; auto|]. split.
  - intros Hl Hp. cbv zeta. rewrite (handleSubmit_accepted _ Hl Hp). simpl.
    repeat split.
    + intros old ->. set_solver.
    + intros Hin. destruct (abortRef st) as [old|] eqn:Ha.
      * apply elem_of_union in Hin as [Hin%elem_of_singleton|Hin];
          [specialize (Hcur old eq_refl)|apply Hfired in Hin]; lia.
      * apply Hfired in Hin. lia.
  - intros c ev st' Hres Hchanged.
    destruct (decide (c ∈ aborted st)) as [Hin|Hout].
    { destruct (fired_call_silent _ _ _ _ Hin Hres) as [Ht Hs]. destruct Hchanged; done. }
    split; [|done].
    destruct (decide (abortRef st = Some c)) as [|Hne]; [done|].
    destruct Hout. apply Hold; [|done]. by apply resume_frame in Hres as (_ & _ & _ & ?).
Qed.

Lemma accepted_request_supersedes_witness :
  handleSubmit (state_after stopped_session)
  = setTree (Some empty_tree)
      (setStreamLines []
         (setIsLoading true (new_controller (abort_current (state_after stopped_session)))))
  /\ abortRef (handleSubmit (state_after stopped_session)) = Some 1%nat
  /\ (0%nat ∈ aborted (handleSubmit (state_after stopped_session)))
  /\ streamLines (handleSubmit (state_after stopped_session)) = [].
Proof.
  destruct (accepted_request_supersedes (state_after stopped_session)) as (_ & Haccept & _).
  - exists stopped_session. vm_compute. reflexivity.
  - destruct Haccept as (Hold & Hnew & _ & _ & _ & Hlines & _).
    + vm_compute. reflexivity.
    + vm_compute. discriminate.
    + split; [vm_compute; reflexivity|]. split; [exact Hnew|].
      split; [apply Hold; vm_compute; reflexivity|exact Hlines].
Defined.

(** C3, counterexample.  After the first accepted request the call with
    controller 0 is in flight and [isLoading] is set; a second start
    request leaves the state as it is: controller 0 has not fired and no
    second call exists. *)
Lemma second_request_dropped :
  run first_session initial = Some (state_after first_session)
  /\ isLoading (state_after first_session) = true
  /\ trim (userPrompt (state_after first_session)) = login_prompt
  /\ abortRef (state_after first_session) = Some 0%nat
  /\ calls (state_after first_session) = [AwaitingResponse]
  /\ step Submit (state_after first_session) = Some (state_after first_session)
  /\ (0%nat ∉ aborted (state_after first_session)).
Proof. repeat split; try (vm_compute; reflexivity). vm_compute. set_solver. Qed.

(** ** Copy on write *)


(** A successful read of a string field shows the value is a reference
    to an object of the store. *)
Lemma store_get_field_string v name s h :
  Store.get_field v name h = (Normal (RStr s), h) ->
  exists l o, v = RRef l /\ h !! l = Some o /\ props o !! name = Some (RStr s).
Proof.
  destruct v; simpl; try done. intros [= H].
  destruct (h !! l) as [o|] eqn:Hl; simpl in H; [|done].
  destruct (props o !! name) eqn:Hn; simpl in H; [|done]. simplify_eq. eauto.
Qed.

Lemma store_get_field_ref l o name h :
  h !! l = Some o ->
  Store.get_field (RRef l) name h = (Normal (default RUndefined (props o !! name)), h).
Proof. intros H. unfold Store.get_field. by rewrite H. Qed.

(** [assign] writes to its target only. *)
Lemma store_assign_target l o key v h :
  h !! l = Some o ->
  exists o', Store.assign (RRef l) key v h = (Normal (), <[l := o']> h)
    /\ (forall k, k <> key -> props o' !! k = props o !! k).
Proof.
  intros H. unfold Store.assign. rewrite H.
  destruct (_ && _).
  - destruct v; try (exists o; rewrite insert_id by done; done);
      eexists; (split; [reflexivity|done]).
  - eexists. split; [reflexivity|]. intros k Hk. simpl. by rewrite lookup_insert_ne.
Qed.

Lemma store_bind_normal {A B} (m : M A) (f : A -> M B) h a h' :
  m h = (Normal a, h') -> (m ≫= f) h = f a h'.
Proof. intros H. unfold mbind, M_bind. by rewrite H. Qed.

(** C7.  On a store where [t] is a tree whose [elements] is the object
    [e], and for an operation whose [path] is a string, [applyPatch]
    returns a reference to a new object [t'] whose [elements] is another
    new object [e']; every object of the store before the call, the input
    tree, its mapping and the elements among them, is the same after it;
    nothing else is created; every entry of [e'] other than the one the
    operation addresses is the entry of [e], the same reference; and the
    root is the input's unless the path is [/root]. *)
Theorem applyPatch_copy_on_write (h : store) (t e : loc) (ot oe : object)
    (patch : rvalue) (path : jsstring) :
  h !! t = Some ot ->
  props ot !! js "elements" = Some (RRef e) ->
  h !! e = Some oe ->
  Store.get_field patch (js "path") h = (Normal (RStr path), h) ->
  exists (t' e' : loc) (ot' oe' : object) (h' : store),
    Store.applyPatch (RRef t) patch h = (Normal (RRef t'), h')
    /\ h !! t' = None /\ h !! e' = None /\ t' <> e'
    /\ (forall l o, h !! l = Some o -> h' !! l = Some o)
    /\ dom h' = {[t'; e']} ∪ dom h
    /\ h' !! t' = Some ot'
    /\ props ot' !! js "elements" = Some (RRef e')
    /\ h' !! e' = Some oe'
    /\ (forall k, (startsWith (js "/elements/") path = true -> k <> element_key path) ->
                  props oe' !! k = props oe !! k)
    /\ (path <> js "/root" -> props ot' !! js "root" = props ot !! js "root").
Proof.
  intros Ht Hel He Hpath.
  destruct (store_get_field_string _ _ _ _ Hpath) as (p & op & -> & Hp & Hpp).
  set (e' := fresh (dom h)).
  set (h1 := <[e' := {| props := props oe; prototype_of := ObjectProto |}]> h).
  set (t' := fresh (dom h1)).
  set (nt := {| props := <[js "elements" := RRef e']> (props ot); prototype_of := ObjectProto |}).
  set (h2 := <[t' := nt]> h1).
  assert (h !! e' = None) as Hfe by (apply not_elem_of_dom, is_fresh).
  assert (h1 !! t' = None) as Hft1 by (apply not_elem_of_dom, is_fresh).
  assert (t' <> e') as Hne.
  { intros Heq. rewrite Heq in Hft1. unfold h1 in Hft1. by rewrite lookup_insert_eq in Hft1. }
  assert (h !! t' = None) as Hft.
  { unfold h1 in Hft1. by rewrite lookup_insert_ne in Hft1. }
  assert (forall l o, h !! l = Some o -> h2 !! l = Some o) as Hext.
  { intros l o Hl. unfold h2, h1.
    rewrite !lookup_insert_ne; [done|congruence|congruence]. }
  assert (h2 !! t' = Some nt) as Ht2 by apply lookup_insert_eq.
  assert (h2 !! e' = Some {| props := props oe; prototype_of := ObjectProto |}) as He2.
  { unfold h2. rewrite lookup_insert_ne by done. apply lookup_insert_eq. }
  assert (dom h2 = {[t'; e']} ∪ dom h) as Hdom.
  { unfold h2, h1. rewrite !dom_insert_L. by rewrite <- !(assoc_L (∪)). }
  assert (Store.copy_tree (RRef t) h = (Normal (RRef t'), h2)) as Hcopy.
  { unfold Store.copy_tree, mbind, M_bind, Store.own_properties, Store.get_field, Store.alloc.
    rewrite Ht. simpl. rewrite Hel. simpl. rewrite He. done. }
  unfold Store.applyPatch.
  rewrite (store_bind_normal _ _ _ _ _ Hcopy).
  rewrite (store_bind_normal _ _ _ _ _ (store_get_field_ref _ _ (js "path") _ (Hext _ _ Hp))).
  rewrite Hpp. cbn [from_option id]. unfold Store.strict_equals_string at 1.
  destruct (bool_decide (path = js "/root")) eqn:Hroot.
  - (* /root *)
    cbv iota. rewrite (store_bind_normal _ _ _ _ _ (store_get_field_ref _ _ (js "value") _ (Hext _ _ Hp))).
    destruct (store_assign_target t' nt (js "root") (default RUndefined (props op !! js "value")) h2 Ht2)
      as (o' & Hassign & Ho').
    rewrite (store_bind_normal _ _ _ _ _ Hassign).
    exists t', e', o', {| props := props oe; prototype_of := ObjectProto |}, (<[t' := o']> h2).
    split; [done|]. split; [done|]. split; [done|]. split; [done|].
    split. { intros l o Hl. rewrite lookup_insert_ne by congruence. by apply Hext. }
    split. { by rewrite dom_insert_lookup_L. }
    split; [apply lookup_insert_eq|].
    split. { rewrite Ho' by done. apply lookup_insert_eq. }
    split. { rewrite lookup_insert_ne by done. done. }
    split; [done|]. intros Hnr. apply bool_decide_eq_true in Hroot. done.
  - cbv iota. apply bool_decide_eq_false in Hroot.
    assert (props nt !! js "root" = props ot !! js "root") as Hrootkeep.
    { simpl. by rewrite lookup_insert_ne. }
    assert (props nt !! js "elements" = Some (RRef e')) as Helkeep by apply lookup_insert_eq.
    rewrite (store_bind_normal (Store.string_receiver (RStr path)) _ h2 path h2 eq_refl).
    destruct (startsWith (js "/elements/") path) eqn:Hs; cbv iota.
    + rewrite (store_bind_normal _ _ _ _ _ (store_get_field_ref _ _ (js "op") _ (Hext _ _ Hp))).
      fold (element_key path).
      destruct (truthy_string (element_key path) && _); cbv iota.
      * rewrite (store_bind_normal _ _ _ _ _ (store_get_field_ref _ _ (js "value") _ (Hext _ _ Hp))).
        rewrite (store_bind_normal _ _ _ _ _ (store_get_field_ref _ _ (js "elements") _ Ht2)).
        rewrite Helkeep. cbn [from_option id].
        destruct (store_assign_target e' _ (element_key path)
                    (default RUndefined (props op !! js "value")) h2 He2)
          as (o' & Hassign & Ho').
        rewrite (store_bind_normal _ _ _ _ _ Hassign).
        exists t', e', nt, o', (<[e' := o']> h2).
        split; [done|]. split; [done|]. split; [done|]. split; [done|].
        split. { intros l o Hl. rewrite lookup_insert_ne by congruence. by apply Hext. }
        split. { by rewrite dom_insert_lookup_L. }
        split. { rewrite lookup_insert_ne by done. done. }
        split; [done|].
        split; [apply lookup_insert_eq|].
        split; [|done]. intros k Hk. rewrite Ho' by auto. done.
      * exists t', e', nt, {| props := props oe; prototype_of := ObjectProto |}, h2.
        repeat split; done.
    + exists t', e', nt, {| props := props oe; prototype_of := ObjectProto |}, h2.
      repeat split; done.
Qed.


Lemma store_bind_throw {A B} (m : M A) (f : A -> M B) h err h' :
  m h = (Throw err, h') -> (m ≫= f) h = (Throw err, h').
Proof. intros H. unfold mbind, M_bind. by rewrite H. Qed.

Lemma store_get_field_pure v name h :
  (exists x, Store.get_field v name h = (Normal x, h)
             /\ forall name', exists y, Store.get_field v name' h = (Normal y, h))
  \/ Store.get_field v name h = (Throw TypeError, h).
Proof. destruct v; simpl; eauto. Qed.

(** Whatever the operation and the outcome, the objects of the store
    before the call are the same after it. *)
Lemma applyPatch_preserves_store (h : store) (t e : loc) (ot oe : object)
    (patch : rvalue) :
  h !! t = Some ot ->
  props ot !! js "elements" = Some (RRef e) ->
  h !! e = Some oe ->
  forall l o, h !! l = Some o -> (Store.applyPatch (RRef t) patch h).2 !! l = Some o.
Proof.
  intros Ht Hel He.
  set (e' := fresh (dom h)).
  set (h1 := <[e' := {| props := props oe; prototype_of := ObjectProto |}]> h).
  set (t' := fresh (dom h1)).
  set (nt := {| props := <[js "elements" := RRef e']> (props ot); prototype_of := ObjectProto |}).
  set (h2 := <[t' := nt]> h1).
  assert (h !! e' = None) as Hfe by (apply not_elem_of_dom, is_fresh).
  assert (h1 !! t' = None) as Hft1 by (apply not_elem_of_dom, is_fresh).
  assert (t' <> e') as Hne.
  { intros Heq. rewrite Heq in Hft1. unfold h1 in Hft1. by rewrite lookup_insert_eq in Hft1. }
  assert (h !! t' = None) as Hft.
  { unfold h1 in Hft1. by rewrite lookup_insert_ne in Hft1. }
  assert (forall l o, h !! l = Some o -> h2 !! l = Some o) as Hext.
  { intros l o Hl. unfold h2, h1.
    rewrite !lookup_insert_ne; [done|congruence|congruence]. }
  assert (h2 !! t' = Some nt) as Ht2 by apply lookup_insert_eq.
  assert (h2 !! e' = Some {| props := props oe; prototype_of := ObjectProto |}) as He2.
  { unfold h2. rewrite lookup_insert_ne by done. apply lookup_insert_eq. }
  assert (Store.copy_tree (RRef t) h = (Normal (RRef t'), h2)) as Hcopy.
  { unfold Store.copy_tree, mbind, M_bind, Store.own_properties, Store.get_field, Store.alloc.
    rewrite Ht. simpl. rewrite Hel. simpl. rewrite He. done. }
  intros l o Hl.
  unfold Store.applyPatch. rewrite (store_bind_normal _ _ _ _ _ Hcopy).
  destruct (store_get_field_pure patch (js "path") h2) as [(p & Hp & Hany)|Hp];
    [|by rewrite (store_bind_throw _ _ _ _ _ Hp); apply Hext].
  rewrite (store_bind_normal _ _ _ _ _ Hp).
  destruct (Hany (js "value")) as [v Hv]. destruct (Hany (js "op")) as [op Hop].
  destruct (Store.strict_equals_string p (js "/root")).
  - rewrite (store_bind_normal _ _ _ _ _ Hv).
    destruct (store_assign_target t' nt (js "root") v h2 Ht2) as (o' & Hassign & _).
    rewrite (store_bind_normal _ _ _ _ _ Hassign). simpl.
    rewrite lookup_insert_ne by congruence. by apply Hext.
  - destruct p as [| | | |path|]; try by apply Hext.
    rewrite (store_bind_normal (Store.string_receiver (RStr path)) _ h2 path h2 eq_refl).
    destruct (startsWith (js "/elements/") path); [|by apply Hext].
    rewrite (store_bind_normal _ _ _ _ _ Hop).
    destruct (_ && _); [|by apply Hext].
    rewrite (store_bind_normal _ _ _ _ _ Hv).
    rewrite (store_bind_normal _ _ _ _ _ (store_get_field_ref _ _ (js "elements") _ Ht2)).
    assert (props nt !! js "elements" = Some (RRef e')) as -> by apply lookup_insert_eq.
    cbn [from_option id].
    destruct (store_assign_target e' _ (hd [] (split (ch "/") (slice_from (length (js "/elements/")) path))) v h2 He2)
      as (o' & Hassign & _).
    rewrite (store_bind_normal _ _ _ _ _ Hassign). simpl.
    rewrite lookup_insert_ne by congruence. by apply Hext.
Qed.

Lemma applyPatch_preserves_store_witness :
  (Store.applyPatch (RRef 0) (RRef 3) example_store).1 = Throw TypeError
  /\ (Store.applyPatch (RRef 0) (RRef 3) example_store).2 !! 1%nat
     = Some {| props := ∅; prototype_of := ObjectProto |}.
Proof.
  split; [vm_compute; reflexivity|].
  apply (applyPatch_preserves_store example_store 0 1
           {| props := {[ js "root" := RStr []; js "elements" := RRef 1 ]};
              prototype_of := ObjectProto |}
           {| props := ∅; prototype_of := ObjectProto |}
           (RRef 3)).
  - vm_compute. reflexivity.
  - vm_compute. reflexivity.
  - vm_compute. reflexivity.
  - vm_compute. reflexivity.
Defined.

Lemma applyPatch_copy_on_write_witness :
  exists (t' e' : loc) (ot' oe' : object) (h' : store),
    Store.applyPatch (RRef 0) (RRef 2) example_store = (Normal (RRef t'), h')
    /\ example_store !! t' = None /\ example_store !! e' = None /\ t' <> e'
    /\ (forall l o, example_store !! l = Some o -> h' !! l = Some o)
    /\ h' !! t' = Some ot'
    /\ props ot' !! js "elements" = Some (RRef e')
    /\ h' !! e' = Some oe'.
Proof.
  destruct (applyPatch_copy_on_write example_store 0 1
              {| props := {[ js "root" := RStr []; js "elements" := RRef 1 ]};
                 prototype_of := ObjectProto |}
              {| props := ∅; prototype_of := ObjectProto |}
              (RRef 2) (js "/elements/form"))
    as (t' & e' & ot' & oe' & h' & H1 & H2 & H3 & H4 & H5 & _ & H7 & H8 & H9 & _).
  - vm_compute. reflexivity.
  - vm_compute. reflexivity.
  - vm_compute. reflexivity.
  - vm_compute. reflexivity.
  - exists t', e', ot', oe', h'. repeat split; assumption.
Defined.

(** The [add /elements/form] operation on the example store: two new
    objects, and the entry of the new mapping is the reference held by the
    operation. *)
Lemma store_applyPatch_example :
  Store.applyPatch (RRef 0) (RRef 2) example_store
  = (Normal (RRef 5),
     <[5%nat := {| props := {[ js "root" := RStr []; js "elements" := RRef 4 ]};
                   prototype_of := ObjectProto |}]>
       (<[4%nat := {| props := {[ js "form" := RRef 3 ]}; prototype_of := ObjectProto |}]>
          example_store)).
Proof. vm_compute. reflexivity. Qed.

(** ** The store reducer refines the reducer on values *)

Lemma represents_extends depth h h' rv v :
  extends h h' -> represents depth h rv v -> represents depth h' rv v.
Proof.
  intros Hext. revert rv v. induction depth as [|depth IH]; intros rv v.
  - destruct rv, v; simpl; try done.
  - destruct rv, v; simpl; try done.
    + intros (o & ritems & Hl & Hp & Hprops & Hitems).
      exists o, ritems. repeat split; auto.
      eapply Forall2_impl; [exact Hitems|]. auto.
    + intros (o & Hl & Hp & Hfields). exists o. repeat split; auto.
      intros k. specialize (Hfields k).
      destruct Hfields; constructor; auto.
Qed.

Lemma represented_extends h h' rv v :
  extends h h' -> represented h rv v -> represented h' rv v.
Proof. intros Hext [depth H]. exists depth. by eapply represents_extends. Qed.

Lemma represented_string h rv s : represented h rv (VStr s) <-> rv = RStr s.
Proof.
  split.
  - intros [depth H]. destruct depth, rv; simpl in H; by subst.
  - intros ->. by exists O.
Qed.

Lemma represented_undefined h : represented h RUndefined VUndefined.
Proof. by exists O. Qed.

(** The decimal rendering of a number starts with a digit. *)
Lemma decimal_head n : exists c r, decimal n = c :: r /\ ch "0" <= c <= ch "9".
Proof.
  unfold decimal. destruct (N.to_uint n) as [|d|d|d|d|d|d|d|d|d|d]; simpl;
    eexists _, _; (split; [reflexivity|vm_compute; split; discriminate]).
Qed.

Lemma array_props_field items name :
  name ∈ [js "path"; js "op"; js "value"] -> array_props items !! name = None.
Proof.
  intros Hname. unfold array_props.
  rewrite lookup_insert_ne.
  2:{ intros <-. repeat (apply elem_of_cons in Hname as [Hname|Hname]; [by vm_compute in Hname|]).
      by apply elem_of_nil in Hname. }
  apply not_elem_of_list_to_map_1. rewrite fmap_imap.
  intros (i & rv & Hk & _)%elem_of_lookup_imap. simpl in Hk.
  destruct (decimal_head (N.of_nat i)) as (c & r & Hd & Hdigit).
  unfold index_key in Hk. rewrite Hd in Hk.
  repeat (apply elem_of_cons in Hname as [->|Hname];
          [injection Hk as <- _; vm_compute in Hdigit; destruct Hdigit as [H1 H2];
           (by destruct H1) || (by destruct H2)|]).
  by apply elem_of_nil in Hname.
Qed.

(** Reading a field of the operation gives related results. *)
Lemma get_field_represented h patch P name :
  represented h patch P ->
  name ∈ [js "path"; js "op"; js "value"] ->
  (Store.get_field patch name h).2 = h
  /\ agree (represented h) (Store.get_field patch name h).1 (get_field P name).
Proof.
  intros [depth H] Hname.
  destruct depth as [|depth], patch, P; simpl in H; try done; simpl;
    try (split; [done|first [done|by exists O]]).
  - destruct H as (o & ritems & Hl & _ & Hprops & _).
    rewrite Hl. simpl. rewrite Hprops, (array_props_field _ _ Hname). simpl.
    split; [done|by exists O].
  - destruct H as (o & Hl & _ & Hfields).
    rewrite Hl. simpl. split; [done|].
    destruct (Hfields name) as [rv v Hrv|]; simpl; [by exists depth|by exists O].
Qed.

(** A primitive is represented by itself, an array or object by a
    reference. *)
Lemma represented_shape h rv v :
  represented h rv v ->
  match v with
  | VUndefined => rv = RUndefined
  | VNull => rv = RNull
  | VBool b => rv = RBool b
  | VNum n => rv = RNum n
  | VStr s => rv = RStr s
  | VArr _ | VObj _ => exists l, rv = RRef l
  end.
Proof.
  intros [depth H]. destruct depth, rv, v; simpl in H; try done; subst; eauto.
Qed.

Lemma strict_equals_represented h rv v s :
  represented h rv v -> Store.strict_equals_string rv s = strict_equals_string v s.
Proof. intros [depth H]. destruct depth, rv, v; simpl in H; try done; by subst. Qed.

Lemma string_receiver_represented h rv v :
  represented h rv v ->
  match string_receiver v with
  | Normal s => rv = RStr s
  | Throw e => e = TypeError /\ Store.string_receiver rv = throw TypeError
  end.
Proof. intros [depth H]. destruct depth, rv, v; simpl in H; try done; by subst. Qed.

(** A read of a represented value sees the same in a larger store. *)
Lemma get_field_extends h h' patch P name :
  extends h h' -> represented h patch P ->
  (Store.get_field patch name h').1 = (Store.get_field patch name h).1
  /\ (Store.get_field patch name h').2 = h'.
Proof.
  intros Hext [depth H].
  destruct depth as [|depth], patch, P; simpl in H; try done; simpl.
  - destruct H as (o & ritems & Hl & _). by rewrite Hl, (Hext _ _ Hl).
  - destruct H as (o & Hl & _). by rewrite Hl, (Hext _ _ Hl).
Qed.

Lemma chain_reaches_default fuel h key :
  Store.chain_reaches_accessor fuel h ObjectProto key = true.
Proof. by destruct fuel. Qed.

(** [Store.applyPatch] refines [applyPatch]: on a store object that is
    the tree [T] and an operation that is the value [P], both throw the
    same error or both return, the store result being the result tree; in
    both cases the store has only grown. *)
Theorem store_applyPatch_refines h t patch T P :
  represents_tree h t T ->
  represented h patch P ->
  match applyPatch T P, Store.applyPatch t patch h with
  | Normal T', (Normal t', h') => extends h h' /\ represents_tree h' t' T'
  | Throw e, (Throw e', h') => e = e' /\ extends h h'
  | _, _ => False
  end.
Proof.
  intros (lt & ot & le & oe & -> & Ht & Hroot & Hel & He & Hentries & Hproto) Hpatch.
  set (e' := fresh (dom h)).
  set (ne := {| props := props oe; prototype_of := ObjectProto |}).
  set (h1 := <[e' := ne]> h).
  set (t' := fresh (dom h1)).
  set (nt := {| props := <[js "elements" := RRef e']> (props ot); prototype_of := ObjectProto |}).
  set (h2 := <[t' := nt]> h1).
  assert (h !! e' = None) as Hfe by (apply not_elem_of_dom, is_fresh).
  assert (h1 !! t' = None) as Hft1 by (apply not_elem_of_dom, is_fresh).
  assert (t' <> e') as Hne.
  { intros Heq. rewrite Heq in Hft1. unfold h1 in Hft1. by rewrite lookup_insert_eq in Hft1. }
  assert (h !! t' = None) as Hft.
  { unfold h1 in Hft1. by rewrite lookup_insert_ne in Hft1. }
  assert (extends h h2) as Hext.
  { intros l o Hl. unfold h2, h1.
    rewrite !lookup_insert_ne; [done|congruence|congruence]. }
  assert (forall l o', l = t' \/ l = e' -> extends h (<[l := o']> h2)) as Hext3.
  { intros l o' Hl l0 o Hl0. rewrite lookup_insert_ne; [by apply Hext|].
    destruct Hl; congruence. }
  assert (h2 !! t' = Some nt) as Ht2 by apply lookup_insert_eq.
  assert (h2 !! e' = Some ne) as He2.
  { unfold h2. rewrite lookup_insert_ne by done. apply lookup_insert_eq. }
  assert (Store.copy_tree (RRef lt) h = (Normal (RRef t'), h2)) as Hcopy.
  { unfold Store.copy_tree, mbind, M_bind, Store.own_properties, Store.get_field, Store.alloc.
    rewrite Ht. simpl. rewrite Hel. simpl. rewrite He. done. }
  assert (forall name, name ∈ [js "path"; js "op"; js "value"] ->
            exists c, Store.get_field patch name h2 = (c, h2)
                      /\ agree (represented h) c (get_field P name)) as Hfield.
  { intros name Hname.
    destruct (get_field_represented _ _ _ _ Hpatch Hname) as [_ H2].
    destruct (get_field_extends _ _ _ _ name Hext Hpatch) as [H3 H4].
    destruct (Store.get_field patch name h2) as [c hx]. simpl in *. subst.
    exists (Store.get_field patch name h).1. done. }
  (* a store that holds [o3] at [t'] and [oe3] at [e'] represents [T3] *)
  assert (forall h3 o3 oe3 T3,
            extends h h3 -> h3 !! t' = Some o3 -> h3 !! e' = Some oe3 ->
            props o3 !! js "elements" = Some (RRef e') ->
            represented h (default RUndefined (props o3 !! js "root")) (root T3) ->
            (forall k, option_Forall2 (represented h) (props oe3 !! k) (own (elements T3) !! k)) ->
            represents_prototype h (prototype_of oe3) (proto (elements T3)) ->
            extends h h3 /\ represents_tree h3 (RRef t') T3) as Hbuild.
  { intros h3 o3 oe3 T3 H3 ? ? ? Hr Hk Hp. split; [done|].
    exists t', o3, e', oe3. repeat split; try done.
    - by eapply represented_extends.
    - intros k. destruct (Hk k); constructor. by eapply represented_extends.
    - destruct (prototype_of oe3), (proto (elements T3)); try done.
      simpl in *. by eapply represented_extends. }
  assert (props nt !! js "root" = props ot !! js "root") as Hntroot.
  { simpl. by rewrite lookup_insert_ne. }
  assert (props nt !! js "elements" = Some (RRef e')) as Hntel by apply lookup_insert_eq.
  unfold applyPatch, Store.applyPatch.
  rewrite (store_bind_normal _ _ _ _ _ Hcopy).
  destruct (Hfield (js "path")) as (cp & Hgp & Hap); [apply list_elem_of_In; simpl; auto|].
  destruct (get_field P (js "path")) as [p|err] eqn:HP; destruct cp as [rp|err']; try done;
    cbn [mbind completion_bind];
    [rewrite (store_bind_normal _ _ _ _ _ Hgp)
    |rewrite (store_bind_throw _ _ _ _ _ Hgp); by split].
  simpl in Hap.
  destruct (Hfield (js "value")) as (cv & Hgv & Hav); [apply list_elem_of_In; simpl; auto|].
  destruct (Hfield (js "op")) as (co & Hgo & Hao); [apply list_elem_of_In; simpl; auto|].
  destruct (get_field_defined _ _ _ (js "value") HP) as [v HV]. rewrite HV in *.
  destruct (get_field_defined _ _ _ (js "op") HP) as [op HO]. rewrite HO in *.
  destruct cv as [rv|]; [|done]. destruct co as [rop|]; [|done]. simpl in Hav, Hao.
  rewrite (strict_equals_represented _ _ _ _ Hap).
  destruct (strict_equals_string p (js "/root")) eqn:Hr.
  - (* /root *)
    cbn [mbind completion_bind].
    rewrite (store_bind_normal _ _ _ _ _ Hgv).
    rewrite (store_bind_normal (Store.assign (RRef t') (js "root") rv) _ h2 ()
               (<[t' := {| props := <[js "root" := rv]> (props nt);
                           prototype_of := ObjectProto |}]> h2)).
    2:{ unfold Store.assign. rewrite Ht2.
        by vm_compute (bool_decide (js "root" = js "__proto__")). }
    apply (Hbuild _ {| props := <[js "root" := rv]> (props nt);
                       prototype_of := ObjectProto |} ne).
    + apply Hext3. by left.
    + apply lookup_insert_eq.
    + rewrite lookup_insert_ne by done. done.
    + simpl. rewrite lookup_insert_ne by done. apply lookup_insert_eq.
    + simpl. rewrite lookup_insert_eq. done.
    + done.
    + done.
  - pose proof (string_receiver_represented _ _ _ Hap) as Hrecv.
    destruct (string_receiver p) as [path|err] eqn:Hsr; cbn [mbind completion_bind].
    2:{ destruct Hrecv as [-> Hthrow]. rewrite Hthrow.
        rewrite (store_bind_throw (throw TypeError) _ h2 TypeError h2 eq_refl). by split. }
    subst rp.
    rewrite (store_bind_normal (Store.string_receiver (RStr path)) _ h2 path h2 eq_refl).
    assert (extends h h2
            /\ represents_tree h2 (RRef t') {| root := root T; elements := spread (elements T) |})
      as Hsame.
    { apply (Hbuild _ nt ne); try done. by rewrite Hntroot. }
    destruct (startsWith (js "/elements/") path); [|done].
    rewrite (store_bind_normal _ _ _ _ _ Hgo).
    rewrite !(strict_equals_represented _ _ _ _ Hao).
    set (key := element_key path) in *.
    destruct (truthy_string key && _) eqn:Hstore; [|done].
    cbn [mbind completion_bind].
    rewrite (store_bind_normal _ _ _ _ _ Hgv).
    rewrite (store_bind_normal _ _ _ _ _ (store_get_field_ref _ _ (js "elements") _ Ht2)).
    rewrite Hntel. cbn [from_option id].
    assert (bool_decide (props ne !! key = None)
            = bool_decide (own (elements T) !! key = None)) as Hnone.
    { simpl. destruct (Hentries key) as [? ? ?|]; [|done].
      rewrite !bool_decide_eq_false_2; done. }
    assert (forall o' T',
              (forall k, option_Forall2 (represented h)
                           (props o' !! k) (own (elements T') !! k)) ->
              represents_prototype h (prototype_of o') (proto (elements T')) ->
              root T' = root T ->
              extends h (<[e' := o']> h2) /\ represents_tree (<[e' := o']> h2) (RRef t') T')
      as Hfinish.
    { intros o' T' Hk Hp HrT.
      apply (Hbuild _ nt o'); try done.
      - apply Hext3. by right.
      - rewrite lookup_insert_ne by done. done.
      - apply lookup_insert_eq.
      - by rewrite HrT, Hntroot. }
    assert (forall o' : object,
              props o' = <[key := rv]> (props ne) ->
              forall k, option_Forall2 (represented h) (props o' !! k)
                          (<[key := v]> (own (elements T)) !! k)) as Hinsert.
    { intros o' -> k. simpl. destruct (decide (key = k)) as [<-|Hkk].
      - rewrite !lookup_insert_eq. by constructor.
      - rewrite !lookup_insert_ne by done. apply Hentries. }
    unfold set_property, reaches_proto_setter. cbn [elements root spread own proto].
    destruct (bool_decide (key = js "__proto__")) eqn:Hk;
      [destruct (bool_decide (own (elements T) !! key = None)) eqn:Hown|];
      cbn [andb].
    + (* the accessor *)
      pose proof (represented_shape _ _ _ Hav) as Hkind.
      destruct v as [| | | | |items|fields].
      * subst rv.
        rewrite (store_bind_normal (Store.assign (RRef e') key RUndefined) _ h2 () h2);
          [exact Hsame|]. unfold Store.assign. rewrite He2, Hnone, Hk. simpl. by rewrite ?chain_reaches_default.
      * subst rv.
        rewrite (store_bind_normal (Store.assign (RRef e') key RNull) _ h2 ()
                   (<[e' := {| props := props ne; prototype_of := NullProto |}]> h2)).
        2:{ unfold Store.assign. rewrite He2, Hnone, Hk. simpl. by rewrite ?chain_reaches_default. }
        by apply Hfinish.
      * subst rv.
        rewrite (store_bind_normal (Store.assign (RRef e') key (RBool b)) _ h2 () h2);
          [exact Hsame|]. unfold Store.assign. rewrite He2, Hnone, Hk. simpl. by rewrite ?chain_reaches_default.
      * subst rv.
        rewrite (store_bind_normal (Store.assign (RRef e') key (RNum n)) _ h2 () h2);
          [exact Hsame|]. unfold Store.assign. rewrite He2, Hnone, Hk. simpl. by rewrite ?chain_reaches_default.
      * subst rv.
        rewrite (store_bind_normal (Store.assign (RRef e') key (RStr s)) _ h2 () h2);
          [exact Hsame|]. unfold Store.assign. rewrite He2, Hnone, Hk. simpl. by rewrite ?chain_reaches_default.
      * destruct Hkind as [l' ->].
        rewrite (store_bind_normal (Store.assign (RRef e') key (RRef l')) _ h2 ()
                   (<[e' := {| props := props ne; prototype_of := RefProto l' |}]> h2)).
        2:{ unfold Store.assign. rewrite He2, Hnone, Hk. simpl. by rewrite ?chain_reaches_default. }
        by apply Hfinish.
      * destruct Hkind as [l' ->].
        rewrite (store_bind_normal (Store.assign (RRef e') key (RRef l')) _ h2 ()
                   (<[e' := {| props := props ne; prototype_of := RefProto l' |}]> h2)).
        2:{ unfold Store.assign. rewrite He2, Hnone, Hk. simpl. by rewrite ?chain_reaches_default. }
        by apply Hfinish.
    + (* an own property named __proto__ *)
      rewrite (store_bind_normal (Store.assign (RRef e') key rv) _ h2 ()
                 (<[e' := {| props := <[key := rv]> (props ne); prototype_of := ObjectProto |}]> h2)).
      2:{ unfold Store.assign. rewrite He2, Hnone, Hk. simpl. by rewrite ?chain_reaches_default. }
      apply Hfinish; [by apply Hinsert|done|done].
    + rewrite (store_bind_normal (Store.assign (RRef e') key rv) _ h2 ()
                 (<[e' := {| props := <[key := rv]> (props ne); prototype_of := ObjectProto |}]> h2)).
      2:{ unfold Store.assign. rewrite He2, Hk. done. }
      apply Hfinish; [by apply Hinsert|done|done].
Qed.

(** An object of the store whose properties are listed pair by pair
    represents the object value with the related fields. *)
Lemma represents_listed depth h l o (rfields : list (jsstring * rvalue))
    (fields : list (jsstring * value)) :
  h !! l = Some o -> prototype_of o = ObjectProto ->
  props o = list_to_map rfields ->
  Forall2 (fun rf f => rf.1 = f.1 /\ represents depth h rf.2 f.2) rfields fields ->
  represents (S depth) h (RRef l) (VObj fields).
Proof.
  intros Hl Hp Hprops Hall. simpl. exists o. split; [done|]. split; [done|].
  rewrite Hprops. clear Hl Hp Hprops. intros k.
  induction Hall as [|[k1 rv] [k2 v] rfields fields [Hk Hv] _ IH]; simpl in *.
  - rewrite lookup_empty. constructor.
  - subst k2. destruct (decide (k1 = k)) as [->|Hne].
    + rewrite lookup_insert_eq, bool_decide_eq_true_2 by done. by constructor.
    + rewrite lookup_insert_ne, bool_decide_eq_false_2 by done. apply IH.
Qed.

(** The example store holds the empty tree at 0 and, at 2, the operation
    that adds the element at 3. *)
Lemma example_store_represents :
  represents_tree example_store (RRef 0) empty_tree
  /\ represented example_store (RRef 2)
       (VObj [(js "op", VStr (js "add")); (js "path", VStr (js "/elements/form"));
              (js "value", VObj [(js "key", VStr (js "form"));
                                 (js "type", VStr (js "Form"))])]).
Proof.
  split.
  - exists 0%nat, {| props := {[ js "root" := RStr []; js "elements" := RRef 1 ]};
                     prototype_of := ObjectProto |},
           1%nat, {| props := ∅; prototype_of := ObjectProto |}.
    repeat split; try (vm_compute; reflexivity).
    + by exists O.
    + intros k. simpl. rewrite !lookup_empty. constructor.
  - exists 2%nat.
    eapply (represents_listed _ _ _ _
              [(js "op", RStr (js "add")); (js "path", RStr (js "/elements/form"));
               (js "value", RRef 3)]); try (vm_compute; reflexivity).
    constructor; [by split|]. constructor; [by split|].
    constructor; [|constructor]. split; [done|]. cbn [fst snd].
    eapply (represents_listed _ _ _ _
              [(js "key", RStr (js "form")); (js "type", RStr (js "Form"))]);
      try (vm_compute; reflexivity).
    constructor; [by split|]. constructor; [by split|]. constructor.
Qed.

Lemma store_applyPatch_refines_witness :
  match applyPatch empty_tree
          (VObj [(js "op", VStr (js "add")); (js "path", VStr (js "/elements/form"));
                 (js "value", VObj [(js "key", VStr (js "form"));
                                    (js "type", VStr (js "Form"))])]),
        Store.applyPatch (RRef 0) (RRef 2) example_store with
  | Normal T', (Normal t', h') => extends example_store h' /\ represents_tree h' t' T'
  | Throw e, (Throw e', h') => e = e' /\ extends example_store h'
  | _, _ => False
  end.
Proof.
  apply (store_applyPatch_refines example_store (RRef 0) (RRef 2) empty_tree);
    apply example_store_represents.
Defined.

(** ** Line framing loses nothing *)

(** The pieces of a split, each but the last followed by the separator,
    are the string. *)
Lemma split_join sep (s : jsstring) ls l :
  split sep s = ls ++ [l] -> concat (map (fun p => p ++ [sep]) ls) ++ l = s.
Proof.
  revert ls l. induction s as [|c s IH]; intros ls l H; simpl in H.
  - destruct ls as [|? [|]]; simplify_eq/=. done.
  - destruct (N.eqb_spec c sep) as [->|Hne].
    + destruct ls as [|x ls]; simpl in H.
      * injection H as _ H. by destruct (split_nonempty sep s).
      * injection H as <- H. simpl. f_equal. by apply IH.
    + destruct (split sep s) as [|p ps] eqn:Es; [by destruct (split_nonempty sep s)|].
      destruct ls as [|x ls]; simpl in H.
      * injection H as <- ->. simpl. f_equal. by apply (IH [] p).
      * injection H as <- ->. simpl. f_equal. by apply (IH (p :: ls) l).
Qed.

(** Line framing is lossless and prompt.  The lines handed on, each
    followed by a newline, and then the pending buffer are the text
    received so far; no line and no pending buffer contains a newline, so
    a line is handed on in the iteration that receives its newline. *)
Theorem framing_lossless (chunks : list jsstring) :
  concat (map (fun line => line ++ [LF]) (read_loop chunks []).1) ++ (read_loop chunks []).2
    = concat chunks
  /\ Forall (fun line => LF ∉ line) (read_loop chunks []).1
  /\ LF ∉ (read_loop chunks []).2.
Proof.
  pose proof (read_loop_whole chunks) as H.
  split; [by apply split_join|].
  assert (Forall (fun p => LF ∉ p) ((read_loop chunks []).1 ++ [(read_loop chunks []).2])) as HF.
  { rewrite H. apply Forall_forall. intros p Hp. by apply (split_pieces LF (concat chunks)). }
  apply Forall_app in HF as [Hl Hb]. split; [done|]. by apply Forall_inv in Hb.
Qed.

(** The loop over [chunks1 ++ chunks2] is the loop over [chunks1]
    continued over [chunks2] from the buffer it left. *)
Lemma read_loop_app chunks1 chunks2 buffer :
  read_loop (chunks1 ++ chunks2) buffer =
    ((read_loop chunks1 buffer).1 ++ (read_loop chunks2 (read_loop chunks1 buffer).2).1,
     (read_loop chunks2 (read_loop chunks1 buffer).2).2).
Proof.
  revert buffer. induction chunks1 as [|chunk rest IH]; intros buffer; simpl.
  - by destruct (read_loop chunks2 buffer).
  - destruct (frame_chunk buffer chunk) as [lines b]. rewrite IH.
    destruct (read_loop rest b) as [more final]. simpl.
    by rewrite app_assoc.
Qed.

(** ** Whitespace around a line *)

Lemma trimStart_whitespace ws s :
  Forall (fun c => is_whitespace c = true) ws -> trimStart (ws ++ s) = trimStart s.
Proof. induction 1 as [|c ws Hc _ IH]; simpl; [done|]. by rewrite Hc. Qed.

Lemma trimStart_app s ws :
  Forall (fun c => is_whitespace c = true) ws ->
  trimStart (s ++ ws) = match trimStart s with [] => [] | _ => trimStart s ++ ws end.
Proof.
  intros Hws. induction s as [|c s IH]; simpl.
  - rewrite <- (app_nil_r ws) at 1. by rewrite (trimStart_whitespace ws []).
  - destruct (is_whitespace c); [done|]. done.
Qed.

Lemma trimEnd_whitespace s ws :
  Forall (fun c => is_whitespace c = true) ws -> trimEnd (s ++ ws) = trimEnd s.
Proof.
  intros Hws. unfold trimEnd. rewrite rev_app_distr.
  rewrite trimStart_whitespace; [done|]. by apply Forall_rev.
Qed.

(** Whitespace around a string does not change its trim. *)
Lemma trim_whitespace ws1 s ws2 :
  Forall (fun c => is_whitespace c = true) ws1 ->
  Forall (fun c => is_whitespace c = true) ws2 ->
  trim (ws1 ++ s ++ ws2) = trim s.
Proof.
  intros H1 H2. unfold trim. rewrite (trimStart_whitespace _ _ H1), (trimStart_app _ _ H2).
  destruct (trimStart s) as [|c r] eqn:E; [done|].
  by rewrite trimEnd_whitespace.
Qed.

(** Whitespace around a line is invisible to the pipeline: indentation, a
    carriage return before the newline or trailing blanks change neither
    the parsed operation nor the tree, nor the line logged. *)
Theorem surrounding_whitespace_ignored (ws1 line ws2 : jsstring)
    (currentTree : UITree) (st : Demo) :
  Forall (fun c => is_whitespace c = true) ws1 ->
  Forall (fun c => is_whitespace c = true) ws2 ->
  parsePatch (ws1 ++ line ++ ws2) = parsePatch line
  /\ process_line (ws1 ++ line ++ ws2) currentTree st = process_line line currentTree st.
Proof.
  intros H1 H2.
  assert (parsePatch (ws1 ++ line ++ ws2) = parsePatch line) as Hp.
  { unfold parsePatch. by rewrite (trim_whitespace _ _ _ H1 H2). }
  split; [done|]. unfold process_line. by rewrite Hp, (trim_whitespace _ _ _ H1 H2).
Qed.

Lemma surrounding_whitespace_ignored_witness :
  parsePatch (js "  " ++ set_root_line ++ [13]) = parsePatch set_root_line
  /\ process_line (js "  " ++ set_root_line ++ [13]) empty_tree initial
     = process_line set_root_line empty_tree initial.
Proof.
  apply (surrounding_whitespace_ignored (js "  ") set_root_line [13] empty_tree initial).
  - repeat constructor.
  - repeat constructor.
Defined.

(** ** How operations compose *)

(** A value with a string [path] is an object, and reading its fields
    never throws. *)
Lemma string_path_object patch path :
  get_field patch (js "path") = Normal (VStr path) ->
  exists fields, patch = VObj fields.
Proof. destruct patch; simpl; intros; simplify_eq; eauto. Qed.

(** [applyPatch] on an object with a string [path], as one expression. *)
Lemma applyPatch_object tree fields path :
  get_field (VObj fields) (js "path") = Normal (VStr path) ->
  applyPatch tree (VObj fields) =
    Normal
      (if bool_decide (path = js "/root") then
         {| root := default VUndefined (own_property fields (js "value"));
            elements := spread (elements tree) |}
       else if startsWith (js "/elements/") path
               && truthy_string (element_key path)
               && (strict_equals_string
                     (default VUndefined (own_property fields (js "op"))) (js "set")
                   || strict_equals_string
                        (default VUndefined (own_property fields (js "op"))) (js "add"))
       then {| root := root tree;
               elements := set_property (spread (elements tree)) (element_key path)
                             (default VUndefined (own_property fields (js "value"))) |}
       else {| root := root tree; elements := spread (elements tree) |}).
Proof.
  intros Hp. rewrite (applyPatch_string_path _ _ _ Hp).
  cbn [get_field mbind completion_bind].
  destruct (bool_decide (path = js "/root")); [done|].
  destruct (startsWith (js "/elements/") path); [|done].
  cbn [andb]. by destruct (_ && _).
Qed.

(** A snapshot is returned only for a value with a string [path]. *)
Lemma applyPatch_normal_path tree patch tree' :
  applyPatch tree patch = Normal tree' ->
  exists path, get_field patch (js "path") = Normal (VStr path).
Proof.
  unfold applyPatch.
  destruct (get_field patch (js "path")) as [p|]; cbn [mbind completion_bind]; [|done].
  destruct p; try (cbn [strict_equals_string string_receiver mbind completion_bind]; done).
  eauto.
Qed.

Lemma spread_spread o : spread (spread o) = spread o.
Proof. done. Qed.

Lemma reaches_proto_setter_spread o o' key :
  own o = own o' ->
  reaches_proto_setter (spread o) key = reaches_proto_setter (spread o') key.
Proof. unfold reaches_proto_setter, spread. cbn [own proto]. by intros ->. Qed.

(** Writing a property twice, with a copy in between, is the second
    write. *)
Lemma set_property_overwrite o key v1 v2 :
  set_property (spread (set_property (spread o) key v1)) key v2
  = set_property (spread o) key v2.
Proof.
  unfold set_property at 2 3.
  destruct (reaches_proto_setter (spread o) key) eqn:Hr.
  - assert (forall o', own o' = own o -> reaches_proto_setter (spread o') key = true)
      as Hany by (intros o' Ho; rewrite <- Hr; by apply reaches_proto_setter_spread).
    destruct v1; unfold set_property; rewrite Hany by done; done.
  - unfold set_property, reaches_proto_setter in *. cbn [spread own proto] in *.
    destruct (bool_decide (key = js "__proto__")); cbn [andb] in *.
    + rewrite andb_true_r in Hr. rewrite lookup_insert_eq.
      rewrite bool_decide_eq_false_2 by done. cbn [andb own].
      by rewrite insert_insert_eq.
    + cbn [own]. by rewrite insert_insert_eq.
Qed.

(** Applying an operation twice is applying it once. *)
Theorem applyPatch_idempotent (tree tree' : UITree) (patch : value) :
  applyPatch tree patch = Normal tree' -> applyPatch tree' patch = Normal tree'.
Proof.
  intros H. destruct (applyPatch_normal_path _ _ _ H) as [path Hp].
  destruct (string_path_object _ _ Hp) as [fields ->].
  rewrite (applyPatch_object tree _ _ Hp) in H. injection H as <-.
  rewrite (applyPatch_object _ _ _ Hp). f_equal.
  destruct (bool_decide (path = js "/root")); [done|].
  destruct (_ && _); cbn [root elements]; [|done].
  by rewrite set_property_overwrite.
Qed.

Lemma applyPatch_idempotent_witness :
  applyPatch {| root := VStr [];
                elements := {| own := {[ js "form" := form_element ]};
                               proto := ObjectPrototype |} |}
    (VObj [(js "op", VStr (js "add")); (js "path", VStr (js "/elements/form"));
           (js "value", form_element)])
  = Normal {| root := VStr [];
              elements := {| own := {[ js "form" := form_element ]};
                             proto := ObjectPrototype |} |}.
Proof.
  apply (applyPatch_idempotent empty_tree).
  vm_compute. reflexivity.
Defined.

(** An operation that addresses what an earlier one addressed overrides
    it: after two [/root] operations, or two operations on the same
    element key of which the later one stores, the tree is what the later
    operation alone gives. *)
Theorem later_operation_overrides (tree : UITree) (p1 p2 : value)
    (path1 path2 : jsstring) :
  get_field p1 (js "path") = Normal (VStr path1) ->
  get_field p2 (js "path") = Normal (VStr path2) ->
  (path1 = js "/root" /\ path2 = js "/root")
  \/ (path1 <> js "/root" /\ path2 <> js "/root"
      /\ startsWith (js "/elements/") path2 = true
      /\ element_key path1 = element_key path2
      /\ exists op2, get_field p2 (js "op") = Normal op2 /\ stores op2) ->
  (tree1 ← applyPatch tree p1; applyPatch tree1 p2) = applyPatch tree p2.
Proof.
  intros H1 H2 Hsame.
  destruct (string_path_object _ _ H1) as [f1 ->].
  destruct (string_path_object _ _ H2) as [f2 ->].
  rewrite (applyPatch_object tree _ _ H1). cbn [mbind completion_bind].
  rewrite !(applyPatch_object _ _ _ H2). f_equal.
  destruct Hsame as [[-> ->]|(Hn1 & Hn2 & Hpre & Hkey & op2 & Hop & Hst)].
  - by rewrite !bool_decide_eq_true_2.
  - rewrite !(bool_decide_eq_false_2 _ Hn1), !(bool_decide_eq_false_2 _ Hn2), Hpre.
    simpl in Hop. injection Hop as Hop. rewrite Hop, (stores_test _ Hst), andb_true_r.
    cbn [andb]. rewrite <- Hkey.
    destruct (truthy_string (element_key path1)) eqn:Hk.
    + case_match; cbn [root elements]; [by rewrite set_property_overwrite|done].
    + rewrite !andb_false_r. cbn [andb]. by try case_match.
Qed.

Lemma later_operation_overrides_witness :
  (tree1 ← applyPatch empty_tree
             (VObj [(js "op", VStr (js "add")); (js "path", VStr (js "/elements/form"));
                    (js "value", VObj [(js "type", VStr (js "Card"))])]);
   applyPatch tree1
     (VObj [(js "op", VStr (js "set")); (js "path", VStr (js "/elements/form/props"));
            (js "value", form_element)]))
  = applyPatch empty_tree
      (VObj [(js "op", VStr (js "set")); (js "path", VStr (js "/elements/form/props"));
             (js "value", form_element)]).
Proof.
  apply (later_operation_overrides empty_tree _ _
           (js "/elements/form") (js "/elements/form/props")).
  - vm_compute. reflexivity.
  - vm_compute. reflexivity.
  - right. split; [by vm_compute|]. split; [by vm_compute|].
    split; [vm_compute; reflexivity|]. split; [vm_compute; reflexivity|].
    exists (VStr (js "set")). split; [vm_compute; reflexivity|]. by left.
Defined.

(** Operations that address different things commute: a [/root]
    operation with any operation that is none, and two operations on
    different element keys, none of them [__proto__]. *)
Theorem independent_operations_commute (tree : UITree) (p q : value)
    (path_p path_q : jsstring) :
  get_field p (js "path") = Normal (VStr path_p) ->
  get_field q (js "path") = Normal (VStr path_q) ->
  element_key path_p <> js "__proto__" ->
  element_key path_q <> js "__proto__" ->
  (path_p = js "/root" -> path_q <> js "/root") ->
  (startsWith (js "/elements/") path_p = true ->
   startsWith (js "/elements/") path_q = true ->
   element_key path_p <> element_key path_q) ->
  (tree1 ← applyPatch tree p; applyPatch tree1 q)
  = (tree1 ← applyPatch tree q; applyPatch tree1 p).
Proof.
  intros Hp Hq Hkp Hkq Hroot Hkeys.
  destruct (string_path_object _ _ Hp) as [fp ->].
  destruct (string_path_object _ _ Hq) as [fq ->].
  rewrite (applyPatch_object tree _ _ Hp), (applyPatch_object tree _ _ Hq).
  cbn [mbind completion_bind].
  rewrite (applyPatch_object _ _ _ Hp), (applyPatch_object _ _ _ Hq). f_equal.
  destruct (decide (path_p = js "/root")) as [Ep|Ep].
  - specialize (Hroot Ep). rewrite (bool_decide_eq_true_2 _ Ep), (bool_decide_eq_false_2 _ Hroot).
    case_match; cbn [root elements]; [|done].
    by rewrite !set_property_own.
  - rewrite (bool_decide_eq_false_2 _ Ep).
    destruct (decide (path_q = js "/root")) as [Eq|Eq].
    + rewrite (bool_decide_eq_true_2 _ Eq).
      case_match; cbn [root elements]; [|done].
      by rewrite !set_property_own.
    + rewrite (bool_decide_eq_false_2 _ Eq).
      destruct (startsWith (js "/elements/") path_p) eqn:Sp; cbn [andb].
      2:{ case_match; cbn [root elements]; [|done]. by rewrite !set_property_own. }
      destruct (startsWith (js "/elements/") path_q) eqn:Sq; cbn [andb].
      2:{ case_match; cbn [root elements]; [|done]. by rewrite !set_property_own. }
      specialize (Hkeys eq_refl eq_refl).
      repeat case_match; cbn [root elements]; rewrite ?set_property_own by done;
        cbn [spread own proto]; try done.
      f_equal. f_equal. by apply insert_insert_ne.
Qed.

Lemma independent_operations_commute_witness :
  (tree1 ← applyPatch empty_tree
             (VObj [(js "op", VStr (js "add")); (js "path", VStr (js "/elements/name"));
                    (js "value", VObj [(js "type", VStr (js "Input"))])]);
   applyPatch tree1
     (VObj [(js "op", VStr (js "add")); (js "path", VStr (js "/elements/form"));
            (js "value", form_element)]))
  = (tree1 ← applyPatch empty_tree
               (VObj [(js "op", VStr (js "add")); (js "path", VStr (js "/elements/form"));
                      (js "value", form_element)]);
     applyPatch tree1
       (VObj [(js "op", VStr (js "add")); (js "path", VStr (js "/elements/name"));
              (js "value", VObj [(js "type", VStr (js "Input"))])])).
Proof.
  apply (independent_operations_commute empty_tree _ _
           (js "/elements/name") (js "/elements/form")).
  - vm_compute. reflexivity.
  - vm_compute. reflexivity.
  - by vm_compute.
  - by vm_compute.
  - by vm_compute.
  - by vm_compute.
Defined.

(** ** A session only adds elements *)

Lemma grows_refl t : grows t t.
Proof. split; [done|]. auto. Qed.

Lemma grows_same t t' : own (elements t') = own (elements t) -> grows t t'.
Proof. intros H. unfold grows. rewrite H. split; [done|]. auto. Qed.

Lemma Normal_inj {A} (a b : A) : Normal a = Normal b -> a = b.
Proof. by intros [= ->]. Qed.

Lemma grows_trans t1 t2 t3 : grows t1 t2 -> grows t2 t3 -> grows t1 t3.
Proof.
  intros [H1 N1] [H2 N2]. split; [set_solver|].
  intros k Hk. destruct (N2 k Hk) as [Hk2|Hk2]; [|by right]. by apply N1.
Qed.

Lemma element_key_no_slash path : ch "/" ∉ element_key path.
Proof.
  unfold element_key.
  destruct (split (ch "/") (slice_from (length (js "/elements/")) path)) as [|p ps] eqn:E.
  - by destruct (split_nonempty _ _ E).
  - apply (split_pieces (ch "/") (slice_from (length (js "/elements/")) path)).
    rewrite E. left.
Qed.

Lemma applyPatch_grows t patch t' : applyPatch t patch = Normal t' -> grows t t'.
Proof.
  intros H. destruct (applyPatch_normal_path _ _ _ H) as [path Hp].
  destruct (string_path_object _ _ Hp) as [fields ->].
  rewrite (applyPatch_object _ _ _ Hp) in H. apply Normal_inj in H. subst t'.
  destruct (bool_decide (path = js "/root")); [by apply grows_same|].
  destruct (startsWith (js "/elements/") path); cbn [andb]; [|by apply grows_same].
  destruct (truthy_string (element_key path)) eqn:Hk; cbn [andb]; [|by apply grows_same].
  destruct (_ || _); [|by apply grows_same].
  unfold set_property.
  destruct (reaches_proto_setter _ _) eqn:Hr.
  - apply grows_same. by destruct (default _ _).
  - unfold grows. cbn [elements own spread]. split; [set_solver|].
    intros k Hk'. apply dom_insert in Hk'. apply elem_of_union in Hk' as [Hk'|Hk']; [|by left].
    apply elem_of_singleton in Hk' as ->. 
    destruct (decide (element_key path ∈ dom (own (elements t)))) as [Hin|Hin]; [by left|].
    right. split; [by destruct (element_key path)|]. split; [apply element_key_no_slash|].
    intros Heq. unfold reaches_proto_setter in Hr. cbn [spread own proto] in Hr.
    apply andb_false_iff in Hr as [Hr|Hr]; [|done].
    apply andb_false_iff in Hr as [Hr|Hr]; apply bool_decide_eq_false in Hr; [done|].
    apply Hr. by apply not_elem_of_dom.
Qed.

Lemma process_line_grows line t st outcome st' :
  process_line line t st = (outcome, st') ->
  (forall t', outcome = Normal t' -> grows t t')
  /\ (tree st' = tree st \/ exists t', tree st' = Some t' /\ outcome = Normal t').
Proof.
  unfold process_line. destruct (parsePatch line) as [patch|e].
  - destruct (truthy patch).
    + destruct (applyPatch t patch) as [t1|e] eqn:Ha.
      * intros [= <- <-]. split; [|right; eauto].
        intros t' [= <-]. by eapply applyPatch_grows.
      * intros [= <- <-]. split; [done|by left].
    + intros [= <- <-]. split; [|by left]. intros t' [= <-]. apply grows_refl.
  - intros [= <- <-]. split; [done|by left].
Qed.

(** A session only adds elements.  Whatever the lines, the running tree
    keeps every key it had, its new keys are non-empty names without a
    slash other than [__proto__], and the same holds of the snapshot
    published last: no line removes an element. *)
Theorem elements_never_removed (lines : list jsstring) (t : UITree) (st : Demo)
    (outcome : completion UITree) (st' : Demo) :
  process_lines lines t st = (outcome, st') ->
  (forall t', outcome = Normal t' -> grows t t')
  /\ (tree st' = tree st \/ exists t', tree st' = Some t' /\ grows t t').
Proof.
  revert t st. induction lines as [|line rest IH]; intros t st; simpl.
  - intros [= <- <-]. split; [|by left]. intros t' [= <-]. apply grows_refl.
  - destruct (process_line line t st) as [[t1|e] st1] eqn:E.
    + destruct (process_line_grows _ _ _ _ _ E) as [Hg Hp]. specialize (Hg _ eq_refl).
      intros H. destruct (IH _ _ H) as [Hg' Hp']. split.
      * intros t' Ho. by eapply grows_trans; [|apply Hg'].
      * destruct Hp' as [Hsame|(t' & Ht' & Hgt')].
        -- rewrite Hsame. destruct Hp as [?|(t1' & Ht1 & [= <-])]; [by left|]. right. eauto.
        -- right. exists t'. split; [done|]. by eapply grows_trans.
    + intros [= <- <-]. destruct (process_line_grows _ _ _ _ _ E) as [_ [Hp|(? & _ & ?)]]; [|done].
      split; [done|by left].
Qed.

Lemma elements_never_removed_witness :
  grows empty_tree
    {| root := VStr (js "form");
       elements := {| own := {[ js "form" := form_element ]}; proto := ObjectPrototype |} |}.
Proof.
  apply (elements_never_removed
           [set_root_line; json "{'op':'remove','path':'/elements/form'}"; add_form_line;
            json "{'op':'remove','path':'/elements/form'}"]
           empty_tree initial
           (Normal {| root := VStr (js "form");
                      elements := {| own := {[ js "form" := form_element ]};
                                     proto := ObjectPrototype |} |})
           (process_lines
              [set_root_line; json "{'op':'remove','path':'/elements/form'}"; add_form_line;
               json "{'op':'remove','path':'/elements/form'}"]
              empty_tree initial).2).
  - vm_compute. reflexivity.
  - reflexivity.
Defined.

(** ** The line log *)

Lemma process_line_log line t st t' st' :
  process_line line t st = (Normal t', st') ->
  if accepted line
  then streamLines st' = streamLines st ++ [trim line] /\ tree st' = Some t'
  else st' = st /\ t' = t.
Proof.
  unfold process_line, accepted. destruct (parsePatch line) as [patch|e]; [|done].
  destruct (truthy patch); [|by intros [= <- <-]].
  destruct (applyPatch t patch); [|done]. by intros [= <- <-].
Qed.

(** The log of a session.  When no line throws, the line log grows by
    the trimmed text of the lines handed to the reducer, in the order of
    the stream; blank lines, comments and lines that do not parse leave
    no trace, and the snapshot published last is the running tree. *)
Theorem line_log (lines : list jsstring) (t : UITree) (st : Demo)
    (t' : UITree) (st' : Demo) :
  process_lines lines t st = (Normal t', st') ->
  streamLines st' = streamLines st ++ map trim (filter (fun l => accepted l = true) lines)
  /\ (filter (fun l => accepted l = true) lines = [] -> st' = st /\ t' = t)
  /\ (filter (fun l => accepted l = true) lines <> [] -> tree st' = Some t').
Proof.
  revert t st. induction lines as [|line rest IH]; intros t st; simpl.
  - intros [= <- <-]. by rewrite app_nil_r.
  - destruct (process_line line t st) as [[t1|e] st1] eqn:E; [|done].
    intros H. apply process_line_log in E. destruct (IH _ _ H) as (Hl & Hnone & Hsome).
    rewrite filter_cons. destruct (accepted line) eqn:Ha.
    + destruct E as [E1 E2]. rewrite decide_True by done. simpl.
      split; [by rewrite Hl, E1, <- app_assoc|]. split; [done|]. intros _.
      destruct (filter (fun l => accepted l = true) rest) as [|x xs] eqn:Ef.
      * destruct (Hnone eq_refl) as [-> ->]. done.
      * by apply Hsome.
    + destruct E as [-> ->]. rewrite decide_False by done. done.
Qed.

Lemma line_log_witness :
  streamLines
    (process_lines [js "  " ++ set_root_line ++ [13]; js "// a comment"; [];
                    js "{'op':"; js "null"; add_form_line] empty_tree initial).2
  = [] ++ map trim
      (filter (fun l => accepted l = true)
         [js "  " ++ set_root_line ++ [13]; js "// a comment"; [];
          js "{'op':"; js "null"; add_form_line]).
Proof.
  apply (line_log
           [js "  " ++ set_root_line ++ [13]; js "// a comment"; [];
            js "{'op':"; js "null"; add_form_line] empty_tree initial
           {| root := VStr (js "form");
              elements := {| own := {[ js "form" := form_element ]};
                             proto := ObjectPrototype |} |}).
  vm_compute. reflexivity.
Defined.

(** ** A line that throws *)

(** [get_field] and [applyPatch] throw nothing but a [TypeError], and
    [applyPatch] throws on every value without a string [path]. *)
Lemma applyPatch_throws tree patch :
  (forall path, get_field patch (js "path") <> Normal (VStr path)) ->
  applyPatch tree patch = Throw TypeError.
Proof.
  intros H. unfold applyPatch.
  destruct (get_field patch (js "path")) as [p|e] eqn:E; cbn [mbind completion_bind].
  - destruct p; cbn [strict_equals_string string_receiver mbind completion_bind];
      try done. by destruct (H s).
  - destruct patch; simpl in E; by simplify_eq.
Qed.

(** A line that makes the reducer throw ends the call.  When a chunk
    completes a line that parses to a truthy value without a string
    [path], the lines before it in the chunk are published, the call
    settles with a [TypeError] on the console and the loading flag
    cleared, and nothing after that line is ever processed: the rest of
    the chunk is dropped and the call takes no further event. *)
Theorem throwing_line_ends_call (c : nat) (buffer text : jsstring) (t : UITree)
    (st : Demo) (before : list jsstring) (bad : jsstring) (after : list jsstring)
    (pending : jsstring) (t1 : UITree) (st1 : Demo) (patch : value) :
  calls st !! c = Some (Reading buffer t) ->
  c ∉ aborted st ->
  frame_chunk buffer text = (before ++ bad :: after, pending) ->
  process_lines before t st = (Normal t1, st1) ->
  parsePatch bad = Normal patch -> truthy patch = true ->
  (forall path, get_field patch (js "path") <> Normal (VStr path)) ->
  exists st',
    resume c (Chunk text) st = Some st'
    /\ tree st' = tree st1 /\ streamLines st' = streamLines st1
    /\ console st' = console st ++ [TypeError]
    /\ isLoading st' = false
    /\ calls st' !! c = Some Settled
    /\ forall ev, resume c ev st' = None.
Proof.
  intros Hc Ha Hf Hb Hp Ht Hpath.
  assert (process_lines (before ++ bad :: after) t st = (Throw TypeError, st1)) as Hall.
  { rewrite process_lines_app, Hb. simpl. unfold process_line.
    by rewrite Hp, Ht, (applyPatch_throws _ _ Hpath). }
  exists (settle c (@Throw unit TypeError) st1).
  destruct (process_lines_frame _ _ _ _ _ Hb) as (Hab & Habd & Hcalls & Hcons & Hload).
  destruct (settle_published c (@Throw unit TypeError) st1) as (S1 & S2 & S3 & S4 & S5 & S6).
  assert (calls (settle c (@Throw unit TypeError) st1) !! c = Some Settled) as Hs.
  { rewrite S6, Hcalls. apply list_lookup_insert_eq. by apply lookup_lt_Some in Hc. }
  split; [|repeat split; try done].
  - unfold resume. rewrite Hc. simpl. rewrite (bool_decide_eq_false_2 _ Ha). simpl.
    by rewrite Hf, Hall.
  - rewrite settle_console. simpl. by rewrite Hcons.
  - intros ev. unfold resume. rewrite Hs. simpl. by destruct (_ && _).
Qed.

Lemma throwing_line_ends_call_witness :
  exists st',
    resume 0 (Chunk (set_root_line ++ [LF] ++ js "42" ++ [LF] ++ add_form_line ++ [LF]))
      (state_after reading_session) = Some st'
    /\ tree st' = Some {| root := VStr (js "form"); elements := empty_object |}
    /\ streamLines st' = [set_root_line]
    /\ console st' = [TypeError]
    /\ isLoading st' = false.
Proof.
  destruct (throwing_line_ends_call 0 []
              (set_root_line ++ [LF] ++ js "42" ++ [LF] ++ add_form_line ++ [LF])
              empty_tree (state_after reading_session)
              [set_root_line] (js "42") [add_form_line] []
              {| root := VStr (js "form"); elements := empty_object |}
              (process_lines [set_root_line] empty_tree (state_after reading_session)).2
              (VNum (number_of_nat 42)))
    as (st' & Hr & Ht & Hl & Hc & Hi & _).
  - vm_compute. reflexivity.
  - vm_compute. set_solver.
  - vm_compute. reflexivity.
  - vm_compute. reflexivity.
  - vm_compute. reflexivity.
  - vm_compute. reflexivity.
  - intros path. vm_compute. discriminate.
  - exists st'. split; [exact Hr|]. split; [rewrite Ht; vm_compute; reflexivity|].
    split; [rewrite Hl; vm_compute; reflexivity|]. split; [rewrite Hc; vm_compute; reflexivity|].
    exact Hi.
Defined.

(** ** Invariants of the session *)

(** What resuming a call does to the bookkeeping: it either settles the
    call, clearing the loading flag and logging at most one error that is
    no cancellation, or leaves the call reading. *)
Lemma resume_effect c ev st st' :
  resume c ev st = Some st' ->
  abortRef st' = abortRef st /\ aborted st' = aborted st
  /\ ((isLoading st' = false /\ calls st' = <[c := Settled]> (calls st)
       /\ (console st' = console st
           \/ exists e, error_name e <> js "AbortError" /\ console st' = console st ++ [e]))
      \/ (isLoading st' = isLoading st /\ console st' = console st
          /\ exists b t, calls st' = <[c := Reading b t]> (calls st))).
Proof.
  unfold resume. destruct (calls st !! c) as [act|] eqn:Hc; simpl; [|done].
  destruct (_ && _); [done|].
  assert (forall A (o : completion A) s,
            abortRef s = abortRef st -> aborted s = aborted st -> calls s = calls st ->
            console s = console st ->
            abortRef (settle c o s) = abortRef st /\ aborted (settle c o s) = aborted st
            /\ ((isLoading (settle c o s) = false
                 /\ calls (settle c o s) = <[c := Settled]> (calls st)
                 /\ (console (settle c o s) = console st
                     \/ exists e, error_name e <> js "AbortError"
                                  /\ console (settle c o s) = console st ++ [e]))
                \/ (isLoading (settle c o s) = isLoading st
                    /\ console (settle c o s) = console st
                    /\ exists b t, calls (settle c o s) = <[c := Reading b t]> (calls st))))
    as Hsettle.
  { intros A o s H1 H2 H3 H4.
    destruct (settle_published c o s) as (_ & _ & -> & -> & -> & ->).
    rewrite H1, H2, H3. split; [done|]. split; [done|]. left. split; [done|]. split; [done|].
    rewrite settle_console, H4. destruct o as [a|e]; [by left|].
    destruct (bool_decide (error_name e = js "AbortError")) eqn:Hn; [by left|].
    right. exists e. split; [|done]. by apply bool_decide_eq_false in Hn. }
  assert (forall b t s,
            abortRef s = abortRef st -> aborted s = aborted st -> calls s = calls st ->
            console s = console st -> isLoading s = isLoading st ->
            abortRef (suspend c (Reading b t) s) = abortRef st
            /\ aborted (suspend c (Reading b t) s) = aborted st
            /\ ((isLoading (suspend c (Reading b t) s) = false
                 /\ calls (suspend c (Reading b t) s) = <[c := Settled]> (calls st)
                 /\ (console (suspend c (Reading b t) s) = console st
                     \/ exists e, error_name e <> js "AbortError"
                                  /\ console (suspend c (Reading b t) s) = console st ++ [e]))
                \/ (isLoading (suspend c (Reading b t) s) = isLoading st
                    /\ console (suspend c (Reading b t) s) = console st
                    /\ exists b' t', calls (suspend c (Reading b t) s)
                                     = <[c := Reading b' t']> (calls st))))
    as Hsuspend.
  { intros b t s H1 H2 H3 H4 H5. simpl. rewrite H1, H2, H3, H4, H5.
    split; [done|]. split; [done|]. right. eauto. }
  destruct act as [|buffer currentTree|], ev as [ok status has_body|text| |err]; try done;
    try (intros [= <-]; by apply Hsettle).
  - destruct (negb ok); [intros [= <-]; by apply Hsettle|].
    destruct (negb has_body); intros [= <-]; [by apply Hsettle|by apply Hsuspend].
  - destruct (frame_chunk buffer text) as [lines buffer'].
    destruct (process_lines lines currentTree st) as [[t|e] st1] eqn:E;
      apply process_lines_frame in E as (? & ? & ? & ? & ?); intros [= <-];
      [by apply Hsuspend|by apply Hsettle].
  - destruct (process_lines _ currentTree st) as [o st1] eqn:E.
    apply process_lines_frame in E as (? & ? & ? & ? & ?). intros [= <-]. by apply Hsettle.
Qed.

Lemma live_call_step a st st' :
  superseded_fired st ->
  (isLoading st = true -> live_call st) ->
  step a st = Some st' ->
  isLoading st' = true -> live_call st'.
Proof.
  intros (Hcur & Hab & _) Hinv Hstep Hload.
  destruct a as [s| | |c ev]; simpl in Hstep.
  - injection Hstep as <-. by apply Hinv.
  - injection Hstep as <-. unfold handleSubmit in *.
    destruct (negb _ || isLoading st) eqn:Hg; [by apply Hinv|].
    exists (length (calls st)), AwaitingResponse. simpl.
    split; [done|]. split; [|split; [|done]].
    + destruct (abortRef st) as [old|] eqn:Ho.
      * intros [Hn|Hn]%elem_of_union.
        -- apply elem_of_singleton in Hn. specialize (Hcur old eq_refl). lia.
        -- specialize (Hab _ Hn). lia.
      * intros Hn. specialize (Hab _ Hn). lia.
    + by rewrite lookup_app_r, Nat.sub_diag.
  - injection Hstep as <-. by destruct (mode (abort_current st)).
  - destruct (resume_effect _ _ _ _ Hstep) as (E1 & E2 & [(E3 & _)|(E3 & _ & b & t & E4)]);
      [congruence|].
    rewrite E3 in Hload. destruct (Hinv Hload) as (c0 & a0 & H1 & H2 & H3 & H4).
    destruct (decide (c0 = c)) as [->|Hne].
    + exists c, (Reading b t). rewrite E1, E2, E4. repeat split; try done.
      apply list_lookup_insert_eq. by apply lookup_lt_Some in H3.
    + exists c0, a0. rewrite E1, E2, E4. repeat split; try done.
      by rewrite list_lookup_insert_ne.
Qed.

Lemma live_call_run actions st st' :
  superseded_fired st ->
  (isLoading st = true -> live_call st) ->
  run actions st = Some st' ->
  isLoading st' = true -> live_call st'.
Proof.
  revert st. induction actions as [|a rest IH]; intros st Hs Hinv; simpl.
  - by intros [= <-].
  - destruct (step a st) as [st1|] eqn:E; simpl; [|done].
    apply IH; [by eapply superseded_fired_step|by eapply live_call_step].
Qed.

(** While the loading flag is set a request is in flight.  In every
    reachable state with [isLoading] set, [abortRef] holds a controller
    whose signal has not fired and whose call has not settled. *)
Theorem loading_has_live_call (st : Demo) :
  reachable st -> isLoading st = true -> live_call st.
Proof.
  intros [actions H]. eapply live_call_run; [apply superseded_fired_initial| |exact H].
  done.
Qed.

Lemma loading_has_live_call_witness :
  live_call (state_after reading_session).
Proof.
  apply (loading_has_live_call (state_after reading_session)).
  - exists reading_session. vm_compute. reflexivity.
  - vm_compute. reflexivity.
Defined.

Lemma console_step a st st' :
  Forall (fun e => error_name e <> js "AbortError") (console st) ->
  step a st = Some st' ->
  Forall (fun e => error_name e <> js "AbortError") (console st').
Proof.
  intros Hinv Hstep. destruct a as [s| | |c ev]; simpl in Hstep.
  - by injection Hstep as <-.
  - injection Hstep as <-. unfold handleSubmit. by destruct (_ || _).
  - injection Hstep as <-. unfold stopGeneration. by destruct (mode (abort_current st)).
  - destruct (resume_effect _ _ _ _ Hstep)
      as (_ & _ & [(_ & _ & [->|(e & He & ->)])|(_ & -> & _)]); try done.
    apply Forall_app. split; [done|]. by constructor.
Qed.

(** A cancellation is never reported.  In every reachable state no
    error on the console is an abort error, however many requests were
    stopped or superseded. *)
Theorem console_never_reports_abort (st : Demo) :
  reachable st -> Forall (fun e => error_name e <> js "AbortError") (console st).
Proof.
  intros [actions H]. revert H.
  assert (Forall (fun e => error_name e <> js "AbortError") (console initial)) as Hi
    by constructor.
  revert Hi. generalize initial. induction actions as [|a rest IH]; intros s Hs; simpl.
  - by intros [= <-].
  - destruct (step a s) as [s1|] eqn:E; simpl; [|done].
    apply IH. by eapply console_step.
Qed.

Lemma console_never_reports_abort_witness :
  Forall (fun e => error_name e <> js "AbortError")
    (console (state_after (stopped_session ++ [Transport 0 (Rejected AbortError)]))).
Proof.
  apply (console_never_reports_abort
           (state_after (stopped_session ++ [Transport 0 (Rejected AbortError)]))).
  exists (stopped_session ++ [Transport 0 (Rejected AbortError)]). vm_compute. reflexivity.
Defined.

(** ** The preview of a typed tree *)

Lemma resolve_children_strings `{Host} els (keys : list jsstring) :
  resolve_children els (map VStr keys) = Normal (map (get_property els) keys).
Proof.
  induction keys as [|k keys IH]; [done|]. cbn [map resolve_children].
  unfold lookup_element. cbn [to_string mbind completion_bind]. by rewrite IH.
Qed.

(** What a read of a plain object of elements gives: an entry, a
    built-in, or [undefined]. *)
Lemma get_property_plain `{Host} els k :
  proto els = ObjectPrototype ->
  (exists v, own els !! k = Some v /\ get_property els k = Resolved v)
  \/ (own els !! k = None
      /\ (get_property els k = BuiltIn \/ get_property els k = Resolved VUndefined)).
Proof.
  intros Hp. unfold get_property. destruct (own els !! k) as [v|]; [left; eauto|].
  right. split; [done|]. rewrite Hp. unfold object_prototype_get.
  repeat case_match; auto.
Qed.

Lemma render_child_element v :
  is_UIElement v -> exists w, render_child (Resolved v) = Normal w.
Proof.
  intros (fields & -> & _ & [ty Hty] & [p Hp] & _).
  unfold render_child. cbn [resolved_field get_field mbind completion_bind].
  rewrite Hty, Hp. cbn [default from_option id get_field mbind completion_bind].
  repeat case_match; eauto.
Qed.

Lemma render_children_typed `{Host} els (keys : list jsstring) :
  proto els = ObjectPrototype ->
  (forall k v, own els !! k = Some v -> is_UIElement v) ->
  exists ws,
    render_children (filter (fun r => truthy_resolved r = true) (map (get_property els) keys))
      = Normal ws
    /\ Forall2 (fun k w => render_child (get_property els k) = Normal w)
         (filter (fun k => truthy_resolved (get_property els k) = true) keys) ws.
Proof.
  intros Hp Hel. induction keys as [|k keys (ws & IH & IH2)]; simpl.
  - exists []. split; [done|constructor].
  - rewrite !filter_cons.
    destruct (decide (truthy_resolved (get_property els k) = true)) as [Ht|Ht]; [|eauto].
    assert (exists w, render_child (get_property els k) = Normal w) as [w Hw].
    { destruct (get_property_plain els k Hp) as [(v & Hv & E)|(_ & [E|E])];
        rewrite E in *.
      - apply render_child_element. by eapply Hel.
      - exists None. reflexivity.
      - done. }
    exists (w :: ws). simpl. rewrite Hw, IH. split; [done|]. by constructor.
Qed.

(** The preview never throws on a typed tree, however little of it has
    arrived: for a tree of the declared interfaces whose root key is an
    entry, or is no property name of [Object.prototype], [renderPreview]
    returns. *)
Theorem preview_total_on_typed_tree `{Host} (t : UITree) (r : jsstring) :
  is_UITree t ->
  root t = VStr r ->
  own (elements t) !! r <> None
  \/ (r <> js "__proto__" /\ r ∉ object_prototype_methods) ->
  exists shown, renderPreview (Some t) = Normal shown.
Proof.
  intros (_ & Hp & Hel) Hr Hroot. unfold renderPreview. rewrite Hr.
  destruct r as [|c r']; [by eexists|].
  cbn [truthy truthy_string negb lookup_element to_string mbind completion_bind].
  destruct (own (elements t) !! (c :: r')) as [e|] eqn:He.
  - unfold get_property at 1 2 3. rewrite He.
    destruct (Hel _ _ He) as (fields & -> & _ & _ & [p Hprops] & Hch).
    cbn [truthy_resolved truthy negb resolved_field get_field mbind completion_bind].
    rewrite Hprops. cbn [default from_option id get_field mbind completion_bind].
    unfold preview_children. cbn [resolved_field get_field mbind completion_bind].
    destruct Hch as [Hch|[keys Hch]]; rewrite Hch;
      cbn [default from_option id get_field mbind completion_bind].
    + by eexists.
    + destruct (render_children_typed (elements t) keys Hp Hel) as (ws & Hws & HF).
      rewrite resolve_children_strings. cbn [mbind completion_bind]. rewrite Hws.
      by eexists.
  - destruct Hroot as [?|[Hn Hm]]; [done|].
    rewrite get_property_absent by done. by eexists.
Qed.

(** The card of a typed tree.  When the root element is present, the
    preview is a card with the title of its [props] and one rendering
    per listed child that the mapping holds, in the order of the listing;
    a child listed but not yet present is left out. *)
Theorem preview_card `{Host} (t : UITree) (r : jsstring) (fields p : list (jsstring * value))
    (keys : list jsstring) :
  is_UITree t ->
  root t = VStr r -> r <> [] ->
  own (elements t) !! r = Some (VObj fields) ->
  own_property fields (js "props") = Some (VObj p) ->
  own_property fields (js "children") = Some (VArr (map VStr keys)) ->
  exists ws,
    renderPreview (Some t)
    = Normal (Card (default VUndefined (own_property p (js "title"))) ws)
    /\ Forall2 (fun k w => render_child (get_property (elements t) k) = Normal w)
         (filter (fun k => truthy_resolved (get_property (elements t) k) = true) keys) ws.
Proof.
  intros (_ & Hp & Hel) Hr Hne He Hprops Hch. unfold renderPreview. rewrite Hr.
  destruct r as [|c r']; [done|].
  cbn [truthy truthy_string negb lookup_element to_string mbind completion_bind].
  unfold get_property at 1 2 3. rewrite He.
  cbn [truthy_resolved truthy negb resolved_field get_field mbind completion_bind].
  rewrite Hprops. cbn [default from_option id get_field mbind completion_bind].
  unfold preview_children. cbn [resolved_field get_field mbind completion_bind].
  rewrite Hch. cbn [default from_option id get_field mbind completion_bind].
  destruct (render_children_typed (elements t) keys Hp Hel) as (ws & Hws & HF).
  rewrite resolve_children_strings. cbn [mbind completion_bind]. rewrite Hws.
  by exists ws.
Qed.

Lemma partial_tree_typed : is_UITree partial_tree.
Proof.
  split; [by eexists|]. split; [done|]. intros k v Hk. cbn [partial_tree elements own] in Hk.
  apply lookup_insert_Some in Hk as [[_ <-]|[_ Hk]].
  - eexists. split; [reflexivity|]. split; [by eexists|]. split; [by eexists|].
    split; [by eexists|]. right. by exists [js "name"].
  - apply lookup_singleton_Some in Hk as [_ <-].
    eexists. split; [reflexivity|]. split; [by eexists|]. split; [by eexists|].
    split; [by eexists|]. by left.
Qed.

Lemma preview_total_on_typed_tree_witness :
  exists shown, @renderPreview example_host (Some partial_tree) = Normal shown.
Proof.
  apply (@preview_total_on_typed_tree example_host partial_tree (js "form")).
  - apply partial_tree_typed.
  - reflexivity.
  - left. by vm_compute.
Defined.

Lemma preview_card_witness :
  exists ws,
    @renderPreview example_host (Some partial_tree) = Normal (Card VUndefined ws)
    /\ Forall2 (fun k w => render_child (@get_property example_host (elements partial_tree) k)
                           = Normal w)
         [js "name"] ws.
Proof.
  apply (@preview_card example_host partial_tree (js "form")
           [(js "key", VStr (js "form")); (js "type", VStr (js "Form"));
            (js "props", VObj []); (js "children", VArr [VStr (js "name")])]
           [] [js "name"]).
  - apply partial_tree_typed.
  - reflexivity.
  - by vm_compute.
  - by vm_compute.
  - reflexivity.
  - reflexivity.
Defined.

(** ** A response that cannot be read *)

(** A response that is not ok, or has no body, ends the call at once: an
    error naming the status, or the missing body, goes to the console,
    the loading flag is cleared, and the tree and the line log stay as
    [handleSubmit] reset them. *)
Theorem failed_response_ends_call (c : nat) (st : Demo) (ok has_body : bool) (status : N) :
  calls st !! c = Some AwaitingResponse ->
  c ∉ aborted st ->
  ok && has_body = false ->
  exists st',
    resume c (Responded ok status has_body) st = Some st'
    /\ console st'
       = console st ++ [Error (if ok then js "No response body"
                               else js "HTTP error: " ++ decimal status)]
    /\ isLoading st' = false
    /\ calls st' !! c = Some Settled
    /\ tree st' = tree st /\ streamLines st' = streamLines st.
Proof.
  intros Hc Ha Hfail.
  set (err := Error (if ok then js "No response body"
                     else js "HTTP error: " ++ decimal status)).
  exists (settle c (@Throw unit err) st).
  destruct (settle_published c (@Throw unit err) st) as (Ht & Hl & Hi & _ & _ & Hcalls).
  split; [|split; [|repeat split; try done]].
  - unfold resume. rewrite Hc. simpl. rewrite (bool_decide_eq_false_2 _ Ha). simpl.
    subst err. destruct ok; simpl in *; [by subst has_body|done].
  - rewrite settle_console. subst err. by destruct ok.
  - rewrite Hcalls. apply list_lookup_insert_eq. by apply lookup_lt_Some in Hc.
Qed.

Lemma failed_response_ends_call_witness :
  exists st',
    resume 0 (Responded false 500 true) (state_after first_session) = Some st'
    /\ console st' = [Error (js "HTTP error: 500")]
    /\ isLoading st' = false
    /\ tree st' = Some empty_tree.
Proof.
  destruct (failed_response_ends_call 0 (state_after first_session) false true 500)
    as (st' & Hr & Hc & Hl & _ & Ht & _).
  - vm_compute. reflexivity.
  - vm_compute. set_solver.
  - reflexivity.
  - exists st'. split; [exact Hr|]. split; [rewrite Hc; vm_compute; reflexivity|].
    split; [exact Hl|]. rewrite Ht. vm_compute. reflexivity.
Defined.

(** ** An element without [props] *)

(** An element without [props] breaks the preview.  Nothing checks the
    shape of an element: when the root element is an object that has no
    [props], or whose [props] is [null], reading the title throws and the
    preview is not rendered. *)
Theorem preview_throws_without_props `{Host} (t : UITree) (r : jsstring)
    (fields : list (jsstring * value)) :
  root t = VStr r -> r <> [] ->
  own (elements t) !! r = Some (VObj fields) ->
  own_property fields (js "props") = None
  \/ own_property fields (js "props") = Some VNull ->
  renderPreview (Some t) = Throw TypeError.
Proof.
  intros Hr Hne He Hprops. unfold renderPreview. rewrite Hr.
  destruct r as [|c r']; [done|].
  cbn [truthy truthy_string negb lookup_element to_string mbind completion_bind].
  unfold get_property. rewrite He.
  cbn [truthy_resolved truthy negb resolved_field get_field mbind completion_bind].
  by destruct Hprops as [-> | ->].
Qed.

Lemma preview_throws_without_props_witness :
  exists t st,
    process_lines [set_root_line;
                   json "{'op':'add','path':'/elements/form','value':{'key':'form','type':'Form'}}"]
      empty_tree initial = (Normal t, st)
    /\ @renderPreview example_host (Some t) = Throw TypeError.
Proof.
  eexists _, _. split; [vm_compute; reflexivity|].
  apply (@preview_throws_without_props example_host _ (js "form")
           [(js "key", VStr (js "form")); (js "type", VStr (js "Form"))]).
  - reflexivity.
  - by vm_compute.
  - vm_compute. reflexivity.
  - left. vm_compute. reflexivity.
Defined.

(** ** From the input field to the generator *)

Lemma hex_value_digit d : d < 16 -> hex_value (hex_digit d) = Some d.
Proof.
  intros H.
  assert (d = 0 \/ d = 1 \/ d = 2 \/ d = 3 \/ d = 4 \/ d = 5 \/ d = 6 \/ d = 7 \/ d = 8
          \/ d = 9 \/ d = 10 \/ d = 11 \/ d = 12 \/ d = 13 \/ d = 14 \/ d = 15) as Hd by lia.
  repeat destruct Hd as [->|Hd]; try subst d; by vm_compute.
Qed.

Lemma hex4_UnicodeEscape c :
  c < 65536 ->
  hex4 (hex_digit (c / 4096 mod 16)) (hex_digit (c / 256 mod 16))
       (hex_digit (c / 16 mod 16)) (hex_digit (c mod 16)) = Some c.
Proof.
  intros Hc. unfold hex4.
  rewrite !hex_value_digit by (apply N.mod_lt; lia). simpl. f_equal.
  pose proof (N.div_mod c 16 ltac:(lia)) as H0.
  pose proof (N.div_mod (c / 16) 16 ltac:(lia)) as H1.
  pose proof (N.div_mod (c / 16 / 16) 16 ltac:(lia)) as H2.
  rewrite !N.Div0.div_div in H1, H2. change (16 * 16) with 256 in *.
  rewrite !N.Div0.div_div in H2. change (256 * 16) with 4096 in *.
  assert (c / 4096 < 16) as H3 by (apply N.Div0.div_lt_upper_bound; lia).
  rewrite (N.mod_small (c / 4096) 16) by done. lia.
Qed.

(** Reading back one quoted code unit. *)
Lemma parse_quote_unit c tail acc :
  parse_string_body (quote_unit c ++ tail) acc = parse_string_body tail (c :: acc).
Proof.
  unfold quote_unit, json_escape.
  destruct (N.eqb_spec c 8) as [->|H8]; [done|].
  destruct (N.eqb_spec c 9) as [->|H9]; [done|].
  destruct (N.eqb_spec c 10) as [->|H10]; [done|].
  destruct (N.eqb_spec c 12) as [->|H12]; [done|].
  destruct (N.eqb_spec c 13) as [->|H13]; [done|].
  destruct (N.eqb_spec c 34) as [->|H34]; [done|].
  destruct (N.eqb_spec c 92) as [->|H92]; [done|].
  destruct (_ || _) eqn:Hesc.
  - assert (c < 65536) as Hc.
    { unfold is_leading_surrogate, is_trailing_surrogate in Hesc.
      apply orb_true_iff in Hesc as [Hesc|Hesc]; [apply orb_true_iff in Hesc as [Hesc|Hesc]|].
      - apply N.ltb_lt in Hesc. lia.
      - apply andb_true_iff in Hesc as [_ Hesc]. apply N.leb_le in Hesc. lia.
      - apply andb_true_iff in Hesc as [_ Hesc]. apply N.leb_le in Hesc. lia. }
    unfold UnicodeEscape. cbn [app parse_string_body].
    change (92 =? 34) with false. change (92 =? 92) with true.
    change (ch "u" =? ch "u") with true. cbv iota.
    by rewrite (hex4_UnicodeEscape c Hc).
  - apply orb_false_iff in Hesc as [Hesc _]. apply orb_false_iff in Hesc as [Hesc _].
    cbn [app parse_string_body].
    rewrite (proj2 (N.eqb_neq c 34) H34), (proj2 (N.eqb_neq c 92) H92), Hesc. done.
Qed.

Lemma surrogate_raw c :
  is_leading_surrogate c = true \/ is_trailing_surrogate c = true ->
  (c =? 34) = false /\ (c =? 92) = false /\ (c <? 32) = false.
Proof.
  unfold is_leading_surrogate, is_trailing_surrogate.
  intros [H|H]; apply andb_true_iff in H as [H _]; apply N.leb_le in H;
    (split; [apply N.eqb_neq; lia|split; [apply N.eqb_neq; lia|apply N.ltb_ge; lia]]).
Qed.

Lemma quote_units_pair c d r :
  quote_units (c :: d :: r) =
    if is_leading_surrogate c && is_trailing_surrogate d
    then c :: d :: quote_units r
    else quote_unit c ++ quote_units (d :: r).
Proof. done. Qed.

(** Reading back a quoted string. *)
Lemma parse_quote_units s rest acc :
  parse_string_body (quote_units s ++ 34 :: rest) acc = Some (rev acc ++ s, rest).
Proof.
  enough ((forall acc, parse_string_body (quote_units s ++ 34 :: rest) acc
                       = Some (rev acc ++ s, rest))
          /\ forall c acc, parse_string_body (quote_units (c :: s) ++ 34 :: rest) acc
                           = Some (rev acc ++ c :: s, rest)) as [H _] by apply H.
  induction s as [|d s [IH1 IH2]].
  - split.
    + intros acc'. cbn [quote_units app parse_string_body].
      change (34 =? 34) with true. cbv iota. by rewrite app_nil_r.
    + intros c acc'. cbn [quote_units]. rewrite parse_quote_unit.
      cbn [parse_string_body]. change (34 =? 34) with true. cbv iota.
      done.
  - split; [apply IH2|]. intros c acc'. rewrite quote_units_pair.
    destruct (is_leading_surrogate c && is_trailing_surrogate d) eqn:Hpair.
    + apply andb_true_iff in Hpair as [Hc Hd].
      destruct (surrogate_raw c (or_introl Hc)) as (C1 & C2 & C3).
      destruct (surrogate_raw d (or_intror Hd)) as (D1 & D2 & D3).
      cbn [app parse_string_body]. rewrite C1, C2, C3, D1, D2, D3.
      rewrite IH1. cbn [rev]. by rewrite <- !app_assoc.
    + rewrite <- app_assoc, parse_quote_unit. rewrite IH2. cbn [rev]. by rewrite <- app_assoc.
Qed.

Lemma parse_value_quoted fuel s rest :
  parse_value (S fuel) (QuoteJSONString s ++ rest) = Parsed (VStr s) rest.
Proof.
  unfold QuoteJSONString. cbn [app parse_value skip_whitespace].
  change (is_json_whitespace 34) with false. cbv iota.
  change (34 =? ch "{") with false. change (34 =? ch "[") with false.
  change (34 =? 34) with true. cbv iota.
  rewrite <- app_assoc. change ([34] ++ rest) with (34 :: rest).
  by rewrite parse_quote_units.
Qed.

(** An object of one member whose value is a quoted string. *)
Lemma parse_members_single fuel k s rest :
  parse_members (S (S fuel))
    (QuoteJSONString k ++ ch ":" :: QuoteJSONString s ++ ch "}" :: rest) []
  = Parsed (VObj [(k, VStr s)]) rest.
Proof.
  remember (S fuel) as f1 eqn:Ef1. unfold QuoteJSONString at 1.
  cbn [app]. rewrite <- app_assoc. cbn [app parse_members skip_whitespace].
  change (is_json_whitespace 34) with false. cbv iota.
  change (34 =? 34) with true. cbv iota.
  rewrite parse_quote_units. cbn [rev app skip_whitespace].
  change (is_json_whitespace (ch ":")) with false. cbv iota.
  change (ch ":" =? ch ":") with true. cbv iota.
  subst f1. rewrite parse_value_quoted. cbn [skip_whitespace].
  change (is_json_whitespace (ch "}")) with false. cbv iota.
  change (ch "}" =? ch ",") with false. change (ch "}" =? ch "}") with true. cbv iota.
  done.
Qed.

(** The parse of the request body is the object it was made from. *)
Lemma JSON_parse_request_body userPrompt :
  JSON_parse (request_body userPrompt) = Normal (VObj [(js "prompt", VStr userPrompt)]).
Proof.
  unfold JSON_parse.
  assert (exists n, parse_fuel (request_body userPrompt) = S (S (S n))) as [n ->].
  { unfold parse_fuel, request_body. cbn [length]. exists (2 * length
      (QuoteJSONString (js "prompt") ++ ch ":" :: QuoteJSONString userPrompt ++ [ch "}"]) + 1)%nat.
    lia. }
  unfold request_body. remember (S (S n)) as f2 eqn:Ef2.
  cbn [parse_value skip_whitespace].
  change (is_json_whitespace (ch "{")) with false. cbv iota.
  change (ch "{" =? ch "{") with true. cbv iota.
  unfold QuoteJSONString at 1. cbn [app skip_whitespace].
  change (is_json_whitespace 34) with false. cbv iota.
  change (34 =? ch "}") with false. cbv iota.
  change (34 :: (quote_units (js "prompt") ++ [34]) ++ ch ":" :: QuoteJSONString userPrompt ++ [ch "}"])
    with (QuoteJSONString (js "prompt") ++ ch ":" :: QuoteJSONString userPrompt ++ ch "}" :: []).
  subst f2. by rewrite parse_members_single.
Qed.

Lemma isWellFormed_plain s t : plain s -> isWellFormed (s ++ t) = isWellFormed t.
Proof.
  induction 1 as [|c s [Hl Ht] _ IH]; [done|].
  cbn [app isWellFormed]. by rewrite Hl, Ht, IH.
Qed.

Lemma below_surrogates c :
  c < 55296 -> is_leading_surrogate c = false /\ is_trailing_surrogate c = false.
Proof.
  intros H. unfold is_leading_surrogate, is_trailing_surrogate.
  split; apply andb_false_iff; left; apply N.leb_gt; lia.
Qed.

Lemma hex_digit_plain d :
  d < 16 -> hex_digit d < 55296.
Proof.
  intros H. unfold hex_digit. destruct (N.ltb_spec d 10).
  - change (ch "0") with 48. lia.
  - change (ch "a") with 97. lia.
Qed.

Lemma quote_unit_plain c : plain (quote_unit c).
Proof.
  unfold quote_unit, json_escape.
  do 7 (destruct (c =? _); [by repeat constructor|]).
  destruct (_ || _) eqn:Hesc.
  - unfold UnicodeEscape.
    repeat (constructor;
            [apply below_surrogates;
             first [by vm_compute | apply hex_digit_plain; apply N.mod_lt; lia]|]).
    constructor.
  - apply orb_false_iff in Hesc as [[_ Hl]%orb_false_iff Ht]. by repeat constructor.
Qed.

Lemma quote_units_well_formed s t :
  isWellFormed (quote_units s ++ t) = isWellFormed t.
Proof.
  enough ((isWellFormed (quote_units s ++ t) = isWellFormed t)
          /\ forall c, isWellFormed (quote_units (c :: s) ++ t) = isWellFormed t)
    as [H _] by done.
  induction s as [|d s [IH1 IH2]].
  - split; [done|]. intros c. cbn [quote_units]. apply isWellFormed_plain, quote_unit_plain.
  - split; [apply IH2|]. intros c. rewrite quote_units_pair.
    destruct (is_leading_surrogate c && is_trailing_surrogate d) eqn:Hpair.
    + apply andb_true_iff in Hpair as [Hc Hd].
      cbn [app isWellFormed]. by rewrite Hc, Hd, IH1.
    + rewrite <- app_assoc, isWellFormed_plain by apply quote_unit_plain. apply IH2.
Qed.

Lemma isWellFormed_cons c t : c < 55296 -> isWellFormed (c :: t) = isWellFormed t.
Proof.
  intros H. destruct (below_surrogates c H) as [Hl Ht].
  cbn [isWellFormed]. by rewrite Hl, Ht.
Qed.

(** The request body has no lone surrogate. *)
Lemma request_body_well_formed userPrompt : isWellFormed (request_body userPrompt) = true.
Proof.
  unfold request_body, QuoteJSONString. cbn [app].
  rewrite !isWellFormed_cons by (by vm_compute).
  rewrite <- app_assoc, quote_units_well_formed. cbn [app].
  rewrite !isWellFormed_cons by (by vm_compute).
  rewrite <- app_assoc, quote_units_well_formed. cbn [app].
  by rewrite !isWellFormed_cons by (by vm_compute).
Qed.

(** From the input field to the generator.  The body [handleSubmit]
    sends is well-formed text, so that its encoding on the wire loses
    nothing; the prompt the route handler passes to the generator for it
    is the first 140 code units of the user's prompt, whatever characters
    it holds (quotes, backslashes, control characters, lone surrogates);
    and a prompt of at most 140 code units arrives unchanged. *)
Theorem prompt_reaches_generator `{Host} (userPrompt : jsstring) :
  isWellFormed (request_body userPrompt) = true
  /\ POST (request_body userPrompt) = Normal (take 140 userPrompt)
  /\ ((length userPrompt <= 140)%nat -> POST (request_body userPrompt) = Normal userPrompt).
Proof.
  assert (POST (request_body userPrompt) = Normal (take 140 userPrompt)) as HP.
  { unfold POST. rewrite JSON_parse_request_body.
    cbn [mbind completion_bind get_field own_property].
    rewrite bool_decide_eq_true_2 by done. cbn [default from_option id truthy].
    by destruct userPrompt. }
  split; [apply request_body_well_formed|]. split; [done|].
  intros Hlen. by rewrite HP, take_ge.
Qed.

(** ** The scripted playback *)

Lemma scripted_mounted : scripted mounted.
Proof.
  unfold scripted. simpl. repeat split; try done; try apply not_elem_of_nil. lia.
Qed.

Lemma not_elem_of_delete {A} (x : A) n (l : list A) : x ∉ l -> x ∉ delete n l.
Proof.
  intros H Hin. apply H. eapply elem_of_submseteq; [exact Hin|].
  apply sublist_submseteq, sublist_delete.
Qed.

Lemma process_line_mode line t st : mode (process_line line t st).2 = mode st.
Proof. unfold process_line. by repeat case_match. Qed.

Lemma process_lines_mode lines t st : mode (process_lines lines t st).2 = mode st.
Proof.
  revert t st. induction lines as [|line rest IH]; intros t st; simpl; [done|].
  pose proof (process_line_mode line t st) as H.
  destruct (process_line line t st) as [[t1|e] st1]; simpl in *; [|done].
  by rewrite IH.
Qed.

Lemma resume_no_calls c ev d : calls d = [] -> resume c ev d = None.
Proof. intros H. unfold resume. by rewrite H. Qed.

Lemma settle_mode {A} c (o : completion A) st : mode (settle c o st) = mode st.
Proof. unfold settle. destruct o as [|err]; [done|]. by destruct (negb _). Qed.

Lemma resume_mode c ev st st' : resume c ev st = Some st' -> mode st' = mode st.
Proof.
  unfold resume. destruct (calls st !! c) as [act|]; simpl; [|done].
  destruct (_ && _); [done|].
  destruct act as [|buffer t|], ev as [ok status has_body|text| |err]; try done;
    try (intros [= <-]; by rewrite settle_mode).
  - destruct (negb ok); [intros [= <-]; by rewrite settle_mode|].
    destruct (negb has_body); intros [= <-]; [by rewrite settle_mode|done].
  - destruct (frame_chunk buffer text) as [lines b'].
    pose proof (process_lines_mode lines t st) as E.
    destruct (process_lines lines t st) as [[t1|e1] s1]; intros [= <-];
      rewrite ?settle_mode; simpl in *; congruence.
  - pose proof (process_lines_mode (end_of_stream buffer) t st) as E.
    destruct (process_lines _ t st) as [o s1]. intros [= <-]. by rewrite settle_mode.
Qed.

(** No handler leaves interactive mode. *)
Lemma step_interactive a d d' :
  mode d = interactive -> step a d = Some d' -> mode d' = interactive.
Proof.
  intros Hm. destruct a as [s| | |c ev]; simpl.
  - by intros [= <-].
  - intros [= <-]. unfold handleSubmit. by destruct (_ || _).
  - intros [= <-]. unfold stopGeneration. simpl. by rewrite Hm.
  - intros H%resume_mode. congruence.
Qed.

Lemma commit_mode before p : mode (demo (commit before p)) = mode (demo p).
Proof. unfold commit. by destruct (same_dependencies _ _). Qed.

Lemma page_step_interactive e p p' :
  mode (demo p) = interactive -> page_step e p = Some p' ->
  mode (demo p') = interactive.
Proof.
  intros Hm. unfold page_step. destruct (takes e p); [|done].
  destruct e as [a| | |n| |tab]; simpl.
  - destruct (step a (demo p)) as [d|] eqn:Hstep; simpl; [|done].
    intros [= <-]. rewrite commit_mode. by eapply step_interactive.
  - destruct (typing_interval p) as [i|]; simpl; [|done]. intros [= <-].
    rewrite commit_mode. unfold typing_tick. by destruct (_ <? _)%nat.
  - destruct (streaming_interval p) as [i|]; simpl; [|done]. intros [= <-].
    rewrite commit_mode. unfold streaming_tick.
    destruct (_ <? _)%nat; [|done]. by destruct (SIMULATION_STAGES !! i).
  - destruct (timeouts p !! n) as [cb|]; simpl; [|done]. intros [= <-].
    rewrite commit_mode. by destruct cb.
  - intros [= <-]. by rewrite commit_mode.
  - intros [= <-]. by rewrite commit_mode.
Qed.

Lemma not_elem_of_snoc {A} (x y : A) (l : list A) : x <> y -> x ∉ l -> x ∉ l ++ [y].
Proof. intros Hne Hx [?|?%list_elem_of_singleton]%elem_of_app; done. Qed.

Lemma scripted_step e p p' :
  scripted p -> page_step e p = Some p' -> scripted p'.
Proof.
  intros Hinv Hstep. destruct (mode (demo p)) eqn:Hmode.
  2:{ unfold scripted. by rewrite (page_step_interactive _ _ _ Hmode Hstep). }
  revert Hstep. unfold page_step. destruct (takes e p) eqn:Htakes; [|done].
  unfold scripted in Hinv. rewrite Hmode in Hinv.
  destruct Hinv as [(Hl & Hc & Ha & Hab & Hu & Hco) Hphase].
  destruct p as [[m ph tp up sl tr il ar ab cl co] si atab af ti sti ts].
  page_cbn. subst m il cl ar ab up co.
  destruct e as [a| | |n| |tab]; page_cbn.
  - (* a control or the transport *)
    destruct a as [s| | |c ev]; page_cbn; try done.
    intros [= <-]. unfold scripted, stopGeneration. by page_cbn.
  - (* the typing interval *)
    destruct ti as [i|]; page_cbn; [|done]. intros [= <-].
    destruct ph; [|destruct Hphase as [? _]; done|done].
    destruct Hphase as (-> & -> & -> & -> & H5 & Hi & -> & Hns).
    unfold typing_tick. destruct (Nat.ltb_spec i (length SIMULATION_PROMPT)) as [Hlt|Hge].
    + unfold scripted, idle. page_cbn. repeat split; try done; try lia.
      unfold slice_to. f_equal. lia.
    + unfold scripted, idle. page_cbn.
      repeat split; try done; try (by apply not_elem_of_snoc). apply take_ge. lia.
  - (* the streaming interval *)
    destruct sti as [i|]; page_cbn; [|done]. intros [= <-].
    destruct ph; [destruct Hphase as (_ & _ & _ & ? & _); done| |done].
    destruct Hphase as (-> & -> & Hi & -> & -> & -> & Hnf).
    unfold streaming_tick.
    destruct (Nat.ltb_spec i (length SIMULATION_STAGES)) as [Hlt|Hge].
    + destruct (SIMULATION_STAGES !! i) as [stage|] eqn:Hst.
      2:{ apply lookup_ge_None in Hst. lia. }
      unfold scripted, idle. page_cbn. repeat split; try done; try lia;
        try (by rewrite Hst).
      by rewrite (take_S_r _ _ _ Hst), map_app.
    + assert (i = 5%nat) as -> by (simpl in *; lia).
      unfold scripted, idle. page_cbn. repeat split; done.
  - (* a timeout *)
    destruct (ts !! n) as [cb|] eqn:Hn; page_cbn; [|done]. intros [= <-].
    destruct cb.
    + (* setPhase("streaming") *)
      destruct ph; [| |done].
      * destruct Hphase as (-> & -> & -> & -> & H5 & H6).
        destruct ti as [i|].
        { destruct H6 as (_ & _ & Hns). destruct Hns. by eapply list_elem_of_lookup_2. }
        subst tp. unfold scripted, idle. page_cbn.
        repeat split; try done; try lia. by apply not_elem_of_delete.
      * destruct Hphase as (-> & -> & H3).
        unfold scripted, idle. page_cbn. repeat split; try done.
        destruct sti; [|done].
        destruct H3 as (? & ? & ? & ? & ?). repeat split; try done.
        by apply not_elem_of_delete.
    + (* the end of the playback *)
      unfold scripted. page_cbn. by destruct ph.
    + (* setActionFired(false) *)
      unfold scripted, idle. page_cbn. destruct ph; [| |done]; page_cbn.
      * destruct Hphase as (H1 & H2 & H3 & H4 & H5 & H6). repeat split; try done.
        -- by apply not_elem_of_delete.
        -- destruct ti; [|done]. destruct H6 as (? & ? & ?).
           repeat split; try done. by apply not_elem_of_delete.
      * destruct Hphase as (H1 & H2 & H3). repeat split; try done.
        destruct sti; [|done]. destruct H3 as (? & ? & ? & ? & ?).
        repeat split; try done. by apply not_elem_of_delete.
  - (* the button of the preview *)
    intros [= <-]. unfold scripted, idle. page_cbn. destruct ph; [| |done]; page_cbn.
    * destruct Hphase as (H1 & H2 & H3 & H4 & H5 & H6). repeat split; try done.
      -- by apply not_elem_of_snoc.
      -- destruct ti; [|done]. destruct H6 as (? & ? & ?).
         repeat split; try done. by apply not_elem_of_snoc.
    * destruct Hphase as (H1 & H2 & H3). repeat split; try done.
      destruct sti; [|done]. destruct H3 as (? & ? & ? & ? & ?).
      repeat split; try done. by apply not_elem_of_snoc.
  - (* a tab *)
    intros [= <-]. unfold scripted, idle. page_cbn. by destruct ph.
Qed.

Lemma scripted_run events p p' :
  scripted p -> page_run events p = Some p' -> scripted p'.
Proof.
  revert p. induction events as [|e rest IH]; intros p Hp; simpl.
  - by intros [= <-].
  - destruct (page_step e p) as [p1|] eqn:E; simpl; [|done].
    apply IH. by eapply scripted_step.
Qed.

Lemma reachable_scripted p : page_reachable p -> scripted p.
Proof. intros [events H]. by eapply scripted_run; [apply scripted_mounted|]. Qed.

Lemma scripted_currentTree p : scripted p -> currentTree p = tree (demo p).
Proof.
  unfold scripted, currentTree, currentSimulationStage.
  destruct (mode (demo p)); [|done]. intros [_ H].
  destruct (phase (demo p)); [| |done].
  - destruct H as (-> & -> & _). done.
  - destruct H as (_ & _ & H). destruct (streaming_interval p) as [i|].
    + destruct H as (_ & -> & -> & _). destruct i as [|j]; [done|].
      replace (Z.of_nat (S j) - 1)%Z with (Z.of_nat j) by lia.
      destruct (Z.leb_spec 0 (Z.of_nat j)); [|lia]. by rewrite Nat2Z.id.
    + destruct H as (-> & -> & _). done.
Qed.

(** What is displayed is the [tree] state.  In every reachable state of
    the page, the tree that the preview and the JSON tab show is the
    [tree] state, also while the playback shows its stages; so leaving the
    playback, by Stop or at its end, changes nothing on display. *)
Theorem displayed_tree_is_tree_state (p : Page) :
  page_reachable p -> currentTree p = tree (demo p).
Proof. intros H. by apply scripted_currentTree, reachable_scripted. Qed.

Lemma displayed_tree_is_tree_state_witness :
  currentTree (page_after (replicate 52 TypingTick ++ [TimeoutFires 0; StreamingTick]))
  = tree (demo (page_after (replicate 52 TypingTick ++ [TimeoutFires 0; StreamingTick]))).
Proof.
  apply (displayed_tree_is_tree_state
           (page_after (replicate 52 TypingTick ++ [TimeoutFires 0; StreamingTick]))).
  exists (replicate 52 TypingTick ++ [TimeoutFires 0; StreamingTick]).
  vm_compute. reflexivity.
Defined.

(** No request during the playback.  While the page is in simulation
    mode no request has been started: nothing is loading, no controller
    exists, the prompt is empty and the console is clean. *)
Theorem no_request_during_playback (p : Page) :
  page_reachable p -> mode (demo p) = simulation -> idle (demo p).
Proof.
  intros H%reachable_scripted Hm. unfold scripted in H. rewrite Hm in H. by destruct H.
Qed.

Lemma no_request_during_playback_witness :
  idle (demo (page_after (replicate 3 TypingTick ++ [ClickAction; SelectTab tab_stream]))).
Proof.
  apply (no_request_during_playback
           (page_after (replicate 3 TypingTick ++ [ClickAction; SelectTab tab_stream]))).
  - exists (replicate 3 TypingTick ++ [ClickAction; SelectTab tab_stream]).
    vm_compute. reflexivity.
  - vm_compute. reflexivity.
Defined.

(** The playback runs once: nothing takes the page from interactive mode
    back to simulation mode. *)
Theorem playback_runs_once (events : list event) (p p' : Page) :
  mode (demo p) = interactive -> page_run events p = Some p' ->
  mode (demo p') = interactive.
Proof.
  revert p. induction events as [|e rest IH]; intros p Hm; simpl.
  - by intros [= <-].
  - destruct (page_step e p) as [p1|] eqn:E; simpl; [|done].
    apply IH. by eapply page_step_interactive.
Qed.

Lemma playback_runs_once_witness :
  mode (demo (page_after [TypingTick; Handle Stop; Handle (TypePrompt login_prompt);
                          Handle Submit])) = interactive.
Proof.
  apply (playback_runs_once [Handle (TypePrompt login_prompt); Handle Submit]
           (page_after [TypingTick; Handle Stop])).
  - vm_compute. reflexivity.
  - vm_compute. reflexivity.
Defined.

(** ** Leaving the playback *)

(** Stop during the playback.  In simulation mode the Stop button is
    shown, and pressing it switches to interactive mode with the whole
    scripted prompt typed and the input empty, clears both intervals, and
    keeps what the playback has shown so far: the tree on display and the
    line log are unchanged.  Pending timeouts stay pending. *)
Theorem stop_skips_playback (p : Page) :
  page_reachable p -> mode (demo p) = simulation ->
  exists p',
    page_step (Handle Stop) p = Some p'
    /\ mode (demo p') = interactive /\ phase (demo p') = complete
    /\ typedPrompt (demo p') = SIMULATION_PROMPT /\ userPrompt (demo p') = []
    /\ isLoading (demo p') = false
    /\ typing_interval p' = None /\ streaming_interval p' = None
    /\ timeouts p' = timeouts p
    /\ currentTree p' = currentTree p
    /\ streamLines (demo p') = streamLines (demo p).
Proof.
  intros Hr Hm. pose proof (reachable_scripted _ Hr) as Hs.
  rewrite (scripted_currentTree _ Hs).
  unfold scripted in Hs. rewrite Hm in Hs. destruct Hs as [_ Hph].
  unfold currentTree, page_step.
  destruct p as [[m ph tp up sl tr il ar ab cl co] si atab af ti sti ts].
  page_cbn. subst m. unfold stopGeneration. page_cbn.
  destruct ph; [| |done]; page_cbn; eexists; (split; [reflexivity|]); by page_cbn.
Qed.

Lemma stop_skips_playback_witness :
  exists p',
    page_step (Handle Stop)
      (page_after (replicate 52 TypingTick ++ [TimeoutFires 0; StreamingTick; StreamingTick]))
    = Some p'
    /\ mode (demo p') = interactive
    /\ currentTree p' = stage_tree <$> SIMULATION_STAGES !! 1%nat
    /\ length (streamLines (demo p')) = 2%nat.
Proof.
  destruct (stop_skips_playback
              (page_after (replicate 52 TypingTick
                           ++ [TimeoutFires 0; StreamingTick; StreamingTick])))
    as (p' & Hstep & Hmode & _ & _ & _ & _ & _ & _ & _ & Htree & Hlines).
  - exists (replicate 52 TypingTick ++ [TimeoutFires 0; StreamingTick; StreamingTick]).
    vm_compute. reflexivity.
  - vm_compute. reflexivity.
  - exists p'. split; [exact Hstep|]. split; [exact Hmode|].
    split; [rewrite Htree; vm_compute; reflexivity|]. rewrite Hlines. vm_compute. reflexivity.
Defined.

(** The end of the playback.  When the closing timeout fires in
    simulation mode, every stage has been shown: the page becomes
    interactive with an empty input, the line log holds the five scripted
    lines, and the tree on display stays the tree of the last stage. *)
Theorem playback_ends_complete (p : Page) (n : nat) :
  page_reachable p -> mode (demo p) = simulation ->
  timeouts p !! n = Some FinishPlayback ->
  exists p',
    page_step (TimeoutFires n) p = Some p'
    /\ mode (demo p') = interactive /\ phase (demo p') = complete
    /\ typedPrompt (demo p') = SIMULATION_PROMPT /\ userPrompt (demo p') = []
    /\ streamLines (demo p') = map stage_stream SIMULATION_STAGES
    /\ currentTree p' = stage_tree <$> SIMULATION_STAGES !! 4%nat
    /\ currentTree p' = currentTree p.
Proof.
  intros Hr Hm Hn. pose proof (reachable_scripted _ Hr) as Hs.
  rewrite (scripted_currentTree _ Hs).
  unfold scripted in Hs. rewrite Hm in Hs. destruct Hs as [_ Hph].
  apply list_elem_of_lookup_2 in Hn as Hin.
  unfold currentTree, page_step.
  destruct p as [[m ph tp up sl tr il ar ab cl co] si atab af ti sti ts].
  page_cbn. subst m. rewrite Hn. page_cbn.
  destruct ph; [by destruct Hph as (_ & _ & _ & _ & ? & _)| |done].
  destruct Hph as (-> & -> & H). destruct sti as [i|].
  { by destruct H as (_ & _ & _ & _ & ?). }
  destruct H as (-> & -> & ->). page_cbn. eexists. split; [reflexivity|]. by page_cbn.
Qed.

Lemma playback_ends_complete_witness :
  exists p',
    page_step (TimeoutFires 0) (page_after playback) = Some p'
    /\ mode (demo p') = interactive
    /\ length (streamLines (demo p')) = 5%nat.
Proof.
  destruct (playback_ends_complete (page_after playback) 0)
    as (p' & Hstep & Hmode & _ & _ & _ & Hlines & _).
  - exists playback. vm_compute. reflexivity.
  - vm_compute. reflexivity.
  - vm_compute. reflexivity.
  - exists p'. split; [exact Hstep|]. split; [exact Hmode|]. by rewrite Hlines.
Defined.

(** A timeout outlives Stop: when Stop is pressed after the last stage
    and a prompt is typed, the closing timeout still fires and empties
    the input. *)
Lemma pending_timeout_clears_prompt :
  userPrompt (demo (page_after (playback ++ [Handle Stop;
                                             Handle (TypePrompt login_prompt)])))
    = login_prompt
  /\ userPrompt (demo (page_after (playback ++ [Handle Stop;
                                                Handle (TypePrompt login_prompt);
                                                TimeoutFires 0])))
     = [].
Proof. split; vm_compute; reflexivity. Qed.

(** ** The prompt from the input field *)

Lemma process_line_userPrompt line t st :
  userPrompt (process_line line t st).2 = userPrompt st.
Proof. unfold process_line. by repeat case_match. Qed.

Lemma process_lines_userPrompt lines t st :
  userPrompt (process_lines lines t st).2 = userPrompt st.
Proof.
  revert t st. induction lines as [|line rest IH]; intros t st; simpl; [done|].
  pose proof (process_line_userPrompt line t st) as H.
  destruct (process_line line t st) as [[t1|e] st1]; simpl in *; [|done].
  by rewrite IH.
Qed.

Lemma settle_userPrompt {A} c (o : completion A) st :
  userPrompt (settle c o st) = userPrompt st.
Proof. unfold settle. destruct o as [|err]; [done|]. by destruct (negb _). Qed.

Lemma resume_userPrompt c ev st st' :
  resume c ev st = Some st' -> userPrompt st' = userPrompt st.
Proof.
  unfold resume. destruct (calls st !! c) as [act|]; simpl; [|done].
  destruct (_ && _); [done|].
  destruct act as [|buffer t|], ev as [ok status has_body|text| |err]; try done;
    try (intros [= <-]; by rewrite settle_userPrompt).
  - destruct (negb ok); [intros [= <-]; by rewrite settle_userPrompt|].
    destruct (negb has_body); intros [= <-]; [by rewrite settle_userPrompt|done].
  - destruct (frame_chunk buffer text) as [lines b'].
    pose proof (process_lines_userPrompt lines t st) as E.
    destruct (process_lines lines t st) as [[t1|e1] s1]; intros [= <-];
      rewrite ?settle_userPrompt; simpl in *; congruence.
  - pose proof (process_lines_userPrompt (end_of_stream buffer) t st) as E.
    destruct (process_lines _ t st) as [o s1]. intros [= <-]. by rewrite settle_userPrompt.
Qed.

Lemma commit_demo before p : demo (commit before p) = demo p.
Proof. unfold commit. by destruct (same_dependencies _ _). Qed.

(** The input field bounds the prompt. *)
Lemma page_step_prompt e p p' :
  (length (userPrompt (demo p)) <= maxLength)%nat ->
  page_step e p = Some p' ->
  (length (userPrompt (demo p')) <= maxLength)%nat.
Proof.
  intros Hlen. unfold page_step. destruct (takes e p) eqn:Htakes; [|done].
  destruct e as [a| | |n| |tab]; simpl.
  - destruct (step a (demo p)) as [d|] eqn:Hstep; simpl; [|done].
    intros [= <-]. rewrite commit_demo. simpl.
    destruct a as [s| | |c ev]; simpl in Hstep.
    + injection Hstep as <-. simpl in *.
      apply andb_true_iff in Htakes as [_ Hs]. by apply bool_decide_eq_true in Hs.
    + injection Hstep as <-. unfold handleSubmit. by destruct (_ || _).
    + injection Hstep as <-. unfold stopGeneration. simpl.
      destruct (mode (demo p)); simpl; [lia|done].
    + by rewrite (resume_userPrompt _ _ _ _ Hstep).
  - destruct (typing_interval p) as [i|]; simpl; [|done]. intros [= <-].
    rewrite commit_demo. unfold typing_tick. by destruct (_ <? _)%nat.
  - destruct (streaming_interval p) as [i|]; simpl; [|done]. intros [= <-].
    rewrite commit_demo. unfold streaming_tick.
    destruct (_ <? _)%nat; [|done]. by destruct (SIMULATION_STAGES !! i).
  - destruct (timeouts p !! n) as [cb|]; simpl; [|done]. intros [= <-].
    rewrite commit_demo. destruct cb; simpl; [done|lia|done].
  - intros [= <-]. by rewrite commit_demo.
  - intros [= <-]. by rewrite commit_demo.
Qed.

Lemma reachable_prompt p :
  page_reachable p -> (length (userPrompt (demo p)) <= maxLength)%nat.
Proof.
  intros [events H]. revert H.
  assert (length (userPrompt (demo mounted)) <= maxLength)%nat as Hm by (simpl; lia).
  revert Hm. generalize mounted. induction events as [|e rest IH]; intros q Hq; simpl.
  - by intros [= <-].
  - destruct (page_step e q) as [q1|] eqn:E; simpl; [|done].
    apply IH. by eapply page_step_prompt.
Qed.

(** The generator receives what the user typed.  In every reachable
    state of the page the prompt in the input field has at most 140 code
    units, and the route handler hands the generator exactly that prompt
    for the request [handleSubmit] sends: the bound of the field and the
    cut of the handler agree, so nothing is ever cut. *)
Theorem prompt_never_truncated `{Host} (p : Page) :
  page_reachable p ->
  (length (userPrompt (demo p)) <= MAX_PROMPT_LENGTH)%nat
  /\ POST (request_body (userPrompt (demo p))) = Normal (userPrompt (demo p)).
Proof.
  intros Hr. pose proof (reachable_prompt _ Hr) as Hlen. split; [done|].
  unfold POST. rewrite JSON_parse_request_body.
  cbn [mbind completion_bind get_field own_property].
  rewrite bool_decide_eq_true_2 by done. cbn [default from_option id truthy].
  unfold slice_to. destruct (userPrompt (demo p)) as [|c r] eqn:E; [done|].
  cbn [truthy_string to_string mbind completion_bind]. by rewrite take_ge.
Qed.

Lemma prompt_never_truncated_witness :
  @POST example_host
    (request_body (userPrompt (demo (page_after [Handle Stop;
                                                 Handle (TypePrompt login_prompt)]))))
  = Normal login_prompt.
Proof.
  apply (@prompt_never_truncated example_host
           (page_after [Handle Stop; Handle (TypePrompt login_prompt)])).
  exists [Handle Stop; Handle (TypePrompt login_prompt)]. vm_compute. reflexivity.
Defined.

(** ** The last line of a stream *)

Lemma parsePatch_blank line : trim line = [] -> parsePatch line = Normal VNull.
Proof. intros H. by rewrite parsePatch_unfold, H. Qed.

(** The flush at the end of the stream is the loop body on the pending
    buffer: the test [buffer.trim()] only spares a line the parser would
    skip. *)
Lemma end_of_stream_as_line buffer t st :
  process_lines (end_of_stream buffer) t st = process_lines [buffer] t st.
Proof.
  unfold end_of_stream. destruct (trim buffer) as [|c r] eqn:E; [|done].
  simpl. by rewrite (process_line_skipped buffer VNull) by (by try apply parsePatch_blank).
Qed.

(** The newline after the last line is optional.  A stream and the same
    stream followed by one more newline are processed alike: the same
    lines reach the reducer in the same order, with the same result. *)
Theorem trailing_newline_optional (chunks : list jsstring) (t : UITree) (st : Demo) :
  process_lines ((read_loop chunks []).1 ++ end_of_stream (read_loop chunks []).2) t st
  = process_lines ((read_loop (chunks ++ [[LF]]) []).1
                   ++ end_of_stream (read_loop (chunks ++ [[LF]]) []).2) t st.
Proof.
  rewrite read_loop_app. cbn [fst snd read_loop].
  assert (LF ∉ (read_loop chunks []).2) as Hb.
  { pose proof (read_loop_whole chunks) as H.
    apply (split_pieces LF (concat chunks)). rewrite <- H.
    apply elem_of_app. right. left. }
  assert (frame_chunk (read_loop chunks []).2 [LF] = ([(read_loop chunks []).2], [])) as ->.
  { apply (frame_chunk_spec _ _ [_] []). by rewrite split_app_separator. }
  cbn [fst snd app]. rewrite app_nil_r.
  rewrite !process_lines_app.
  destruct (process_lines (read_loop chunks []).1 t st) as [[t1|e] st1]; [|done].
  rewrite end_of_stream_as_line.
  change (end_of_stream []) with (@nil jsstring).
  by destruct (process_lines [(read_loop chunks []).2] t1 st1) as [[t2|e] st2].
Qed.

(** ** A request without a prompt *)

(** A request without a usable prompt is not refused.  When the body is
    JSON for anything but [null] and its [prompt] is missing or falsy
    (the empty string, [null], [false], zero), the handler calls the
    generator with the empty prompt. *)
Theorem POST_without_prompt `{Host} (body : jsstring) (request prompt : value) :
  JSON_parse body = Normal request ->
  get_field request (js "prompt") = Normal prompt ->
  truthy prompt = false ->
  POST body = Normal [].
Proof. intros Hb Hp Ht. unfold POST. by rewrite Hb; simpl; rewrite Hp; simpl; rewrite Ht. Qed.

Lemma POST_without_prompt_witness :
  @POST example_host (json "{'topic':'a form'}") = Normal [].
Proof.
  apply (@POST_without_prompt example_host (json "{'topic':'a form'}")
           (VObj [(js "topic", VStr (js "a form"))]) VUndefined).
  - vm_compute. reflexivity.
  - vm_compute. reflexivity.
  - reflexivity.
Defined.

(** ** The preview during the playback *)

(** The playback never breaks the preview: in every reachable state of
    the page in simulation mode, the preview of the tree on display
    renders. *)
Theorem playback_preview_renders `{Host} (p : Page) :
  page_reachable p -> mode (demo p) = simulation ->
  exists shown, renderPreview (currentTree p) = Normal shown.
Proof.
  intros Hr Hm. pose proof (reachable_scripted _ Hr) as Hs.
  rewrite (scripted_currentTree _ Hs).
  unfold scripted in Hs. rewrite Hm in Hs. destruct Hs as [_ Hph].
  destruct (phase (demo p)); [| |done].
  - destruct Hph as (_ & -> & _). by eexists.
  - destruct Hph as (_ & _ & Hst). destruct (streaming_interval p) as [i|].
    + destruct Hst as (Hi & _ & -> & _).
      destruct i as [|[|[|[|[|[|i]]]]]]; try (simpl in Hi; lia);
        eexists; vm_compute; reflexivity.
    + destruct Hst as (_ & -> & _). eexists. vm_compute. reflexivity.
Qed.

Lemma playback_preview_renders_witness :
  exists shown,
    @renderPreview example_host
      (currentTree (page_after (replicate 52 TypingTick
                                ++ [TimeoutFires 0; StreamingTick; StreamingTick])))
    = Normal shown.
Proof.
  apply (@playback_preview_renders example_host
           (page_after (replicate 52 TypingTick
                        ++ [TimeoutFires 0; StreamingTick; StreamingTick]))).
  - exists (replicate 52 TypingTick ++ [TimeoutFires 0; StreamingTick; StreamingTick]).
    vm_compute. reflexivity.
  - vm_compute. reflexivity.
Defined.

(** The scripted lines are not what builds the scripted trees: reduced
    from the empty tree they never add the element [name], which every
    stage from the second on shows. *)
Lemma scripted_lines_differ :
  exists t st,
    process_lines (map stage_stream SIMULATION_STAGES) empty_tree initial = (Normal t, st)
    /\ own (elements t) !! js "name" = None
    /\ (exists stage, SIMULATION_STAGES !! 4%nat = Some stage
                      /\ own (elements (stage_tree stage)) !! js "name"
                         = Some (simulated_field "name" "Input" "Name")).
Proof.
  eexists _, _. split; [vm_compute; reflexivity|]. split; [vm_compute; reflexivity|].
  eexists. split; [reflexivity|]. vm_compute. reflexivity.
Qed.

(** ** A stream is its lines *)

(** The read phase of a call, as one step.  However the response body is
    cut into chunks, reading it to the end is processing, in order, the
    pieces of the whole text between its newlines, and then settling:
    when no piece throws, the call ends in the state that processing
    leaves, with the loading flag cleared. *)
Theorem stream_is_its_lines (c : nat) (chunks : list jsstring) (t : UITree) (st : Demo)
    (t' : UITree) (st' : Demo) :
  calls st !! c = Some (Reading [] t) ->
  c ∉ aborted st ->
  process_lines (split LF (concat chunks)) t st = (Normal t', st') ->
  run (chunk_events c chunks) st = Some (settle c (Normal t') st').
Proof.
  intros Hc Ha Hp. apply (read_phase c chunks [] t st t' st' Hc Ha).
  rewrite <- (read_loop_whole chunks), process_lines_app in Hp.
  rewrite process_lines_app.
  destruct (process_lines (read_loop chunks []).1 t st) as [[t1|e] st1]; [|done].
  by rewrite end_of_stream_as_line.
Qed.

Lemma stream_is_its_lines_witness :
  run (chunk_events 0 [js "  "; set_root_line; [13; LF] ++ js "// children follow" ++ [LF];
                       add_form_line])
      (state_after reading_session)
  = Some (settle 0
            (Normal {| root := VStr (js "form");
                       elements := {| own := {[ js "form" := form_element ]};
                                      proto := ObjectPrototype |} |})
            (process_lines
               (split LF (concat [js "  "; set_root_line;
                                  [13; LF] ++ js "// children follow" ++ [LF];
                                  add_form_line]))
               empty_tree (state_after reading_session)).2).
Proof.
  apply (stream_is_its_lines 0
           [js "  "; set_root_line; [13; LF] ++ js "// children follow" ++ [LF];
            add_form_line] empty_tree (state_after reading_session)).
  - vm_compute. reflexivity.
  - vm_compute. set_solver.
  - vm_compute. reflexivity.
Defined.
